(** * Bouncing-balls simulation core: physics engines, collision resolver
      and frame snapshot history.

    Shallow embedding of the simulation core of the editor (the
    multi-engine physics file with the state snapshot system): the
    snapshot functions and the history buffer, [updateBall] and
    [reflectWall] of the three engines, [getCurrentEngine], the writers of
    [ballProxy], [handleCollisions], ball creation ([spawnBall],
    [duplicateBall]), [tick] and [reset]; and of the stepping functions
    and the frame loop of the main file.  Rendering and the audio code are
    not part of it.

    Numbers.  JavaScript numbers are embedded as real numbers [R]; integer
    quantities (ball ids, frame numbers, [nextId]) as [Z].  A division by a
    computed quantity goes through [fdiv], which has no result when the
    divisor is zero (where JavaScript produces NaN or an infinity and the
    value leaves the reals); a division by a non-zero literal ([/ 2],
    [/ 180], [/ PI]) is written with the division of [R].

    Effects.  The source mutates the global [state] and the ball objects in
    place and calls user callbacks.  The embedding passes the values
    explicitly and runs the effectful code in the monad [M], which carries
    the list of events that happened (callback invocations, the sound cue,
    divisions by computed quantities). *)

From Stdlib Require Import Reals Lra Lia ZArith.
From stdpp Require Import gmap strings list.

Local Open Scope Z_scope.

(** ** JavaScript numeric helpers *)

Module Num.

(** [Math.hypot(x, y)] *)
Definition hypot (x y : R) : R := sqrt (x * x + y * y).

(** [Math.atan2(y, x)] on real arguments; [atan2(0, 0)] is [0]. *)
Definition atan2 (y x : R) : R :=
  if Rlt_dec 0 x then atan (y / x)
  else if Rlt_dec x 0 then
    (if Rle_dec 0 y then atan (y / x) + PI else atan (y / x) - PI)
  else if Rlt_dec 0 y then PI / 2
  else if Rlt_dec y 0 then - (PI / 2)
  else 0.

(** [Math.sign] *)
Definition sign (a : R) : R :=
  if Rlt_dec 0 a then 1 else if Rlt_dec a 0 then -1 else 0.

End Num.

#[global] Instance Rlt_decision (a b : R) : Decision (a < b)%R := Rlt_dec a b.
#[global] Instance Rle_decision (a b : R) : Decision (a <= b)%R := Rle_dec a b.
#[global] Instance Req_decision : EqDecision R := Req_dec_T.

(** ** Data model *)

(** Values a script may store in a ball's [data] bag (primitive values;
    a spread copy of the bag shares nothing with the original then). *)
Inductive JsValue :=
| JsNum (n : R)
| JsStr (s : string)
| JsBool (b : bool).

Module Ball.
Record ball := mk {
  id : Z;
  x : R;
  y : R;
  vx : R;
  vy : R;
  r : R;
  color : string;
  alive : bool;
  data : gmap string JsValue
}.

Definition set_x (v : R) (b : ball) : ball :=
  mk (id b) v (y b) (vx b) (vy b) (r b) (color b) (alive b) (data b).
Definition set_y (v : R) (b : ball) : ball :=
  mk (id b) (x b) v (vx b) (vy b) (r b) (color b) (alive b) (data b).
Definition set_vx (v : R) (b : ball) : ball :=
  mk (id b) (x b) (y b) v (vy b) (r b) (color b) (alive b) (data b).
Definition set_vy (v : R) (b : ball) : ball :=
  mk (id b) (x b) (y b) (vx b) v (r b) (color b) (alive b) (data b).
Definition set_r (v : R) (b : ball) : ball :=
  mk (id b) (x b) (y b) (vx b) (vy b) v (color b) (alive b) (data b).
Definition set_color (c : string) (b : ball) : ball :=
  mk (id b) (x b) (y b) (vx b) (vy b) (r b) c (alive b) (data b).
Definition set_alive (a : bool) (b : ball) : ball :=
  mk (id b) (x b) (y b) (vx b) (vy b) (r b) (color b) a (data b).

(** Euclidean norm of the velocity. *)
Definition speed (b : ball) : R := Num.hypot (vx b) (vy b).
End Ball.

Module Arena.
Record arena := mk {
  cx : R;
  cy : R;
  r : R;
  gapAngle : R;
  gapWidth : R
}.
End Arena.

(** The arena the source configures: a 1080 x 1920 canvas. *)
Definition arena0 : Arena.arena :=
  Arena.mk 540 960 (Rmin 1080 1920 * 0.44) (- PI / 2) 0.28.

Module ArcadeConfig.
Record config := mk {
  minReflectionAngle : R;
  maxReflectionAngle : R
}.
End ArcadeConfig.

Module RealisticConfig.
Record config := mk {
  gravity : R;
  elasticity : R;
  airResistance : R;
  minVelocity : R;
  groundLevel : R
}.
End RealisticConfig.

Module PhysicsConfig.
Record config := mk {
  arcade : ArcadeConfig.config;
  arcadeSimple : ArcadeConfig.config;
  realistic : RealisticConfig.config
}.
End PhysicsConfig.

Definition physicsConfig0 : PhysicsConfig.config :=
  PhysicsConfig.mk
    (ArcadeConfig.mk 15 165)
    (ArcadeConfig.mk 15 165)
    (RealisticConfig.mk 980 0.85 0.99 5 0.9).

(** The callbacks a compiled program registers.  A callback receives ball
    proxies; its effect on the balls it is handed is a function of those
    balls (an exception raised inside it is caught at the call site, what
    it wrote before is kept). *)
Module Program.
Record program := mk {
  onTick : option (R -> unit);
  onWallHit : option (Ball.ball -> Ball.ball);
  onBallCollision :
    option (Ball.ball -> Ball.ball -> Ball.ball * Ball.ball);
  onSpawn : option (Ball.ball -> Ball.ball);
  onExit : option (Ball.ball -> Ball.ball)
}.

Definition empty : program := mk None None None None None.
End Program.

Module State.
Record state := mk {
  running : bool;
  balls : list Ball.ball;
  nextId : Z;
  t : R;
  dt : R;
  accumulator : R;
  lastMs : option R;
  doTrail : bool;
  doSfx : bool;
  doCollide : bool;
  score : R;
  program : option Program.program;
  physicsEngine : string
}.

Definition initial : state :=
  mk false [] 1 0 (1 / 120) 0 None true false false 0 None "arcadeSimple".
End State.

(** [state.program?.handler] *)
Definition handler {A} (st : State.state)
    (h : Program.program -> option A) : option A :=
  match State.program st with
  | Some p => h p
  | None => None
  end.

(** ** State snapshot system *)

Module Snapshot.
Record snapshot := mk {
  frameNumber : Z;
  balls : list Ball.ball;
  nextId : Z;
  t : R;
  score : R;
  physicsEngine : string;
  doCollide : bool;
  timestamp : R
}.
End Snapshot.

Definition SNAPSHOT_BUFFER_SIZE : Z := 5000.

(** The two module-level variables of the history buffer. *)
Module History.
Record history := mk {
  simulationHistory : gmap Z Snapshot.snapshot;
  maxSavedFrame : Z
}.

Definition initial : history := mk ∅ (-1).
End History.

(** The object literal both [createStateSnapshot] and
    [restoreStateSnapshot] build for each ball: every field copied, the
    data bag spread into a new object. *)
Definition copyBall (ball : Ball.ball) : Ball.ball :=
  Ball.mk (Ball.id ball) (Ball.x ball) (Ball.y ball) (Ball.vx ball)
    (Ball.vy ball) (Ball.r ball) (Ball.color ball) (Ball.alive ball)
    (map_fold (fun k v acc => <[k:=v]> acc) ∅ (Ball.data ball)).

(** [now] is the value [performance.now()] returns. *)
Definition createStateSnapshot (now : R) (st : State.state)
    (frameNumber : Z) : Snapshot.snapshot :=
  Snapshot.mk frameNumber
    (copyBall <$> State.balls st)
    (State.nextId st) (State.t st) (State.score st)
    (State.physicsEngine st) (State.doCollide st)
    now.

(** Returns the restored frame number, or [None] for [false]; the second
    component is the state afterwards.  The update of the ball count
    display and the log line lie outside the model. *)
Definition restoreStateSnapshot (st : State.state)
    (snapshot : option Snapshot.snapshot) : option Z * State.state :=
  match snapshot with
  | None => (None, st)
  | Some snapshot =>
      (Some (Snapshot.frameNumber snapshot),
       State.mk (State.running st)
         (copyBall <$> Snapshot.balls snapshot)
         (Snapshot.nextId snapshot)
         (Snapshot.t snapshot)
         (State.dt st) (State.accumulator st) (State.lastMs st)
         (State.doTrail st) (State.doSfx st)
         (Snapshot.doCollide snapshot)
         (Snapshot.score snapshot)
         (State.program st)
         (Snapshot.physicsEngine snapshot))
  end.

(** [frameNumber = None] stands for a call with [undefined] or [null]. *)
Definition saveSimulationState (now : R) (st : State.state)
    (h : History.history) (frameNumber : option Z) : History.history :=
  match frameNumber with
  | None => h
  | Some frameNumber =>
      let snapshot := createStateSnapshot now st frameNumber in
      let stored := <[frameNumber:=snapshot]> (History.simulationHistory h) in
      let maxSaved := Z.max (History.maxSavedFrame h) frameNumber in
      let kept :=
        if decide (SNAPSHOT_BUFFER_SIZE < Z.of_nat (size stored)) then
          let oldestFrameToKeep := maxSaved - SNAPSHOT_BUFFER_SIZE + 1 in
          filter (fun kv => ¬ (kv.1 < oldestFrameToKeep)) stored
        else stored in
      History.mk kept maxSaved
  end.

Definition restoreSimulationState (h : History.history) (st : State.state)
    (targetFrame : Z) : option Z * State.state :=
  if decide (targetFrame < 0) then (None, st)
  else
    match History.simulationHistory h !! targetFrame with
    | None => (None, st)
    | Some snapshot =>
        match restoreStateSnapshot st (Some snapshot) with
        | (Some _, st') => (Some targetFrame, st')
        | (None, st') => (None, st')
        end
    end.

Definition clearSimulationHistory (h : History.history) : History.history :=
  History.mk ∅ (-1).

(** One save per frame, frames [0..n], starting from the cleared history;
    [stateAt k] is the simulation state when frame [k] is saved and
    [clock k] the time stamp taken then. *)
Fixpoint saveFrames (stateAt : nat -> State.state) (clock : nat -> R)
    (n : nat) : History.history :=
  match n with
  | O => saveSimulationState (clock O) (stateAt O) History.initial (Some 0)
  | S k =>
      saveSimulationState (clock n) (stateAt n)
        (saveFrames stateAt clock k) (Some (Z.of_nat n))
  end.

(** ** Events and the effect monad *)

Inductive Event :=
| EvExit (id : Z)                 (* the onExit callback ran for the ball *)
| EvWallHit (id : Z)              (* the onWallHit callback ran *)
| EvBallCollision (ida idb : Z)   (* the onBallCollision callback ran *)
| EvSfx                           (* pingSfx played its cue *)
| EvDivide (num den : R).         (* a division by a computed quantity *)

(** A computation either leaves the reals ([None]) or gives the events it
    produced, in order, and its result. *)
Definition M (A : Type) : Type := option (list Event * A).

Definition ret {A} (a : A) : M A := Some ([], a).

Definition bind {A B} (m : M A) (k : A -> M B) : M B :=
  match m with
  | None => None
  | Some (l1, a) =>
      match k a with
      | None => None
      | Some (l2, b) => Some (l1 ++ l2, b)
      end
  end.

Notation "'let*' x ':=' m 'in' k" := (bind m (fun x => k))
  (at level 10, x pattern, m at level 100, k at level 200).

Definition emit (e : Event) : M unit := Some ([e], tt).

(** [num / den] for a computed [den]. *)
Definition fdiv (num den : R) : M R :=
  if Req_dec_T den 0 then None else Some ([EvDivide num den], (num / den)%R).

(** [if (cb) { try { cb(ballProxy(ball)) } catch (e) { ... } }] *)
Definition fire (cb : option (Ball.ball -> Ball.ball)) (ev : Event)
    (ball : Ball.ball) : M Ball.ball :=
  match cb with
  | Some f => Some ([ev], f ball)
  | None => ret ball
  end.

(** ** The ball proxy handed to callbacks *)

Module Proxy.
(** The writing operations of [ballProxy] on the ball it wraps
    ([duplicate()] and the functions of the [api] object act on the ball
    collection and the score, not on the ball at hand). *)
Inductive op :=
| SetX (v : R)
| SetY (v : R)
| SetVx (v : R)
| SetVy (v : R)
| SetR (v : R)
| SetColor (c : string)
| Destroy
| SetVelocity (vx vy : R)
| ScaleSpeed (f : R).

Definition apply (o : op) (b : Ball.ball) : Ball.ball :=
  match o with
  | SetX v => Ball.set_x v b
  | SetY v => Ball.set_y v b
  | SetVx v => Ball.set_vx v b
  | SetVy v => Ball.set_vy v b
  | SetR v => Ball.set_r (Rmax 1 v) b
  | SetColor c => Ball.set_color c b
  | Destroy => Ball.set_alive false b
  | SetVelocity vx vy => Ball.set_vy vy (Ball.set_vx vx b)
  | ScaleSpeed f =>
      let s := Num.hypot (Ball.vx b) (Ball.vy b) in
      let ns := (s * f)%R in
      if Rlt_dec 0 s then
        let t := (ns / s)%R in
        Ball.set_vy (Ball.vy b * t) (Ball.set_vx (Ball.vx b * t) b)
      else b
  end.

(** A callback that performs the given operations on its ball. *)
Definition script (ops : list op) (b : Ball.ball) : Ball.ball :=
  fold_left (fun b o => apply o b) ops b.
End Proxy.

(** ** Physics engines *)

(** What an engine object offers. *)
Module Engine.
Record engine := mk {
  updateBall : Ball.ball -> R -> Ball.ball;
  reflectWall : Ball.ball -> M (Ball.ball * bool)
}.
End Engine.

(** The two [while] loops that bring an angle in degrees into
    [-180, 180]: each runs its body while its test holds; the iteration
    count given to [Nat.iter] is an upper bound on the number of rounds,
    and a round after the test has failed changes nothing. *)
Definition wrapDown (a : R) : R := if Rlt_dec 180 a then (a - 360)%R else a.
Definition wrapUp (a : R) : R := if Rlt_dec a (-180) then (a + 360)%R else a.
Definition rounds (a : R) : nat := Z.to_nat (up (Rabs a / 360)).
Definition normalizeDeg (a : R) : R :=
  let a := Nat.iter (rounds a) wrapDown a in
  Nat.iter (rounds a) wrapUp a.

(** Mirror reflection of a velocity about the normal [(nx, ny)]. *)
Definition mirror (vx vy nx ny : R) : R * R :=
  let vdotn := (vx * nx + vy * ny)%R in
  ((vx - 2 * vdotn * nx)%R, (vy - 2 * vdotn * ny)%R).

(** The angle in degrees the arcade engines compute for a velocity. *)
Definition reflectionAngle (newVx newVy : R) : R :=
  normalizeDeg (Num.atan2 newVy newVx * 180 / PI)%R.

(** The maximum and then the minimum constraint on that angle. *)
Definition constrainAngle (config : ArcadeConfig.config)
    (reflectionAngleDeg : R) : R :=
  let maxA := ArcadeConfig.maxReflectionAngle config in
  let minA := ArcadeConfig.minReflectionAngle config in
  let constrainedAngleDeg :=
    if Rlt_dec maxA reflectionAngleDeg then maxA
    else if Rlt_dec reflectionAngleDeg (- maxA) then (- maxA)%R
    else reflectionAngleDeg in
  if Rlt_dec (Rabs constrainedAngleDeg) minA then
    (if Rle_dec 0 constrainedAngleDeg then minA else (- minA)%R)
  else constrainedAngleDeg.

(** The velocity after the angle constraints: the constrained direction
    is taken only when it differs from the natural one by more than a
    tenth of a degree. *)
Definition constrainVelocity (config : ArcadeConfig.config)
    (newVx newVy : R) : R * R :=
  let reflectionAngleDeg := reflectionAngle newVx newVy in
  let speed := Num.hypot newVx newVy in
  let constrainedAngleDeg := constrainAngle config reflectionAngleDeg in
  if Rlt_dec 0.1 (Rabs (constrainedAngleDeg - reflectionAngleDeg)) then
    let constrainedAngleRad := (constrainedAngleDeg * PI / 180)%R in
    ((cos constrainedAngleRad * speed)%R, (sin constrainedAngleRad * speed)%R)
  else (newVx, newVy).

Section Physics.
(** The globals the engines read. *)
Variable arena : Arena.arena.
Variable physicsConfig : PhysicsConfig.config.
Variable st : State.state.

Definition pingSfx : M unit :=
  if State.doSfx st then emit EvSfx else ret tt.

(** Shortest angular difference between the ball's angular position and
    the gap angle. *)
Definition gapDelta (dx dy : R) : R :=
  let ang := Num.atan2 dy dx in
  Num.atan2 (sin (ang - Arena.gapAngle arena))
            (cos (ang - Arena.gapAngle arena)).

(** The gap-exit branch, the same in the three engines. *)
Definition gapExit (ball : Ball.ball) : M (Ball.ball * bool) :=
  let* ball := fire (handler st Program.onExit) (EvExit (Ball.id ball)) ball in
  let ball := Ball.set_x (Arena.cx arena) ball in
  let ball := Ball.set_y (Arena.cy arena) ball in
  ret (ball, true).

(** Moving the ball back inside along the contact normal. *)
Definition pushInside (nx ny dist : R) (ball : Ball.ball) : Ball.ball :=
  let overlap := (dist + Ball.r ball - Arena.r arena)%R in
  let ball := Ball.set_x (Ball.x ball - nx * overlap) ball in
  Ball.set_y (Ball.y ball - ny * overlap) ball.

(** The wall response of the arcade engines, up to the assignment of the
    new velocity and before the onWallHit callback. *)
Definition arcadeBounce (config : ArcadeConfig.config) (dx dy dist : R)
    (ball : Ball.ball) : M Ball.ball :=
  let* nx := fdiv dx dist in
  let* ny := fdiv dy dist in
  let ball := pushInside nx ny dist ball in
  let '(newVx, newVy) := mirror (Ball.vx ball) (Ball.vy ball) nx ny in
  let '(newVx, newVy) := constrainVelocity config newVx newVy in
  let ball := Ball.set_vx newVx ball in
  let ball := Ball.set_vy newVy ball in
  ret ball.

(** [reflectWall] of [ArcadePhysics] and of [ArcadeSimplePhysics]; the
    two bodies differ only in the configuration entry they read. *)
Definition arcadeReflectWall (config : ArcadeConfig.config)
    (ball : Ball.ball) : M (Ball.ball * bool) :=
  let dx := (Ball.x ball - Arena.cx arena)%R in
  let dy := (Ball.y ball - Arena.cy arena)%R in
  let dist := Num.hypot dx dy in
  if Rle_dec (dist + Ball.r ball) (Arena.r arena) then ret (ball, false)
  else if Rlt_dec (Rabs (gapDelta dx dy)) (Arena.gapWidth arena / 2) then
    gapExit ball
  else
    let* ball := arcadeBounce config dx dy dist ball in
    let* ball :=
      fire (handler st Program.onWallHit) (EvWallHit (Ball.id ball)) ball in
    let* _ := pingSfx in
    ret (ball, true).

Definition kinematicUpdate (ball : Ball.ball) (dt : R) : Ball.ball :=
  let ball := Ball.set_x (Ball.x ball + Ball.vx ball * dt) ball in
  Ball.set_y (Ball.y ball + Ball.vy ball * dt) ball.

Definition ArcadePhysics : Engine.engine :=
  Engine.mk kinematicUpdate
    (arcadeReflectWall (PhysicsConfig.arcade physicsConfig)).

Definition ArcadeSimplePhysics : Engine.engine :=
  Engine.mk kinematicUpdate
    (arcadeReflectWall (PhysicsConfig.arcadeSimple physicsConfig)).

Definition realisticUpdateBall (ball : Ball.ball) (dt : R) : Ball.ball :=
  let config := PhysicsConfig.realistic physicsConfig in
  let ball :=
    Ball.set_vy (Ball.vy ball + RealisticConfig.gravity config * dt) ball in
  let ball :=
    Ball.set_vx (Ball.vx ball * RealisticConfig.airResistance config) ball in
  let ball :=
    Ball.set_vy (Ball.vy ball * RealisticConfig.airResistance config) ball in
  let speed := Num.hypot (Ball.vx ball) (Ball.vy ball) in
  let distFromCenter :=
    Num.hypot (Ball.x ball - Arena.cx arena) (Ball.y ball - Arena.cy arena) in
  let isNearGround :=
    bool_decide
      (Arena.r arena * RealisticConfig.groundLevel config < distFromCenter)%R in
  let ball :=
    if bool_decide (speed < RealisticConfig.minVelocity config)%R
         && isNearGround
       || bool_decide (Rabs (Ball.vx ball) < 1)%R
         && bool_decide (Rabs (Ball.vy ball) < 1)%R
    then Ball.set_vy 0 (Ball.set_vx 0 ball)
    else ball in
  let ball := Ball.set_x (Ball.x ball + Ball.vx ball * dt) ball in
  Ball.set_y (Ball.y ball + Ball.vy ball * dt) ball.

Definition realisticBounce (dx dy dist : R) (ball : Ball.ball) : M Ball.ball :=
  let* nx := fdiv dx dist in
  let* ny := fdiv dy dist in
  let ball := pushInside nx ny dist ball in
  let '(newVx, newVy) := mirror (Ball.vx ball) (Ball.vy ball) nx ny in
  let ball := Ball.set_vx newVx ball in
  let ball := Ball.set_vy newVy ball in
  let config := PhysicsConfig.realistic physicsConfig in
  let ball :=
    Ball.set_vx (Ball.vx ball * RealisticConfig.elasticity config) ball in
  let ball :=
    Ball.set_vy (Ball.vy ball * RealisticConfig.elasticity config) ball in
  ret ball.

Definition realisticReflectWall (ball : Ball.ball) : M (Ball.ball * bool) :=
  let dx := (Ball.x ball - Arena.cx arena)%R in
  let dy := (Ball.y ball - Arena.cy arena)%R in
  let dist := Num.hypot dx dy in
  if Rle_dec (dist + Ball.r ball) (Arena.r arena) then ret (ball, false)
  else if Rlt_dec (Rabs (gapDelta dx dy)) (Arena.gapWidth arena / 2) then
    gapExit ball
  else
    let* ball := realisticBounce dx dy dist ball in
    let* ball :=
      fire (handler st Program.onWallHit) (EvWallHit (Ball.id ball)) ball in
    let* _ := pingSfx in
    ret (ball, true).

Definition RealisticPhysics : Engine.engine :=
  Engine.mk realisticUpdateBall realisticReflectWall.

Definition getCurrentEngine : Engine.engine :=
  if decide (State.physicsEngine st = "realistic") then RealisticPhysics
  else if decide (State.physicsEngine st = "arcadeSimple")
       then ArcadeSimplePhysics
  else ArcadePhysics.

(** The three engine objects. *)
Definition engines : list Engine.engine :=
  [ArcadePhysics; ArcadeSimplePhysics; RealisticPhysics].
End Physics.

(** ** The earlier arcade wall response

    The repository also holds the previous version of the physics file;
    its arcade engine measures the reflected direction against the angle
    of the contact normal. *)

Definition legacyConstrainVelocity (config : ArcadeConfig.config)
    (nx ny newVx newVy : R) : R * R :=
  let wallAngle := Num.atan2 ny nx in
  let reflectionAngle := Num.atan2 newVy newVx in
  let minAngleRad := (ArcadeConfig.minReflectionAngle config * PI / 180)%R in
  let maxAngleRad := (ArcadeConfig.maxReflectionAngle config * PI / 180)%R in
  let angleFromNormal := Rabs (reflectionAngle - wallAngle) in
  let angleFromNormal :=
    if Rlt_dec PI angleFromNormal then (2 * PI - angleFromNormal)%R
    else angleFromNormal in
  let speed := Num.hypot newVx newVy in
  let adjustedAngle :=
    if Rlt_dec angleFromNormal minAngleRad then
      let sign := Num.sign (reflectionAngle - wallAngle) in
      (wallAngle + sign * minAngleRad)%R
    else if Rlt_dec maxAngleRad angleFromNormal then
      let sign := Num.sign (reflectionAngle - wallAngle) in
      (wallAngle + sign * maxAngleRad)%R
    else reflectionAngle in
  if decide (adjustedAngle ≠ reflectionAngle) then
    ((cos adjustedAngle * speed)%R, (sin adjustedAngle * speed)%R)
  else (newVx, newVy).

Definition legacyArcadeBounce (arena : Arena.arena)
    (config : ArcadeConfig.config) (dx dy dist : R)
    (ball : Ball.ball) : M Ball.ball :=
  let* nx := fdiv dx dist in
  let* ny := fdiv dy dist in
  let ball := pushInside arena nx ny dist ball in
  let '(newVx, newVy) := mirror (Ball.vx ball) (Ball.vy ball) nx ny in
  let '(newVx, newVy) := legacyConstrainVelocity config nx ny newVx newVy in
  let ball := Ball.set_vx newVx ball in
  let ball := Ball.set_vy newVy ball in
  ret ball.

(** ** Collision resolver *)

Section Collisions.
Variable physicsConfig : PhysicsConfig.config.
Variable st : State.state.

(** Positional correction of an overlapping pair along the normal. *)
Definition separate (nx ny overlap : R) (a b : Ball.ball)
    : M (Ball.ball * Ball.ball) :=
  let totalR := (Ball.r a + Ball.r b)%R in
  let* aRatio := fdiv (Ball.r a) totalR in
  let* bRatio := fdiv (Ball.r b) totalR in
  let a := Ball.set_x (Ball.x a - nx * overlap * bRatio) a in
  let a := Ball.set_y (Ball.y a - ny * overlap * bRatio) a in
  let b := Ball.set_x (Ball.x b + nx * overlap * aRatio) b in
  let b := Ball.set_y (Ball.y b + ny * overlap * aRatio) b in
  ret (a, b).

(** Exchange of the relative normal velocity. *)
Definition momentumTransfer (nx ny : R) (a b : Ball.ball)
    : Ball.ball * Ball.ball :=
  let va := (Ball.vx a * nx + Ball.vy a * ny)%R in
  let vb := (Ball.vx b * nx + Ball.vy b * ny)%R in
  let dv := (vb - va)%R in
  let a := Ball.set_vx (Ball.vx a + dv * nx) a in
  let a := Ball.set_vy (Ball.vy a + dv * ny) a in
  let b := Ball.set_vx (Ball.vx b - dv * nx) b in
  let b := Ball.set_vy (Ball.vy b - dv * ny) b in
  (a, b).

Definition scaleVelocity (k : R) (b : Ball.ball) : Ball.ball :=
  let b := Ball.set_vx (Ball.vx b * k) b in
  Ball.set_vy (Ball.vy b * k) b.

(** [if (newSpeed > 0) { scale = originalSpeed / newSpeed; ... }] *)
Definition restoreSpeed (originalSpeed : R) (b : Ball.ball) : M Ball.ball :=
  let newSpeed := Num.hypot (Ball.vx b) (Ball.vy b) in
  if Rlt_dec 0 newSpeed then
    let* scale := fdiv originalSpeed newSpeed in
    ret (scaleVelocity scale b)
  else ret b.

(** The arcadeSimple response: each velocity mirrored about the normal,
    then brought back to the speed it had. *)
Definition simpleBounce (nx ny : R) (a b : Ball.ball)
    : M (Ball.ball * Ball.ball) :=
  let originalSpeedA := Num.hypot (Ball.vx a) (Ball.vy a) in
  let originalSpeedB := Num.hypot (Ball.vx b) (Ball.vy b) in
  let vaNormal := (Ball.vx a * nx + Ball.vy a * ny)%R in
  let vbNormal := (Ball.vx b * nx + Ball.vy b * ny)%R in
  let a := Ball.set_vx (Ball.vx a - 2 * vaNormal * nx) a in
  let a := Ball.set_vy (Ball.vy a - 2 * vaNormal * ny) a in
  let b := Ball.set_vx (Ball.vx b - 2 * vbNormal * nx) b in
  let b := Ball.set_vy (Ball.vy b - 2 * vbNormal * ny) b in
  let* a := restoreSpeed originalSpeedA a in
  let* b := restoreSpeed originalSpeedB b in
  ret (a, b).

Definition velocityResponse (nx ny : R) (a b : Ball.ball)
    : M (Ball.ball * Ball.ball) :=
  if decide (State.physicsEngine st ≠ "arcadeSimple") then
    let '(a, b) := momentumTransfer nx ny a b in
    if decide (State.physicsEngine st = "realistic") then
      let elasticity :=
        RealisticConfig.elasticity (PhysicsConfig.realistic physicsConfig) in
      ret (scaleVelocity elasticity a, scaleVelocity elasticity b)
    else ret (a, b)
  else simpleBounce nx ny a b.

(** Phase 1: the physical response to a detected collision. *)
Definition physicalResponse (dx dy dist minD : R) (a b : Ball.ball)
    : M (Ball.ball * Ball.ball) :=
  let* nx := fdiv dx dist in
  let* ny := fdiv dy dist in
  let overlap := (minD - dist)%R in
  let* ab := separate nx ny overlap a b in
  velocityResponse nx ny ab.1 ab.2.

(** Phase 2: the user collision event. *)
Definition collisionCallback (a b : Ball.ball) : M (Ball.ball * Ball.ball) :=
  match handler st Program.onBallCollision with
  | Some f => Some ([EvBallCollision (Ball.id a) (Ball.id b)], f a b)
  | None => ret (a, b)
  end.

(** Phase 3: a further separation when the callback changed a radius. *)
Definition radiusChangeSeparation (originalARadius originalBRadius : R)
    (a b : Ball.ball) : M (Ball.ball * Ball.ball) :=
  if decide (Ball.r a ≠ originalARadius ∨ Ball.r b ≠ originalBRadius) then
    let newDx := (Ball.x b - Ball.x a)%R in
    let newDy := (Ball.y b - Ball.y a)%R in
    let newDist := Num.hypot newDx newDy in
    let newMinD := (Ball.r a + Ball.r b)%R in
    if decide ((newDist < newMinD)%R ∧ (1e-4 < newDist)%R) then
      let* newNx := fdiv newDx newDist in
      let* newNy := fdiv newDy newDist in
      let additionalOverlap := (newMinD - newDist)%R in
      let newTotalR := (Ball.r a + Ball.r b)%R in
      let* newARatio := fdiv (Ball.r a) newTotalR in
      let* newBRatio := fdiv (Ball.r b) newTotalR in
      let a := Ball.set_x (Ball.x a - newNx * additionalOverlap * newBRatio) a in
      let a := Ball.set_y (Ball.y a - newNy * additionalOverlap * newBRatio) a in
      let b := Ball.set_x (Ball.x b + newNx * additionalOverlap * newARatio) b in
      let b := Ball.set_y (Ball.y b + newNy * additionalOverlap * newARatio) b in
      let separationVelocity : R :=
        if decide (State.physicsEngine st = "arcadeSimple") then 10%R
        else 20%R in
      let a := Ball.set_vx (Ball.vx a - newNx * separationVelocity * newBRatio) a in
      let a := Ball.set_vy (Ball.vy a - newNy * separationVelocity * newBRatio) a in
      let b := Ball.set_vx (Ball.vx b + newNx * separationVelocity * newARatio) b in
      let b := Ball.set_vy (Ball.vy b + newNy * separationVelocity * newARatio) b in
      ret (a, b)
    else ret (a, b)
  else ret (a, b).

(** The key of a pair in [processedPairs]: the smaller and the larger
    id. *)
Definition pairId (a b : Ball.ball) : Z * Z :=
  (Z.min (Ball.id a) (Ball.id b), Z.max (Ball.id a) (Ball.id b)).

(** The body of the inner loop for the pair [(a, b)]. *)
Definition pairStep (processedPairs : gset (Z * Z)) (a b : Ball.ball)
    : M (gset (Z * Z) * Ball.ball * Ball.ball) :=
  if negb (Ball.alive b) then ret (processedPairs, a, b)
  else if decide (pairId a b ∈ processedPairs) then ret (processedPairs, a, b)
  else
    let dx := (Ball.x b - Ball.x a)%R in
    let dy := (Ball.y b - Ball.y a)%R in
    let dist := Num.hypot dx dy in
    let minD := (Ball.r a + Ball.r b)%R in
    if decide ((dist < minD)%R ∧ (1e-4 < dist)%R) then
      let processedPairs := {[pairId a b]} ∪ processedPairs in
      let* ab := physicalResponse dx dy dist minD a b in
      let originalARadius := Ball.r ab.1 in
      let originalBRadius := Ball.r ab.2 in
      let* ab := collisionCallback ab.1 ab.2 in
      let* ab :=
        radiusChangeSeparation originalARadius originalBRadius ab.1 ab.2 in
      ret (processedPairs, ab.1, ab.2)
    else ret (processedPairs, a, b).

(** The inner loop over [j], with [a] the ball object fetched once by
    the outer loop. *)
Fixpoint innerLoop (js : list nat) (processedPairs : gset (Z * Z))
    (balls : list Ball.ball) (a : Ball.ball)
    : M (gset (Z * Z) * list Ball.ball * Ball.ball) :=
  match js with
  | [] => ret (processedPairs, balls, a)
  | j :: js =>
      match balls !! j with
      | None => innerLoop js processedPairs balls a
      | Some b =>
          let* pab := pairStep processedPairs a b in
          innerLoop js pab.1.1 (<[j:=pab.2]> balls) pab.1.2
      end
  end.

Fixpoint outerLoop (n : nat) (ixs : list nat) (processedPairs : gset (Z * Z))
    (balls : list Ball.ball) : M (gset (Z * Z) * list Ball.ball) :=
  match ixs with
  | [] => ret (processedPairs, balls)
  | i :: ixs =>
      match balls !! i with
      | None => outerLoop n ixs processedPairs balls
      | Some a =>
          if negb (Ball.alive a) then outerLoop n ixs processedPairs balls
          else
            let* pba :=
              innerLoop (seq (S i) (n - S i)) processedPairs balls a in
            outerLoop n ixs pba.1.1 (<[i:=pba.2]> pba.1.2)
      end
  end.

(** The balls of the state after the resolver has run. *)
Definition handleCollisions : M (list Ball.ball) :=
  let n := length (State.balls st) in
  let* pb := outerLoop n (seq 0 n) ∅ (State.balls st) in
  ret pb.2.
End Collisions.

(** ** The physics tick *)

Definition setBalls (balls : list Ball.ball) (st : State.state) : State.state :=
  State.mk (State.running st) balls (State.nextId st) (State.t st)
    (State.dt st) (State.accumulator st) (State.lastMs st)
    (State.doTrail st) (State.doSfx st) (State.doCollide st)
    (State.score st) (State.program st) (State.physicsEngine st).

Definition setT (t : R) (st : State.state) : State.state :=
  State.mk (State.running st) (State.balls st) (State.nextId st) t
    (State.dt st) (State.accumulator st) (State.lastMs st)
    (State.doTrail st) (State.doSfx st) (State.doCollide st)
    (State.score st) (State.program st) (State.physicsEngine st).

Section Tick.
Variable arena : Arena.arena.
Variable physicsConfig : PhysicsConfig.config.
(** What a registered onTick rule does to the state, through the [api]
    object it closes over. *)
Variable onTickEffect : R -> State.state -> State.state.

(** The loop over the balls: a ball that is not alive is skipped, the
    others are moved and then reflected by the engine. *)
Fixpoint ballLoop (engine : Engine.engine) (dt : R)
    (balls : list Ball.ball) : M (list Ball.ball) :=
  match balls with
  | [] => ret []
  | b :: rest =>
      if negb (Ball.alive b) then
        let* rest := ballLoop engine dt rest in
        ret (b :: rest)
      else
        let b := Engine.updateBall engine b dt in
        let* br := Engine.reflectWall engine b in
        let* rest := ballLoop engine dt rest in
        ret (br.1 :: rest)
  end.

Definition tick (dt : R) (st : State.state) : M State.state :=
  let st := setT (State.t st + dt)%R st in
  let st :=
    match handler st Program.onTick with
    | Some _ => onTickEffect dt st
    | None => st
    end in
  let engine := getCurrentEngine arena physicsConfig st in
  let* balls := ballLoop engine dt (State.balls st) in
  let st := setBalls balls st in
  let* balls :=
    if State.doCollide st then handleCollisions physicsConfig st
    else ret (State.balls st) in
  let st := setBalls balls st in
  if existsb (fun b => negb (Ball.alive b)) (State.balls st) then
    ret (setBalls (filter (fun b => Ball.alive b = true) (State.balls st)) st)
  else ret st.
End Tick.

(** ** Ball management *)

(** The [props] argument of [spawnBall]: an absent entry is [None]. *)
Module Props.
Record props := mk {
  x : option R;
  y : option R;
  vx : option R;
  vy : option R;
  r : option R;
  color : option string
}.

Definition empty : props := mk None None None None None None.
End Props.

(** What the random source yields during one call of [spawnBall]: the
    four numbers the function draws itself, in the order it draws them,
    and the colour string [randColor] makes of three more. *)
Module Draws.
Record draws := mk {
  angle : R;
  rad : R;
  speed : R;
  dir : R;
  color : string
}.
End Draws.

Definition setNextId (nextId : Z) (st : State.state) : State.state :=
  State.mk (State.running st) (State.balls st) nextId (State.t st)
    (State.dt st) (State.accumulator st) (State.lastMs st)
    (State.doTrail st) (State.doSfx st) (State.doCollide st)
    (State.score st) (State.program st) (State.physicsEngine st).

(** Returns the state afterwards and the ball object created, which is
    the last of the state's balls. *)
Definition spawnBall (arena : Arena.arena) (d : Draws.draws)
    (props : Props.props) (st : State.state) : State.state * Ball.ball :=
  let id := State.nextId st in
  let st := setNextId (State.nextId st + 1) st in
  let angle := (Draws.angle d * PI * 2)%R in
  let rad := (sqrt (Draws.rad d) * (Arena.r arena * 0.85))%R in
  let x := (Arena.cx arena + cos angle * rad)%R in
  let y := (Arena.cy arena + sin angle * rad)%R in
  let speed := (250 + Draws.speed d * 250)%R in
  let dir := (Draws.dir d * PI * 2)%R in
  let vx := (cos dir * speed)%R in
  let vy := (sin dir * speed)%R in
  let b :=
    Ball.mk id
      (default x (Props.x props))
      (default y (Props.y props))
      (default vx (Props.vx props))
      (default vy (Props.vy props))
      (default 15%R (Props.r props))
      (default (Draws.color d) (Props.color props))
      true ∅ in
  let balls := State.balls st in
  let st := setBalls (balls ++ [b]) st in
  let b :=
    match handler st Program.onSpawn with
    | Some f => f b
    | None => b
    end in
  (setBalls (balls ++ [b]) st, b).

(** [speedU], [offsetU] and [redirectU] are the numbers [duplicateBall]
    draws itself (the last one only when it redirects the clone), [d]
    what the call of [spawnBall] inside it draws. *)
Definition duplicateBall (arena : Arena.arena) (speedU offsetU redirectU : R)
    (d : Draws.draws) (ball : Ball.ball) (st : State.state)
    : State.state * Ball.ball :=
  let centerAngle :=
    Num.atan2 (Arena.cy arena - Ball.y ball) (Arena.cx arena - Ball.x ball) in
  let safeDistance := (Ball.r ball * 2.0)%R in
  let safeX := (Ball.x ball + cos centerAngle * safeDistance)%R in
  let safeY := (Ball.y ball + sin centerAngle * safeDistance)%R in
  let originalSpeed :=
    (Num.hypot (Ball.vx ball) (Ball.vy ball) * (0.9 + speedU * 0.3))%R in
  let randomOffset := ((offsetU - 0.5) * 0.4)%R in
  let safeAngle := (centerAngle + randomOffset)%R in
  let ballAngle :=
    Num.atan2 (Ball.y ball - Arena.cy arena) (Ball.x ball - Arena.cx arena) in
  let angleDifference := Rabs (safeAngle - ballAngle) in
  let finalAngle :=
    if Rlt_dec (PI * 0.75) angleDifference
    then (centerAngle + (redirectU - 0.5) * 0.2)%R
    else safeAngle in
  let '(st, nb) :=
    spawnBall arena d
      (Props.mk (Some safeX) (Some safeY) None None (Some (Ball.r ball)) None)
      st in
  let nb := Ball.set_vx (cos finalAngle * originalSpeed) nb in
  let nb := Ball.set_vy (sin finalAngle * originalSpeed) nb in
  let nb := Ball.set_color (Ball.color ball) nb in
  (setBalls (<[pred (length (State.balls st)) := nb]> (State.balls st)) st, nb).

(** ** History queries and frame stepping *)

(** One round of the scan of [getClosestAvailableFrame]: [acc] holds
    [closestFrame] and [minDistance], [None] standing for [Infinity]. *)
Definition closestStep (targetFrame : Z) (acc : Z * option Z) (frame : Z)
    : Z * option Z :=
  let distance := Z.abs (frame - targetFrame) in
  match acc.2 with
  | None => (frame, Some distance)
  | Some minDistance =>
      if decide (distance < minDistance) then (frame, Some distance) else acc
  end.

(** [order] is the sequence in which the Map yields its keys (the order
    of insertion); the result [None] stands for [null]. *)
Definition getClosestAvailableFrame (order : list Z) (h : History.history)
    (targetFrame : Z) : option Z :=
  if decide (is_Some (History.simulationHistory h !! targetFrame)) then
    Some targetFrame
  else
    let closestFrame := (fold_left (closestStep targetFrame) order (-1, None)).1 in
    if decide (0 ≤ closestFrame) then Some closestFrame else None.

(** The variables the stepping functions of the main file work on: the
    simulation state, the history buffer and the frame counter. *)
Module Stepper.
Record stepper := mk {
  state : State.state;
  history : History.history;
  simulationMode : string;
  currentFrame : Z
}.
End Stepper.

Definition setRunning (running : bool) (st : State.state) : State.state :=
  State.mk running (State.balls st) (State.nextId st) (State.t st)
    (State.dt st) (State.accumulator st) (State.lastMs st)
    (State.doTrail st) (State.doSfx st) (State.doCollide st)
    (State.score st) (State.program st) (State.physicsEngine st).

Section Stepping.
(** [tick i dt] is what the physics tick of round [i] does to the
    simulation state (with the random draws and callbacks it meets);
    [clock i] is the time stamp its snapshot gets. *)
Variable tick : nat -> R -> State.state -> State.state.
Variable clock : nat -> R.

(** The loop of [stepForward], rounds [i .. i + steps - 1]. *)
Fixpoint stepForwardLoop (steps : nat) (i : nat) (w : Stepper.stepper)
    : Stepper.stepper :=
  match steps with
  | O => w
  | S steps' =>
      let h :=
        saveSimulationState (clock i) (Stepper.state w) (Stepper.history w)
          (Some (Stepper.currentFrame w)) in
      let st := tick i (State.dt (Stepper.state w)) (Stepper.state w) in
      stepForwardLoop steps' (S i)
        (Stepper.mk st h (Stepper.simulationMode w)
           (Stepper.currentFrame w + 1))
  end.

Definition stepForward (steps : nat) (w : Stepper.stepper) : Stepper.stepper :=
  let w :=
    if negb (State.running (Stepper.state w))
       && bool_decide (Stepper.simulationMode w = "step")
    then Stepper.mk (setRunning true (Stepper.state w)) (Stepper.history w)
           (Stepper.simulationMode w) (Stepper.currentFrame w)
    else w in
  if negb (State.running (Stepper.state w)) then w
  else stepForwardLoop steps O w.

(** One round of the loop of [stepBackward]; [None] when the loop
    breaks. *)
Definition stepBackwardRound (order : list Z) (w : Stepper.stepper)
    : option Stepper.stepper :=
  let targetFrame := Stepper.currentFrame w - 1 in
  if decide (targetFrame < 0) then None
  else
    match restoreSimulationState (Stepper.history w) (Stepper.state w)
            targetFrame with
    | (Some restoredFrame, st) =>
        Some (Stepper.mk st (Stepper.history w) (Stepper.simulationMode w)
                restoredFrame)
    | (None, st) =>
        match getClosestAvailableFrame order (Stepper.history w) targetFrame with
        | Some closestFrame =>
            if decide (closestFrame < Stepper.currentFrame w) then
              match restoreSimulationState (Stepper.history w) st
                      closestFrame with
              | (Some restored, st') =>
                  Some (Stepper.mk st' (Stepper.history w)
                          (Stepper.simulationMode w) restored)
              | (None, _) => None
              end
            else None
        | None => None
        end
    end.

Fixpoint stepBackwardLoop (order : list Z) (steps : nat)
    (w : Stepper.stepper) : Stepper.stepper :=
  match steps with
  | O => w
  | S steps' =>
      match stepBackwardRound order w with
      | Some w' => stepBackwardLoop order steps' w'
      | None => w
      end
  end.

Definition stepBackward (order : list Z) (steps : nat)
    (w : Stepper.stepper) : Stepper.stepper :=
  if decide (Stepper.currentFrame w ≤ 0) then w
  else stepBackwardLoop order steps w.
End Stepping.

(** ** The frame loop and reset *)

Definition setAccumulator (accumulator : R) (st : State.state) : State.state :=
  State.mk (State.running st) (State.balls st) (State.nextId st) (State.t st)
    (State.dt st) accumulator (State.lastMs st)
    (State.doTrail st) (State.doSfx st) (State.doCollide st)
    (State.score st) (State.program st) (State.physicsEngine st).

Definition setLastMs (lastMs : option R) (st : State.state) : State.state :=
  State.mk (State.running st) (State.balls st) (State.nextId st) (State.t st)
    (State.dt st) (State.accumulator st) lastMs
    (State.doTrail st) (State.doSfx st) (State.doCollide st)
    (State.score st) (State.program st) (State.physicsEngine st).

(** [reset] of the physics file: the simulation state and the history
    afterwards. *)
Definition reset (st : State.state) (h : History.history)
    : State.state * History.history :=
  (State.mk false [] 1 0%R (State.dt st) 0%R None
     (State.doTrail st) (State.doSfx st) (State.doCollide st) 0%R
     (State.program st) (State.physicsEngine st),
   clearSimulationHistory h).

Definition resetFrameCounter (w : Stepper.stepper) : Stepper.stepper :=
  Stepper.mk (Stepper.state w) (clearSimulationHistory (Stepper.history w))
    (Stepper.simulationMode w) 0.

Section FrameLoop.
Variable tick : nat -> R -> State.state -> State.state.
Variable clock : nat -> R.

(** The [while] loop of [frame], from round [i] on; [fuel] bounds the
    number of rounds, and the result is [None] when the bound is reached
    with the loop test still true. *)
Fixpoint frameLoop (fuel : nat) (i : nat) (w : Stepper.stepper)
    : option Stepper.stepper :=
  let st := Stepper.state w in
  if Rle_dec (State.dt st) (State.accumulator st) then
    match fuel with
    | O => None
    | S fuel' =>
        let h :=
          saveSimulationState (clock i) st (Stepper.history w)
            (Some (Stepper.currentFrame w)) in
        let dt := State.dt st in
        let st := tick i dt st in
        let st := setAccumulator (State.accumulator st - State.dt st)%R st in
        frameLoop fuel' (S i)
          (Stepper.mk st h (Stepper.simulationMode w)
             (Stepper.currentFrame w + 1))
    end
  else Some w.

(** [frame(ms)] up to the rendering and the request for the next
    animation frame. *)
Definition frame (fuel : nat) (ms : R) (w : Stepper.stepper)
    : option Stepper.stepper :=
  if decide (Stepper.simulationMode w ≠ "continuous") then Some w
  else
    let st := Stepper.state w in
    let st :=
      match State.lastMs st with
      | None => setLastMs (Some ms) st
      | Some _ => st
      end in
    let dt := ((ms - default 0%R (State.lastMs st)) / 1000)%R in
    let st := setLastMs (Some ms) st in
    if State.running st then
      let st := setAccumulator (State.accumulator st + Rmin dt 0.25)%R st in
      frameLoop fuel O
        (Stepper.mk st (Stepper.history w) (Stepper.simulationMode w)
           (Stepper.currentFrame w))
    else
      Some (Stepper.mk st (Stepper.history w) (Stepper.simulationMode w)
              (Stepper.currentFrame w)).
End FrameLoop.

(** Histories that arise from the cleared one by saves and clears. *)
Inductive reachable : History.history -> Prop :=
| reachable_initial : reachable History.initial
| reachable_save now st h frameNumber :
    reachable h -> reachable (saveSimulationState now st h frameNumber)
| reachable_clear h :
    reachable h -> reachable (clearSimulationHistory h).

(** ** Notions used to state the properties *)

Definition isExit (e : Event) : bool :=
  match e with EvExit _ => true | _ => false end.

Definition isWallHit (e : Event) : bool :=
  match e with EvWallHit _ => true | _ => false end.

(** The ball a callback leaves behind, if one is registered. *)
Definition applyCallback (cb : option (Ball.ball -> Ball.ball))
    (ball : Ball.ball) : Ball.ball :=
  match cb with
  | Some f => f ball
  | None => ball
  end.

(** The unit normal of the wall at the ball's contact point, pointing into
    the arena. *)
Definition inwardNormal (arena : Arena.arena) (ball : Ball.ball) : R * R :=
  let dx := (Ball.x ball - Arena.cx arena)%R in
  let dy := (Ball.y ball - Arena.cy arena)%R in
  let dist := Num.hypot dx dy in
  ((- dx / dist)%R, (- dy / dist)%R).

(** The mirror reflection of the ball's velocity about the wall normal at
    its contact point. *)
Definition naturalReflection (arena : Arena.arena) (ball : Ball.ball)
    : R * R :=
  let dx := (Ball.x ball - Arena.cx arena)%R in
  let dy := (Ball.y ball - Arena.cy arena)%R in
  let dist := Num.hypot dx dy in
  mirror (Ball.vx ball) (Ball.vy ball) (dx / dist)%R (dy / dist)%R.

(** Signed angle in degrees, in (-180, 180], from the direction [n] to the
    direction [v]. *)
Definition deviationDeg (n v : R * R) : R :=
  (Num.atan2 (n.1 * v.2 - n.2 * v.1) (n.1 * v.1 + n.2 * v.2) * 180 / PI)%R.

(** The fields of a ball the physics itself never writes: everything
    but the position and the velocity. *)
Definition shell (b : Ball.ball)
    : Z * R * string * bool * gmap string JsValue :=
  (Ball.id b, Ball.r b, Ball.color b, Ball.alive b, Ball.data b).

(** The detection test of the collision resolver for the pair
    [(a, b)]. *)
Definition detected (a b : Ball.ball) : Prop :=
  (Num.hypot (Ball.x b - Ball.x a) (Ball.y b - Ball.y a)
   < Ball.r a + Ball.r b
   ∧ 1e-4 < Num.hypot (Ball.x b - Ball.x a) (Ball.y b - Ball.y a))%R.

(** Ball ids are pairwise distinct and below the next id to hand out. *)
Definition idsFresh (st : State.state) : Prop :=
  NoDup (Ball.id <$> State.balls st)
  ∧ Forall (fun b => (Ball.id b < State.nextId st)%Z) (State.balls st).

(** ** Sample inputs *)

(** A live ball with an empty data bag. *)
Definition ballAt (id : Z) (x y vx vy r : R) : Ball.ball :=
  Ball.mk id x y vx vy r "#ffffff" true ∅.

(** A state with the given engine name and program, nothing running. *)
Definition stateWith (engine : string) (p : option Program.program)
    : State.state :=
  State.mk false [] 1 0 (1 / 120) 0 None true false false 0 p engine.

(** A program whose onWallHit rule doubles the ball's speed. *)
Definition programSpeedUp : Program.program :=
  Program.mk None (Some (Proxy.script [Proxy.ScaleSpeed 2])) None None None.

(** A program whose onExit rule recolours the ball. *)
Definition programRecolour : Program.program :=
  Program.mk None None None None
    (Some (Proxy.script [Proxy.SetColor "#ff0000"])).

(** A ball that has crossed the wall inside the gap (the gap is centred
    on the angle [-PI/2]). *)
Definition gapBall : Ball.ball := ballAt 1 540 480 0 (-300) 15.

(** A ball that has crossed the wall at the rightmost point of the arena,
    moving straight out. *)
Definition wallBall : Ball.ball := ballAt 1 1010 960 100 0 15.

(** A ball that has crossed the wall at the leftmost point of the arena,
    where the inward normal is the x axis, and whose velocity mirrors to
    the direction 14.95 degrees off that normal, at speed 1000. *)
Definition nearMinBall : Ball.ball :=
  ballAt 1 70 960
    (- (cos (14.95 * PI / 180) * 1000)) (sin (14.95 * PI / 180) * 1000) 15.

(** A ball that has crossed the wall at the point of the arena opposite
    the gap, moving straight out. *)
Definition farBall : Ball.ball := ballAt 1 540 1430 0 100 15.


(** * Properties *)

(** ** Snapshots *)

Lemma spread_data (m : gmap string JsValue) :
  map_fold (fun k v acc => <[k:=v]> acc) ∅ m = m.
Proof.
  apply (map_fold_weak_ind (fun acc m => acc = m)); [done|].
  intros k v m' acc _ ->. done.
Qed.

Lemma copyBall_id (ball : Ball.ball) : copyBall ball = ball.
Proof. destruct ball. unfold copyBall. simpl. by rewrite spread_data. Qed.

Lemma copyBalls_id (balls : list Ball.ball) : copyBall <$> balls = balls.
Proof.
  induction balls as [|b bs IH]; [done|].
  rewrite fmap_cons, copyBall_id, IH. done.
Qed.

(** C1. Restoring the snapshot taken of a state at frame [F] gives back,
    whatever the simulation state has become in the meantime ([cur]), the
    balls of the saved state (the whole list, hence every ball's id, x, y,
    vx, vy, r, color and alive flag), its nextId, t, score, physics
    variant and collision flag, with equality; the call reports frame
    [F]. *)
Theorem snapshot_round_trip (now : R) (st cur : State.state) (F : Z) :
  let restored :=
    restoreStateSnapshot cur (Some (createStateSnapshot now st F)) in
  restored.1 = Some F
  ∧ State.balls restored.2 = State.balls st
  ∧ State.nextId restored.2 = State.nextId st
  ∧ State.t restored.2 = State.t st
  ∧ State.score restored.2 = State.score st
  ∧ State.physicsEngine restored.2 = State.physicsEngine st
  ∧ State.doCollide restored.2 = State.doCollide st.
Proof.
  simpl. rewrite !copyBalls_id. done.
Qed.

Lemma restoreSimulationState_miss (h : History.history) (st : State.state)
    (f : Z) :
  f < 0 ∨ History.simulationHistory h !! f = None →
  restoreSimulationState h st f = (None, st).
Proof.
  intros Hmiss. unfold restoreSimulationState.
  destruct (decide (f < 0)) as [|Hnn]; [done|].
  destruct Hmiss as [Hneg | ->]; [lia | done].
Qed.

Lemma restoreSimulationState_hit (h : History.history) (st : State.state)
    (f : Z) (s : Snapshot.snapshot) :
  0 ≤ f → History.simulationHistory h !! f = Some s →
  restoreSimulationState h st f
  = (Some f, (restoreStateSnapshot st (Some s)).2).
Proof.
  intros Hnn Hs. unfold restoreSimulationState.
  destruct (decide (f < 0)); [lia|]. rewrite Hs. done.
Qed.

(** C9. Restoring a frame for which no snapshot is stored (every negative
    frame counts as such) reports failure and leaves the simulation state
    as it was: balls, nextId, t, score, physics variant, collision flag
    and all the rest. *)
Theorem restore_miss_unchanged (h : History.history) (st : State.state)
    (f : Z) :
  f < 0 ∨ History.simulationHistory h !! f = None →
  restoreSimulationState h st f = (None, st).
Proof. apply restoreSimulationState_miss. Qed.

Lemma restore_miss_unchanged_witness :
  restoreSimulationState History.initial State.initial 3
  = (None, State.initial).
Proof.
  apply restore_miss_unchanged. right. reflexivity.
Defined.

(** The same through the history: a frame saved by number restores by
    number to the saved state, provided the frame is not negative and not
    older than the frames the buffer keeps. *)
Lemma save_then_restore (now : R) (st cur : State.state)
    (h : History.history) (F : Z) :
  0 ≤ F →
  History.maxSavedFrame h - SNAPSHOT_BUFFER_SIZE + 1 ≤ F →
  restoreSimulationState (saveSimulationState now st h (Some F)) cur F
  = (Some F,
     (restoreStateSnapshot cur (Some (createStateSnapshot now st F))).2).
Proof.
  intros Hnn Hkeep. apply restoreSimulationState_hit; [done|].
  simpl. case_decide.
  - apply map_lookup_filter_Some. split; [apply lookup_insert_eq|].
    simpl. unfold SNAPSHOT_BUFFER_SIZE in *. lia.
  - apply lookup_insert_eq.
Qed.

(** *** History eviction *)

Lemma size_interval (m : gmap Z Snapshot.snapshot) (lo hi : Z) :
  lo ≤ hi + 1 →
  (∀ f, is_Some (m !! f) ↔ lo ≤ f ≤ hi) →
  Z.of_nat (size m) = hi - lo + 1.
Proof.
  intros Hle Hdom.
  assert (dom m = list_to_set (seqZ lo (hi - lo + 1))) as Hd.
  { apply set_eq. intros f.
    rewrite elem_of_dom, Hdom, elem_of_list_to_set, elem_of_seqZ. lia. }
  rewrite <- size_dom, Hd, size_list_to_set by apply NoDup_seqZ.
  rewrite length_seqZ. lia.
Qed.

(** A frame that is stored stays stored by a save unless it lies below
    the oldest frame to keep; a save stores its own frame under the same
    condition. *)
Lemma save_lookup now st h f g :
  is_Some (History.simulationHistory
             (saveSimulationState now st h (Some f)) !! g) ↔
  (g = f ∨ is_Some (History.simulationHistory h !! g))
  ∧ (SNAPSHOT_BUFFER_SIZE
       < Z.of_nat (size (<[f:=createStateSnapshot now st f]>
                           (History.simulationHistory h))) →
     ¬ g < History.maxSavedFrame (saveSimulationState now st h (Some f))
           - SNAPSHOT_BUFFER_SIZE + 1).
Proof.
  simpl. case_decide as Hfull.
  - unfold is_Some. setoid_rewrite map_lookup_filter_Some. simpl.
    setoid_rewrite lookup_insert_Some. split.
    + intros (s & [[-> _] | [Hne Hs]] & Hkeep); eauto.
    + intros ([-> | [s Hs]] & Hkeep).
      * eexists. split; [left; done | auto].
      * destruct (decide (f = g)) as [-> |Hne].
        -- eexists. split; [left; done | auto].
        -- exists s. split; [right; done | auto].
  - rewrite lookup_insert_is_Some. split.
    + intros [-> | [_ Hs]]; split; auto; intros; lia.
    + intros [[-> | Hs] _]; [by left|].
      destruct (decide (f = g)); [by left | by right].
Qed.

Lemma saveFrames_invariant stateAt clock (n : nat) :
  let h := saveFrames stateAt clock n in
  History.maxSavedFrame h = Z.of_nat n
  ∧ ∀ f, is_Some (History.simulationHistory h !! f)
         ↔ Z.max 0 (Z.of_nat n - SNAPSHOT_BUFFER_SIZE + 1) ≤ f ≤ Z.of_nat n.
Proof.
  induction n as [|k [IHmax IHdom]].
  - split; [reflexivity|]. intros f.
    change (saveFrames stateAt clock 0)
      with (saveSimulationState (clock O) (stateAt O) History.initial (Some 0)).
    rewrite save_lookup.
    change (History.simulationHistory History.initial) with (∅ : gmap Z Snapshot.snapshot).
    rewrite insert_empty, map_size_singleton, lookup_empty.
    unfold SNAPSHOT_BUFFER_SIZE. split.
    + intros [[-> | []%is_Some_None] _]. lia.
    + intros ?. split; [left; lia | lia].
  - set (h := saveFrames stateAt clock k) in *.
    assert (History.maxSavedFrame
              (saveFrames stateAt clock (S k)) = Z.of_nat (S k)) as Hmax.
    { simpl. fold h. rewrite IHmax. lia. }
    split; [exact Hmax|]. intros f.
    change (saveFrames stateAt clock (S k))
      with (saveSimulationState (clock (S k)) (stateAt (S k)) h
              (Some (Z.of_nat (S k)))) in *.
    rewrite save_lookup, Hmax.
    set (lo := Z.max 0 (Z.of_nat k - SNAPSHOT_BUFFER_SIZE + 1)) in *.
    assert (Z.of_nat
              (size (<[Z.of_nat (S k):=
                        createStateSnapshot (clock (S k)) (stateAt (S k))
                          (Z.of_nat (S k))]> (History.simulationHistory h)))
            = Z.of_nat (S k) - lo + 1) as ->.
    { apply size_interval; [unfold lo, SNAPSHOT_BUFFER_SIZE; lia|].
      intros g. rewrite lookup_insert_is_Some, IHdom.
      destruct (decide (Z.of_nat (S k) = g)); split;
        unfold lo, SNAPSHOT_BUFFER_SIZE in *; lia. }
    rewrite IHdom. unfold lo, SNAPSHOT_BUFFER_SIZE. lia.
Qed.

(** C4. With the capacity of 5000 frames and one save per frame from
    frame 0 on: after frame [n] has been saved the newest frame [n]
    restores, frame 0 fails to restore as soon as
    [0 < maxSavedFrame - capacity + 1], and the frames that fail are those
    below that bound; so after frames [0..N] with [N] above the capacity
    frame 0 fails.  A single save, on any history, drops a stored frame
    only if the number of stored frames exceeded the capacity and the
    frame lies strictly below [maxSavedFrame - capacity + 1]. *)
Theorem history_eviction_bounds (stateAt : nat → State.state)
    (clock : nat → R) (cur : State.state) (N : nat) :
  SNAPSHOT_BUFFER_SIZE < Z.of_nat N →
  restoreSimulationState (saveFrames stateAt clock N) cur 0 = (None, cur)
  ∧ (∀ n : nat,
       let h := saveFrames stateAt clock n in
       History.maxSavedFrame h = Z.of_nat n
       ∧ (0 < History.maxSavedFrame h - SNAPSHOT_BUFFER_SIZE + 1 →
          restoreSimulationState h cur 0 = (None, cur))
       ∧ (restoreSimulationState h cur (History.maxSavedFrame h)).1
         = Some (History.maxSavedFrame h)
       ∧ (∀ f, 0 ≤ f ≤ Z.of_nat n →
            (restoreSimulationState h cur f).1 = None
            ↔ f < History.maxSavedFrame h - SNAPSHOT_BUFFER_SIZE + 1))
  ∧ (∀ now st h f g,
       let h' := saveSimulationState now st h (Some f) in
       is_Some (History.simulationHistory h !! g) →
       History.simulationHistory h' !! g = None →
       SNAPSHOT_BUFFER_SIZE
         < Z.of_nat (size (<[f:=createStateSnapshot now st f]>
                             (History.simulationHistory h)))
       ∧ g < History.maxSavedFrame h' - SNAPSHOT_BUFFER_SIZE + 1).
Proof.
  intros HN.
  assert (∀ n : nat,
       let h := saveFrames stateAt clock n in
       History.maxSavedFrame h = Z.of_nat n
       ∧ ∀ f, 0 ≤ f ≤ Z.of_nat n →
            (restoreSimulationState h cur f).1 = None
            ↔ f < Z.of_nat n - SNAPSHOT_BUFFER_SIZE + 1) as Hrun.
  { intros n h. destruct (saveFrames_invariant stateAt clock n) as [Hmax Hdom].
    fold h in Hmax, Hdom. split; [done|]. intros f Hf.
    destruct (History.simulationHistory h !! f) as [s|] eqn:Hs.
    - rewrite (restoreSimulationState_hit h cur f s) by (done || lia).
      assert (is_Some (History.simulationHistory h !! f)) as Hin by eauto.
      apply Hdom in Hin. simpl. split; [done | lia].
    - rewrite restoreSimulationState_miss by auto.
      assert (¬ is_Some (History.simulationHistory h !! f)) as Hout.
      { rewrite Hs. by intros []%is_Some_None. }
      rewrite Hdom in Hout. simpl. split; [lia | done]. }
  split; [|split].
  - destruct (Hrun N) as [_ H0].
    destruct (restoreSimulationState (saveFrames stateAt clock N) cur 0)
      as [res st'] eqn:Hres.
    assert (res = None) as ->.
    { specialize (H0 0). rewrite Hres in H0. apply H0; lia. }
    unfold restoreSimulationState in Hres.
    destruct (decide (0 < 0)); [lia|].
    destruct (History.simulationHistory _ !! 0); simpl in Hres; congruence.
  - intros n h. destruct (Hrun n) as [Hmax Hf]. fold h in Hmax, Hf.
    rewrite Hmax. split; [done|]. split; [|split].
    + intros Hpos.
      destruct (restoreSimulationState h cur 0) as [res st'] eqn:Hres.
      assert (res = None) as ->.
      { specialize (Hf 0). rewrite Hres in Hf. apply Hf; lia. }
      unfold restoreSimulationState in Hres.
      destruct (decide (0 < 0)); [lia|].
      destruct (History.simulationHistory _ !! 0); simpl in Hres; congruence.
    + destruct (restoreSimulationState h cur (Z.of_nat n)).1 eqn:Hres.
      * unfold restoreSimulationState in Hres.
        destruct (decide (Z.of_nat n < 0)); [done|].
        destruct (History.simulationHistory _ !! _); simpl in Hres; congruence.
      * apply Hf in Hres; unfold SNAPSHOT_BUFFER_SIZE in *; lia.
    + done.
  - intros now st h f g h' Hin Hout.
    pose proof (proj2 (save_lookup now st h f g)) as Hl. fold h' in Hl.
    assert (¬ ((g = f ∨ is_Some (History.simulationHistory h !! g))
               ∧ (SNAPSHOT_BUFFER_SIZE
                    < Z.of_nat (size (<[f:=createStateSnapshot now st f]>
                                        (History.simulationHistory h))) →
                  ¬ g < History.maxSavedFrame h'
                        - SNAPSHOT_BUFFER_SIZE + 1))) as Hno.
    { intros Hc. apply Hl in Hc. rewrite Hout in Hc.
      by apply is_Some_None in Hc. }
    destruct (decide (SNAPSHOT_BUFFER_SIZE
       < Z.of_nat (size (<[f:=createStateSnapshot now st f]>
                           (History.simulationHistory h))))) as [Hfull|Hfit].
    + split; [done|].
      destruct (decide (g < History.maxSavedFrame h'
                            - SNAPSHOT_BUFFER_SIZE + 1)); [done|].
      exfalso. apply Hno. split; [by right | done].
    + exfalso. apply Hno. split; [by right | done].
Qed.

Lemma history_eviction_bounds_witness :
  restoreSimulationState
    (saveFrames (fun _ => State.initial) (fun _ => 0%R) (Z.to_nat 5001))
    State.initial 0
  = (None, State.initial).
Proof.
  refine (proj1 (history_eviction_bounds (fun _ => State.initial)
                   (fun _ => 0%R) State.initial (Z.to_nat 5001) _)).
  unfold SNAPSHOT_BUFFER_SIZE. lia.
Defined.

(** ** Facts about the numeric helpers *)

Local Open Scope R_scope.

Ltac rdec :=
  repeat match goal with
         | |- context [Rlt_dec ?a ?b] => destruct (Rlt_dec a b)
         | |- context [Rle_dec ?a ?b] => destruct (Rle_dec a b)
         end.

Ltac rabs :=
  unfold Rabs in *;
  repeat match goal with
         | |- context [Rcase_abs ?a] => destruct (Rcase_abs a)
         | H : context [Rcase_abs ?a] |- _ => destruct (Rcase_abs a)
         end.

Section NumFacts.

Lemma hypot_nonneg x y : 0 <= Num.hypot x y.
Proof. apply sqrt_pos. Qed.

Lemma hypot_sqr x y : Num.hypot x y * Num.hypot x y = x * x + y * y.
Proof. apply sqrt_def. nra. Qed.

Lemma hypot_unique x y d : 0 <= d -> d * d = x * x + y * y -> Num.hypot x y = d.
Proof. intros Hd Heq. apply sqrt_lem_1; [nra | done | done]. Qed.

Lemma hypot_eq_0 x y : Num.hypot x y = 0 -> x = 0 /\ y = 0.
Proof.
  intros H. pose proof (hypot_sqr x y) as Hs. rewrite H in Hs. split; nra.
Qed.

Lemma hypot_0_0 : Num.hypot 0 0 = 0.
Proof. apply hypot_unique; lra. Qed.

Lemma hypot_pos x y : Num.hypot x y <> 0 -> 0 < Num.hypot x y.
Proof. pose proof (hypot_nonneg x y). lra. Qed.

Lemma hypot_scale k x y : Num.hypot (x * k) (y * k) = Num.hypot x y * Rabs k.
Proof.
  apply hypot_unique.
  - apply Rmult_le_pos; [apply hypot_nonneg | apply Rabs_pos].
  - pose proof (hypot_sqr x y) as Hs.
    assert (Rabs k * Rabs k = k * k) as Hk.
    { unfold Rabs. destruct (Rcase_abs k); ring. }
    transitivity ((Num.hypot x y * Num.hypot x y) * (Rabs k * Rabs k));
      [ring | rewrite Hs, Hk; ring].
Qed.

Lemma hypot_polar a s : 0 <= s -> Num.hypot (cos a * s) (sin a * s) = s.
Proof.
  intros Hs. apply hypot_unique; [done|].
  pose proof (sin2_cos2 a) as H. unfold Rsqr in H. nra.
Qed.

(** The contact normal has length one. *)
Lemma unit_normal dx dy :
  Num.hypot dx dy <> 0 ->
  dx / Num.hypot dx dy * (dx / Num.hypot dx dy)
  + dy / Num.hypot dx dy * (dy / Num.hypot dx dy) = 1.
Proof.
  intros Hd. pose proof (hypot_sqr dx dy) as Hs.
  transitivity ((dx * dx + dy * dy) / (Num.hypot dx dy * Num.hypot dx dy)).
  - field. done.
  - rewrite Hs. field. rewrite <- Hs.
    by apply Rmult_integral_contrapositive_currified.
Qed.

(** Mirroring about a unit normal keeps the length. *)
Lemma hypot_mirror vx vy nx ny :
  nx * nx + ny * ny = 1 ->
  Num.hypot (mirror vx vy nx ny).1 (mirror vx vy nx ny).2 = Num.hypot vx vy.
Proof.
  intros Hn. unfold mirror. simpl. apply hypot_unique; [apply hypot_nonneg|].
  rewrite hypot_sqr.
  transitivity (vx * vx + vy * vy
                + 4 * ((vx * nx + vy * ny) * (vx * nx + vy * ny))
                  * (nx * nx + ny * ny - 1)); [|ring].
  rewrite Hn. ring.
Qed.

Lemma atan2_x_pos y x : 0 < x -> Num.atan2 y x = atan (y / x).
Proof. intros. unfold Num.atan2. destruct (Rlt_dec 0 x); [done | lra]. Qed.

Lemma atan2_x_neg_y_nonneg y x :
  x < 0 -> 0 <= y -> Num.atan2 y x = atan (y / x) + PI.
Proof.
  intros. unfold Num.atan2.
  destruct (Rlt_dec 0 x); [lra|]. destruct (Rlt_dec x 0); [|lra].
  destruct (Rle_dec 0 y); [done | lra].
Qed.

Lemma atan2_x_neg_y_neg y x :
  x < 0 -> y < 0 -> Num.atan2 y x = atan (y / x) - PI.
Proof.
  intros. unfold Num.atan2.
  destruct (Rlt_dec 0 x); [lra|]. destruct (Rlt_dec x 0); [|lra].
  destruct (Rle_dec 0 y); [lra | done].
Qed.

Lemma atan2_0_pos y : 0 < y -> Num.atan2 y 0 = PI / 2.
Proof.
  intros. unfold Num.atan2.
  destruct (Rlt_dec 0 0); [lra|]. destruct (Rlt_dec 0 y); [done | lra].
Qed.

Lemma atan2_0_neg y : y < 0 -> Num.atan2 y 0 = - (PI / 2).
Proof.
  intros. unfold Num.atan2.
  destruct (Rlt_dec 0 0); [lra|]. destruct (Rlt_dec 0 y); [lra|].
  destruct (Rlt_dec y 0); [done | lra].
Qed.

Lemma atan2_0_0 : Num.atan2 0 0 = 0.
Proof.
  unfold Num.atan2. destruct (Rlt_dec 0 0); [lra | done].
Qed.

Lemma atan_pos z : 0 < z -> 0 < atan z.
Proof. intros. rewrite <- atan_0. by apply atan_increasing. Qed.

Lemma atan_neg z : z < 0 -> atan z < 0.
Proof. intros. rewrite <- atan_0. by apply atan_increasing. Qed.

Lemma atan2_bound y x : - PI < Num.atan2 y x <= PI.
Proof.
  pose proof PI_RGT_0 as Hpi. pose proof (atan_bound (y / x)) as Hb.
  unfold Num.atan2.
  destruct (Rlt_dec 0 x) as [Hx|Hx]; [lra|].
  destruct (Rlt_dec x 0) as [Hx'|Hx'].
  - destruct (Rle_dec 0 y) as [Hy|Hy].
    + destruct (Req_dec y 0) as [-> | Hy0].
      * unfold Rdiv. rewrite Rmult_0_l, atan_0. lra.
      * assert (y / x < 0) as Hq.
        { apply Rdiv_pos_neg; lra. }
        pose proof (atan_neg _ Hq). lra.
    + assert (0 < y / x) as Hq.
      { apply Rdiv_neg_neg; lra. }
      pose proof (atan_pos _ Hq). lra.
  - destruct (Rlt_dec 0 y); [lra|]. destruct (Rlt_dec y 0); lra.
Qed.
End NumFacts.

Section AngleFacts.

(** [atan2] recovers the angle of a vector given in polar form. *)
Lemma atan2_polar s a :
  0 < s -> - PI < a <= PI -> Num.atan2 (sin a * s) (cos a * s) = a.
Proof.
  intros Hs [Hlo Hhi]. pose proof PI_RGT_0 as Hpi.
  destruct (Rlt_dec a (- (PI / 2))) as [Ha1|Ha1].
  - (* third quadrant *)
    assert (cos a < 0) as Hc.
    { rewrite <- cos_neg. apply cos_lt_0; lra. }
    assert (sin a < 0) as Hsn by (apply sin_lt_0_var; lra).
    rewrite atan2_x_neg_y_neg by nra.
    replace (sin a * s / (cos a * s)) with (tan (a + PI)).
    + rewrite atan_tan by lra. lra.
    + unfold tan. rewrite neg_sin, neg_cos. field. lra.
  - destruct (Req_dec a (- (PI / 2))) as [-> | Ha2].
    + rewrite cos_neg, sin_neg, cos_PI2, sin_PI2, Rmult_0_l.
      apply atan2_0_neg. lra.
    + destruct (Rlt_dec a (PI / 2)) as [Ha3|Ha3].
      * assert (0 < cos a) as Hc by (apply cos_gt_0; lra).
        rewrite atan2_x_pos by nra.
        replace (sin a * s / (cos a * s)) with (tan a).
        -- apply atan_tan. lra.
        -- unfold tan. field. lra.
      * destruct (Req_dec a (PI / 2)) as [-> | Ha4].
        -- rewrite cos_PI2, sin_PI2, Rmult_0_l. apply atan2_0_pos. lra.
        -- assert (cos a < 0) as Hc by (apply cos_lt_0; lra).
           assert (0 <= sin a) as Hsn by (apply sin_ge_0; lra).
           rewrite atan2_x_neg_y_nonneg by nra.
           replace (sin a * s / (cos a * s)) with (tan (a - PI)).
           ++ rewrite atan_tan by lra. lra.
           ++ unfold tan. rewrite sin_minus, cos_minus, sin_PI, cos_PI.
              field. lra.
Qed.

Lemma iter_wrapDown n a : a <= 180 -> Nat.iter n wrapDown a = a.
Proof.
  intros Ha. induction n as [|n IH]; [done|]. simpl. rewrite IH.
  unfold wrapDown. destruct (Rlt_dec 180 a); [lra | done].
Qed.

Lemma iter_wrapUp n a : -180 <= a -> Nat.iter n wrapUp a = a.
Proof.
  intros Ha. induction n as [|n IH]; [done|]. simpl. rewrite IH.
  unfold wrapUp. destruct (Rlt_dec a (-180)); [lra | done].
Qed.

Lemma normalizeDeg_id a : -180 <= a <= 180 -> normalizeDeg a = a.
Proof.
  intros [Hlo Hhi]. unfold normalizeDeg.
  rewrite iter_wrapDown by done. by apply iter_wrapUp.
Qed.

(** The iteration counts given to the two loops are enough: whatever the
    angle, it ends up in [-180, 180]. *)
Lemma iter_wrapDown_exit n a :
  a - 360 * INR n <= 180 -> Nat.iter n wrapDown a <= 180.
Proof.
  revert a. induction n as [|n IH]; intros a Ha.
  - simpl in *. lra.
  - rewrite Nat.iter_succ_r. apply IH. rewrite S_INR in Ha.
    pose proof (pos_INR n). unfold wrapDown.
    destruct (Rlt_dec 180 a); lra.
Qed.

Lemma iter_wrapUp_exit n a :
  a <= 180 -> -180 <= a + 360 * INR n ->
  -180 <= Nat.iter n wrapUp a <= 180.
Proof.
  revert a. induction n as [|n IH]; intros a Hhi Ha.
  - simpl in *. lra.
  - rewrite Nat.iter_succ_r. rewrite S_INR in Ha.
    pose proof (pos_INR n). unfold wrapUp.
    destruct (Rlt_dec a (-180)); apply IH; lra.
Qed.

Lemma rounds_bound a : Rabs a < 360 * INR (rounds a).
Proof.
  unfold rounds. pose proof (Rabs_pos a) as Hpos.
  destruct (archimed (Rabs a / 360)) as [Hup _].
  assert (0 < IZR (up (Rabs a / 360))) as Hz by lra.
  apply lt_IZR in Hz.
  rewrite INR_IZR_INZ, Z2Nat.id by lia. lra.
Qed.

Lemma normalizeDeg_range a : -180 <= normalizeDeg a <= 180.
Proof.
  unfold normalizeDeg.
  set (v := Nat.iter (rounds a) wrapDown a).
  assert (v <= 180) as Hv.
  { apply iter_wrapDown_exit. pose proof (rounds_bound a). rabs; lra. }
  apply iter_wrapUp_exit; [done|].
  pose proof (rounds_bound v). rabs; lra.
Qed.

Lemma degrees_bound t : - PI < t <= PI -> -180 < t * 180 / PI <= 180.
Proof.
  intros [Hlo Hhi]. pose proof PI_RGT_0 as Hpi.
  assert (t * 180 / PI * PI = t * 180) as Hq by (field; lra).
  split; nra.
Qed.

(** The two loops never run: the angle is the one [atan2] gives, in
    degrees. *)
Lemma reflectionAngle_eq newVx newVy :
  reflectionAngle newVx newVy = Num.atan2 newVy newVx * 180 / PI.
Proof.
  unfold reflectionAngle. apply normalizeDeg_id.
  pose proof (degrees_bound _ (atan2_bound newVy newVx)). lra.
Qed.

Lemma reflectionAngle_bound newVx newVy :
  -180 < reflectionAngle newVx newVy <= 180.
Proof.
  rewrite reflectionAngle_eq. apply degrees_bound, atan2_bound.
Qed.

Lemma reflectionAngle_polar s deg :
  0 < s -> -180 < deg <= 180 ->
  reflectionAngle (cos (deg * PI / 180) * s) (sin (deg * PI / 180) * s) = deg.
Proof.
  intros Hs Hd. pose proof PI_RGT_0 as Hpi. rewrite reflectionAngle_eq.
  rewrite atan2_polar; [field; lra | done |].
  assert (deg * PI / 180 * 180 = deg * PI) as Hq by field.
  split; nra.
Qed.
End AngleFacts.

(** ** Facts about the effect monad *)

Lemma bind_Some {A B} (m : M A) (k : A → M B) l b :
  bind m k = Some (l, b) ↔
  ∃ l1 a l2, m = Some (l1, a) ∧ k a = Some (l2, b) ∧ l = l1 ++ l2.
Proof.
  unfold bind. split.
  - destruct m as [[l1 a]|]; [|done].
    destruct (k a) as [[l2 b']|] eqn:Hk; [|done].
    intros [= <- <-]. eauto 6.
  - intros (l1 & a & l2 & -> & Hk & ->). by rewrite Hk.
Qed.

Lemma fdiv_Some (num den : R) :
  den ≠ 0 → fdiv num den = Some ([EvDivide num den], num / den).
Proof. intros Hd. unfold fdiv. destruct (Req_dec_T den 0); done. Qed.

Lemma fdiv_inv (num den : R) l q :
  fdiv num den = Some (l, q) →
  den ≠ 0 ∧ l = [EvDivide num den] ∧ q = num / den.
Proof.
  unfold fdiv. destruct (Req_dec_T den 0); [done|]. by intros [= <- <-].
Qed.

(** ** Ball-ball collisions *)

Section CollisionFacts.
Variable physicsConfig : PhysicsConfig.config.
Variable st : State.state.

Lemma scaleVelocity_1 b : scaleVelocity 1 b = b.
Proof.
  destruct b. unfold scaleVelocity. simpl. by rewrite !Rmult_1_r.
Qed.

(** The speed restoration always has a result and leaves the position
    alone. *)
Lemma restoreSpeed_defined s b :
  ∃ l b', restoreSpeed s b = Some (l, b')
          ∧ Ball.x b' = Ball.x b ∧ Ball.y b' = Ball.y b.
Proof.
  unfold restoreSpeed. destruct (Rlt_dec 0 _) as [Hpos|Hz].
  - rewrite fdiv_Some by lra. simpl. eauto.
  - simpl. eauto.
Qed.

(** When the ball already has the speed to restore, nothing changes. *)
Lemma restoreSpeed_same s b :
  Num.hypot (Ball.vx b) (Ball.vy b) = s → ∃ l, restoreSpeed s b = Some (l, b).
Proof.
  intros <-. unfold restoreSpeed. destruct (Rlt_dec 0 _) as [Hpos|Hz].
  - rewrite fdiv_Some by lra. simpl.
    rewrite Rdiv_diag by lra. rewrite scaleVelocity_1. eauto.
  - simpl. eauto.
Qed.

Lemma velocityResponse_positions nx ny a b :
  ∃ l a' b', velocityResponse physicsConfig st nx ny a b = Some (l, (a', b'))
    ∧ Ball.x a' = Ball.x a ∧ Ball.y a' = Ball.y a
    ∧ Ball.x b' = Ball.x b ∧ Ball.y b' = Ball.y b.
Proof.
  unfold velocityResponse. case_decide as Hsimple.
  - simpl. case_decide; simpl; eauto 10.
  - unfold simpleBounce.
    set (a1 := Ball.set_vy _ (Ball.set_vx _ a)).
    set (b1 := Ball.set_vy _ (Ball.set_vx _ b)).
    destruct (restoreSpeed_defined (Num.hypot (Ball.vx a) (Ball.vy a)) a1)
      as (la & a' & -> & Hax & Hay).
    destruct (restoreSpeed_defined (Num.hypot (Ball.vx b) (Ball.vy b)) b1)
      as (lb & b' & Hb & Hbx & Hby).
    simpl. rewrite Hb. simpl. eauto 10.
Qed.

Lemma separate_spec nx ny overlap a b :
  Ball.r a + Ball.r b ≠ 0 →
  separate nx ny overlap a b
  = Some ([EvDivide (Ball.r a) (Ball.r a + Ball.r b);
           EvDivide (Ball.r b) (Ball.r a + Ball.r b)],
          (Ball.set_y (Ball.y a - ny * overlap
                                  * (Ball.r b / (Ball.r a + Ball.r b)))
             (Ball.set_x (Ball.x a - nx * overlap
                                     * (Ball.r b / (Ball.r a + Ball.r b))) a),
           Ball.set_y (Ball.y b + ny * overlap
                                  * (Ball.r a / (Ball.r a + Ball.r b)))
             (Ball.set_x (Ball.x b + nx * overlap
                                     * (Ball.r a / (Ball.r a + Ball.r b))) b))).
Proof.
  intros Hr. unfold separate. rewrite !fdiv_Some by done. done.
Qed.

(** C6. For a detected pair (centre distance [d] with
    [1e-4 < d < r_a + r_b]) the physical response has a result; in it
    ball [a] has moved against the contact normal by
    [overlap * r_b / (r_a + r_b)] and ball [b] along it by
    [overlap * r_a / (r_a + r_b)], and the centres are then exactly
    [r_a + r_b] apart. *)
Theorem positional_correction_resolves_overlap (a b : Ball.ball) :
  let dx := Ball.x b - Ball.x a in
  let dy := Ball.y b - Ball.y a in
  let dist := Num.hypot dx dy in
  let minD := Ball.r a + Ball.r b in
  let overlap := minD - dist in
  1e-4 < dist → dist < minD →
  ∃ l a' b',
    physicalResponse physicsConfig st dx dy dist minD a b = Some (l, (a', b'))
    ∧ Ball.x a' = Ball.x a - dx / dist * (overlap * (Ball.r b / minD))
    ∧ Ball.y a' = Ball.y a - dy / dist * (overlap * (Ball.r b / minD))
    ∧ Ball.x b' = Ball.x b + dx / dist * (overlap * (Ball.r a / minD))
    ∧ Ball.y b' = Ball.y b + dy / dist * (overlap * (Ball.r a / minD))
    ∧ Num.hypot (Ball.x b' - Ball.x a') (Ball.y b' - Ball.y a')
      = Ball.r a + Ball.r b.
Proof.
  intros dx dy dist minD overlap Heps Hlt.
  assert (dist ≠ 0) as Hd by lra.
  assert (minD ≠ 0) as Hm by lra.
  unfold physicalResponse. rewrite !fdiv_Some by done. simpl.
  rewrite separate_spec by done. simpl.
  match goal with
  | |- context [velocityResponse _ _ ?nx ?ny ?a1 ?b1] =>
      destruct (velocityResponse_positions nx ny a1 b1)
        as (l & a' & b' & -> & Hax & Hay & Hbx & Hby)
  end.
  simpl in Hax, Hay, Hbx, Hby.
  exists ([EvDivide dx dist] ++ [EvDivide dy dist]
          ++ [EvDivide (Ball.r a) (Ball.r a + Ball.r b);
              EvDivide (Ball.r b) (Ball.r a + Ball.r b)] ++ l), a', b'.
  split; [done|].
  rewrite Hax, Hay, Hbx, Hby. fold minD overlap.
  repeat (split; [ring|]).
  apply hypot_unique; [lra|].
  pose proof (unit_normal dx dy Hd) as Hn. fold dist in Hn.
  transitivity ((dx / dist * (dx / dist) + dy / dist * (dy / dist))
                * (minD * minD)); [rewrite Hn; ring|].
  assert (Ball.x b = Ball.x a + dx) as -> by (unfold dx; ring).
  assert (Ball.y b = Ball.y a + dy) as -> by (unfold dy; ring).
  assert (Ball.r a = minD - Ball.r b) as -> by (unfold minD; ring).
  unfold overlap. field. done.
Qed.


Lemma simpleBounce_spec nx ny a b :
  nx * nx + ny * ny = 1 →
  ∃ l, simpleBounce nx ny a b
       = Some (l,
           (Ball.set_vy (mirror (Ball.vx a) (Ball.vy a) nx ny).2
              (Ball.set_vx (mirror (Ball.vx a) (Ball.vy a) nx ny).1 a),
            Ball.set_vy (mirror (Ball.vx b) (Ball.vy b) nx ny).2
              (Ball.set_vx (mirror (Ball.vx b) (Ball.vy b) nx ny).1 b))).
Proof.
  intros Hn. unfold simpleBounce.
  set (a1 := Ball.set_vy _ (Ball.set_vx _ a)).
  set (b1 := Ball.set_vy _ (Ball.set_vx _ b)).
  destruct (restoreSpeed_same (Num.hypot (Ball.vx a) (Ball.vy a)) a1)
    as [la ->].
  { subst a1. simpl. by apply hypot_mirror. }
  destruct (restoreSpeed_same (Num.hypot (Ball.vx b) (Ball.vy b)) b1)
    as [lb Hb].
  { subst b1. simpl. by apply hypot_mirror. }
  simpl. rewrite Hb. simpl. eauto.
Qed.

(** C5. With the arcadeSimple variant selected, the physical response to
    a detected pair (before the onBallCollision callback) leaves each
    ball with its own velocity mirrored about the contact normal, so
    without any exchange between the two, and with the speed it had
    before the collision. *)
Theorem arcadeSimple_preserves_each_speed (a b : Ball.ball) :
  let dx := Ball.x b - Ball.x a in
  let dy := Ball.y b - Ball.y a in
  let dist := Num.hypot dx dy in
  let minD := Ball.r a + Ball.r b in
  State.physicsEngine st = "arcadeSimple" →
  1e-4 < dist → dist < minD →
  ∃ l a' b',
    physicalResponse physicsConfig st dx dy dist minD a b = Some (l, (a', b'))
    ∧ (Ball.vx a', Ball.vy a')
      = mirror (Ball.vx a) (Ball.vy a) (dx / dist) (dy / dist)
    ∧ (Ball.vx b', Ball.vy b')
      = mirror (Ball.vx b) (Ball.vy b) (dx / dist) (dy / dist)
    ∧ Ball.speed a' = Ball.speed a
    ∧ Ball.speed b' = Ball.speed b.
Proof.
  intros dx dy dist minD Hengine Heps Hlt.
  assert (dist ≠ 0) as Hd by lra.
  assert (minD ≠ 0) as Hm by lra.
  pose proof (unit_normal dx dy Hd) as Hn. fold dist in Hn.
  unfold physicalResponse. rewrite !fdiv_Some by done. simpl.
  rewrite separate_spec by done. simpl.
  unfold velocityResponse. rewrite Hengine.
  destruct (decide ("arcadeSimple" ≠ "arcadeSimple")) as [Hne|_]; [done|].
  match goal with
  | |- context [simpleBounce ?nx ?ny ?a1 ?b1] =>
      destruct (simpleBounce_spec nx ny a1 b1 Hn) as [l ->]
  end.
  simpl. do 3 eexists. split; [reflexivity|].
  split; [reflexivity|]. split; [reflexivity|].
  split; exact (hypot_mirror _ _ _ _ Hn).
Qed.


(** C8. A pair whose centres are at most [1e-4] apart (coincident
    centres included) is passed over: the step has a result, the two
    balls and the set of processed pairs are as before, and nothing
    happened on the way, neither the onBallCollision callback nor a
    division. *)
Theorem epsilon_guard_skips_pair (processedPairs : gset (Z * Z))
    (a b : Ball.ball) :
  Num.hypot (Ball.x b - Ball.x a) (Ball.y b - Ball.y a) <= 1e-4 →
  pairStep physicsConfig st processedPairs a b
  = Some ([], (processedPairs, a, b)).
Proof.
  intros Hclose. unfold pairStep.
  destruct (negb (Ball.alive b)); [done|].
  destruct (decide (pairId a b ∈ processedPairs)); [done|].
  case_decide as Hhit; [lra | done].
Qed.

(** With two balls in the state, the first alive, the resolver runs the
    pair step once, on that pair, and stores the two balls back. *)
Lemma handleCollisions_two a b :
  State.balls st = [a; b] → Ball.alive a = true →
  handleCollisions physicsConfig st
  = (let* pab := pairStep physicsConfig st ∅ a b in
     ret [pab.1.2; pab.2]).
Proof.
  intros Hballs Halive. unfold handleCollisions. rewrite Hballs. simpl.
  rewrite Halive. simpl.
  destruct (pairStep physicsConfig st ∅ a b) as [[l [[p a'] b']]|]; [|done].
  simpl. destruct (Ball.alive b'); simpl; by rewrite ?app_nil_r.
Qed.
End CollisionFacts.

Lemma positional_correction_witness :
  ∃ l a' b',
    physicalResponse physicsConfig0 State.initial (12 - 0) (0 - 0)
      (Num.hypot (12 - 0) (0 - 0)) (10 + 10)
      (ballAt 1 0 0 0 0 10) (ballAt 2 12 0 0 0 10) = Some (l, (a', b'))
    ∧ Num.hypot (Ball.x b' - Ball.x a') (Ball.y b' - Ball.y a') = 10 + 10.
Proof.
  assert (Num.hypot (12 - 0) (0 - 0) = 12) as Hd
    by (apply hypot_unique; lra).
  destruct (positional_correction_resolves_overlap physicsConfig0
              State.initial (ballAt 1 0 0 0 0 10) (ballAt 2 12 0 0 0 10))
    as (l & a' & b' & Hres & _ & _ & _ & _ & Hdist).
  - simpl. rewrite Hd. lra.
  - simpl. rewrite Hd. lra.
  - exists l, a', b'. split; [exact Hres | exact Hdist].
Defined.

Lemma arcadeSimple_preserves_each_speed_witness :
  ∃ l a' b',
    physicalResponse physicsConfig0 State.initial (12 - 0) (0 - 0)
      (Num.hypot (12 - 0) (0 - 0)) (10 + 10)
      (ballAt 1 0 0 30 40 10) (ballAt 2 12 0 (-5) 0 10) = Some (l, (a', b'))
    ∧ Ball.speed a' = Ball.speed (ballAt 1 0 0 30 40 10)
    ∧ Ball.speed b' = Ball.speed (ballAt 2 12 0 (-5) 0 10).
Proof.
  assert (Num.hypot (12 - 0) (0 - 0) = 12) as Hd
    by (apply hypot_unique; lra).
  destruct (arcadeSimple_preserves_each_speed physicsConfig0 State.initial
              (ballAt 1 0 0 30 40 10) (ballAt 2 12 0 (-5) 0 10))
    as (l & a' & b' & Hres & _ & _ & Ha & Hb).
  - reflexivity.
  - simpl. rewrite Hd. lra.
  - simpl. rewrite Hd. lra.
  - exists l, a', b'. split; [exact Hres | split; [exact Ha | exact Hb]].
Defined.

Lemma epsilon_guard_skips_pair_witness :
  pairStep physicsConfig0 State.initial ∅
    (ballAt 1 5 5 1 0 10) (ballAt 2 5 5 0 1 10)
  = Some ([], (∅, ballAt 1 5 5 1 0 10, ballAt 2 5 5 0 1 10)).
Proof.
  apply epsilon_guard_skips_pair. simpl.
  replace (5 - 5) with 0 by lra. rewrite hypot_0_0. lra.
Defined.

(** ** Wall contact *)

Lemma fire_spec cb ev ball :
  fire cb ev ball
  = Some (match cb with Some _ => [ev] | None => [] end, applyCallback cb ball).
Proof. by destruct cb. Qed.

Section WallFacts.
Variable arena : Arena.arena.
Variable physicsConfig : PhysicsConfig.config.
Variable st : State.state.

Lemma getCurrentEngine_in_engines :
  getCurrentEngine arena physicsConfig st ∈ engines arena physicsConfig st.
Proof.
  unfold getCurrentEngine, engines. rewrite !elem_of_cons.
  repeat case_decide; auto.
Qed.

(** [gapDelta] is the difference between the ball's angular position and
    the gap angle itself when that difference lies in (-PI, PI]. *)
Lemma gapDelta_in_range dx dy :
  - PI < Num.atan2 dy dx - Arena.gapAngle arena <= PI →
  gapDelta arena dx dy = Num.atan2 dy dx - Arena.gapAngle arena.
Proof.
  intros Hr. unfold gapDelta.
  rewrite <- (Rmult_1_r (sin _)), <- (Rmult_1_r (cos _)).
  apply atan2_polar; [lra | done].
Qed.

Lemma gapExit_spec ball :
  gapExit arena st ball
  = Some (match handler st Program.onExit with
          | Some _ => [EvExit (Ball.id ball)]
          | None => []
          end,
          (Ball.set_y (Arena.cy arena)
             (Ball.set_x (Arena.cx arena)
                (applyCallback (handler st Program.onExit) ball)),
           true)).
Proof.
  unfold gapExit. rewrite fire_spec. simpl. by rewrite app_nil_r.
Qed.

(** Every engine takes the gap-exit branch on a contact inside the
    gap. *)
Lemma reflectWall_gap e ball :
  e ∈ engines arena physicsConfig st →
  let dx := Ball.x ball - Arena.cx arena in
  let dy := Ball.y ball - Arena.cy arena in
  Arena.r arena < Num.hypot dx dy + Ball.r ball →
  Rabs (gapDelta arena dx dy) < Arena.gapWidth arena / 2 →
  Engine.reflectWall e ball = gapExit arena st ball.
Proof.
  intros He dx dy Hcontact Hgap.
  unfold engines in He. rewrite !elem_of_cons, elem_of_nil in He.
  destruct He as [-> | [-> | [-> | []]]]; simpl;
    unfold arcadeReflectWall, realisticReflectWall; fold dx dy;
    (destruct (Rle_dec _ _); [lra|]);
    (destruct (Rlt_dec _ _); [done | lra]).
Qed.

(** C7. A contact whose angular position lies within half the gap width
    of the gap angle makes [reflectWall], of any of the engines, run the
    onExit callback exactly once (not at all when none is registered),
    put the ball at the arena centre and return true; the onWallHit
    callback does not run. *)
Theorem gap_exit_fires_once (e : Engine.engine) (ball : Ball.ball) :
  e ∈ engines arena physicsConfig st →
  let dx := Ball.x ball - Arena.cx arena in
  let dy := Ball.y ball - Arena.cy arena in
  Arena.r arena < Num.hypot dx dy + Ball.r ball →
  Rabs (gapDelta arena dx dy) < Arena.gapWidth arena / 2 →
  ∃ l ball',
    Engine.reflectWall e ball = Some (l, (ball', true))
    ∧ length (filter isExit l)
      = match handler st Program.onExit with Some _ => 1 | None => 0 end%nat
    ∧ filter isWallHit l = []
    ∧ Ball.x ball' = Arena.cx arena
    ∧ Ball.y ball' = Arena.cy arena.
Proof.
  intros He dx dy Hcontact Hgap.
  rewrite (reflectWall_gap e ball He Hcontact Hgap), gapExit_spec.
  do 2 eexists. split; [reflexivity|].
  destruct (handler st Program.onExit); done.
Qed.

(** C10. In the gap-exit branch of any engine, with no onExit callback
    registered, the ball comes back with [x] and [y] set to the arena
    centre and every other field as it was; nothing else happens. *)
Theorem gap_exit_moves_only_position (e : Engine.engine)
    (ball : Ball.ball) :
  e ∈ engines arena physicsConfig st →
  handler st Program.onExit = None →
  let dx := Ball.x ball - Arena.cx arena in
  let dy := Ball.y ball - Arena.cy arena in
  Arena.r arena < Num.hypot dx dy + Ball.r ball →
  Rabs (gapDelta arena dx dy) < Arena.gapWidth arena / 2 →
  Engine.reflectWall e ball
  = Some ([], (Ball.mk (Ball.id ball) (Arena.cx arena) (Arena.cy arena)
                 (Ball.vx ball) (Ball.vy ball) (Ball.r ball)
                 (Ball.color ball) (Ball.alive ball) (Ball.data ball),
               true)).
Proof.
  intros He Hnone dx dy Hcontact Hgap.
  rewrite (reflectWall_gap e ball He Hcontact Hgap), gapExit_spec, Hnone.
  done.
Qed.
End WallFacts.

Lemma arena0_r : Arena.r arena0 = 475.2.
Proof. unfold arena0. simpl. rewrite Rmin_left by lra. lra. Qed.

Lemma gapBall_contact :
  Arena.r arena0
  < Num.hypot (Ball.x gapBall - Arena.cx arena0)
              (Ball.y gapBall - Arena.cy arena0) + Ball.r gapBall.
Proof.
  rewrite arena0_r. simpl.
  assert (Num.hypot (540 - 540) (480 - 960) = 480) as ->
    by (apply hypot_unique; lra).
  lra.
Qed.

Lemma gapBall_in_gap :
  Rabs (gapDelta arena0 (Ball.x gapBall - Arena.cx arena0)
                        (Ball.y gapBall - Arena.cy arena0))
  < Arena.gapWidth arena0 / 2.
Proof.
  unfold gapDelta. simpl.
  replace (540 - 540) with 0 by lra.
  rewrite atan2_0_neg by lra.
  replace (- (PI / 2) - - PI / 2) with 0 by lra.
  rewrite sin_0, cos_0, atan2_x_pos by lra.
  replace (0 / 1) with 0 by lra.
  rewrite atan_0, Rabs_R0. lra.
Qed.

Lemma gap_exit_fires_once_witness :
  ∃ l ball',
    Engine.reflectWall
      (ArcadePhysics arena0 physicsConfig0
         (stateWith "arcade" (Some programRecolour))) gapBall
    = Some (l, (ball', true))
    ∧ length (filter isExit l) = 1%nat
    ∧ filter isWallHit l = []
    ∧ Ball.x ball' = 540 ∧ Ball.y ball' = 960.
Proof.
  apply (gap_exit_fires_once arena0 physicsConfig0
           (stateWith "arcade" (Some programRecolour))
           (ArcadePhysics arena0 physicsConfig0
              (stateWith "arcade" (Some programRecolour))) gapBall).
  - unfold engines. rewrite !elem_of_cons. auto.
  - exact gapBall_contact.
  - exact gapBall_in_gap.
Defined.

Lemma gap_exit_moves_only_position_witness :
  Engine.reflectWall
    (RealisticPhysics arena0 physicsConfig0 (stateWith "realistic" None))
    gapBall
  = Some ([], (ballAt 1 540 960 0 (-300) 15, true)).
Proof.
  apply (gap_exit_moves_only_position arena0 physicsConfig0
           (stateWith "realistic" None)
           (RealisticPhysics arena0 physicsConfig0
              (stateWith "realistic" None)) gapBall).
  - unfold engines. rewrite !elem_of_cons. auto.
  - reflexivity.
  - exact gapBall_contact.
  - exact gapBall_in_gap.
Defined.

(** *** The wall response of the arcade engines *)

Lemma constrainVelocity_speed config newVx newVy :
  Num.hypot (constrainVelocity config newVx newVy).1
            (constrainVelocity config newVx newVy).2
  = Num.hypot newVx newVy.
Proof.
  unfold constrainVelocity. destruct (Rlt_dec 0.1 _); simpl; [|done].
  apply hypot_polar, hypot_nonneg.
Qed.

Lemma scaleSpeed_speed f b :
  0 < Ball.speed b →
  Ball.speed (Proxy.apply (Proxy.ScaleSpeed f) b) = Ball.speed b * Rabs f.
Proof.
  unfold Ball.speed. intros Hs. simpl.
  destruct (Rlt_dec 0 _); [|lra]. simpl.
  rewrite hypot_scale. f_equal. f_equal. field. lra.
Qed.

Section ArcadeWall.
Variable arena : Arena.arena.
Variable st : State.state.
Variable config : ArcadeConfig.config.

(** The ball the arcade wall response leaves, before any callback. *)
Lemma arcadeBounce_spec dx dy dist ball :
  dist ≠ 0 →
  arcadeBounce arena config dx dy dist ball
  = Some ([EvDivide dx dist; EvDivide dy dist],
          let m := mirror (Ball.vx ball) (Ball.vy ball)
                     (dx / dist) (dy / dist) in
          let v := constrainVelocity config m.1 m.2 in
          Ball.set_vy v.2
            (Ball.set_vx v.1 (pushInside arena (dx / dist) (dy / dist) dist ball))).
Proof.
  intros Hd. unfold arcadeBounce. rewrite !fdiv_Some by done. simpl.
  destruct (constrainVelocity _ _ _). done.
Qed.

Lemma arcadeBounce_None dx dy ball :
  arcadeBounce arena config dx dy 0 ball = None.
Proof.
  unfold arcadeBounce, fdiv. destruct (Req_dec_T 0 0); done.
Qed.

Lemma arcadeBounce_speed dx dy ball l hit :
  arcadeBounce arena config dx dy (Num.hypot dx dy) ball = Some (l, hit) →
  Ball.speed hit = Ball.speed ball.
Proof.
  intros Hb.
  destruct (Req_dec (Num.hypot dx dy) 0) as [Hz|Hnz].
  { rewrite Hz, arcadeBounce_None in Hb. done. }
  rewrite arcadeBounce_spec in Hb by done. injection Hb as _ <-.
  unfold Ball.speed. simpl. rewrite constrainVelocity_speed.
  apply hypot_mirror, unit_normal. done.
Qed.

(** Outside the gap a contact runs the wall response, then the onWallHit
    callback, then the sound cue. *)
Lemma arcadeReflectWall_wall ball :
  let dx := Ball.x ball - Arena.cx arena in
  let dy := Ball.y ball - Arena.cy arena in
  let dist := Num.hypot dx dy in
  Arena.r arena < dist + Ball.r ball →
  ¬ Rabs (gapDelta arena dx dy) < Arena.gapWidth arena / 2 →
  arcadeReflectWall arena st config ball
  = (let* hit := arcadeBounce arena config dx dy dist ball in
     let* ball' :=
       fire (handler st Program.onWallHit) (EvWallHit (Ball.id hit)) hit in
     let* _ := pingSfx st in
     ret (ball', true)).
Proof.
  intros dx dy dist Hcontact Hgap. unfold arcadeReflectWall. fold dx dy dist.
  destruct (Rle_dec _ _); [lra|]. destruct (Rlt_dec _ _); done.
Qed.

Lemma arcadeReflectWall_wall_inv ball l ball' flag :
  let dx := Ball.x ball - Arena.cx arena in
  let dy := Ball.y ball - Arena.cy arena in
  let dist := Num.hypot dx dy in
  Arena.r arena < dist + Ball.r ball →
  ¬ Rabs (gapDelta arena dx dy) < Arena.gapWidth arena / 2 →
  arcadeReflectWall arena st config ball = Some (l, (ball', flag)) →
  flag = true
  ∧ ∃ l1 hit,
      arcadeBounce arena config dx dy dist ball = Some (l1, hit)
      ∧ ball' = applyCallback (handler st Program.onWallHit) hit.
Proof.
  intros dx dy dist Hcontact Hgap.
  rewrite arcadeReflectWall_wall by done. fold dx dy dist.
  intros (l1 & hit & l2 & Hb & Hrest & _)%bind_Some.
  rewrite fire_spec in Hrest. simpl in Hrest.
  unfold pingSfx in Hrest.
  destruct (State.doSfx st); simpl in Hrest; injection Hrest as _ <- <-;
    eauto.
Qed.

Lemma arcadeReflectWall_wall_defined ball :
  let dx := Ball.x ball - Arena.cx arena in
  let dy := Ball.y ball - Arena.cy arena in
  let dist := Num.hypot dx dy in
  Arena.r arena < dist + Ball.r ball →
  ¬ Rabs (gapDelta arena dx dy) < Arena.gapWidth arena / 2 →
  dist ≠ 0 →
  ∃ l ball', arcadeReflectWall arena st config ball = Some (l, (ball', true)).
Proof.
  intros dx dy dist Hcontact Hgap Hd.
  rewrite arcadeReflectWall_wall by done. fold dx dy dist.
  rewrite arcadeBounce_spec by done. simpl. rewrite fire_spec. simpl.
  unfold pingSfx. destruct (State.doSfx st); simpl; eauto.
Qed.

(** C3, amended. For a non-gap wall contact of an arcade engine the ball
    has, right after the wall response and before the onWallHit callback
    runs, the speed it had before the call, the angle clamp included; the
    ball returned is that ball passed through the callback, so with no
    onWallHit callback registered the speed after the call is the speed
    before it.  The call has a result whenever the ball's centre is not
    exactly the arena centre. *)
Theorem arcade_wall_speed_before_callback (ball : Ball.ball) :
  let dx := Ball.x ball - Arena.cx arena in
  let dy := Ball.y ball - Arena.cy arena in
  let dist := Num.hypot dx dy in
  Arena.r arena < dist + Ball.r ball →
  ¬ Rabs (gapDelta arena dx dy) < Arena.gapWidth arena / 2 →
  (dist ≠ 0 →
   ∃ l ball', arcadeReflectWall arena st config ball = Some (l, (ball', true)))
  ∧ ∀ l ball' flag,
      arcadeReflectWall arena st config ball = Some (l, (ball', flag)) →
      flag = true
      ∧ ∃ l1 hit,
          arcadeBounce arena config dx dy dist ball = Some (l1, hit)
          ∧ Ball.speed hit = Ball.speed ball
          ∧ ball' = applyCallback (handler st Program.onWallHit) hit
          ∧ (handler st Program.onWallHit = None →
             Ball.speed ball' = Ball.speed ball).
Proof.
  intros dx dy dist Hcontact Hgap. split.
  - by apply arcadeReflectWall_wall_defined.
  - intros l ball' flag Hres.
    destruct (arcadeReflectWall_wall_inv ball l ball' flag Hcontact Hgap Hres)
      as (-> & l1 & hit & Hb & ->).
    split; [done|]. exists l1, hit.
    pose proof (arcadeBounce_speed _ _ _ _ _ Hb) as Hs.
    repeat split; try done.
    intros ->. done.
Qed.
End ArcadeWall.

Lemma wallBall_dist :
  Num.hypot (Ball.x wallBall - Arena.cx arena0)
            (Ball.y wallBall - Arena.cy arena0) = 470.
Proof. simpl. apply hypot_unique; lra. Qed.

Lemma wallBall_contact :
  Arena.r arena0
  < Num.hypot (Ball.x wallBall - Arena.cx arena0)
              (Ball.y wallBall - Arena.cy arena0) + Ball.r wallBall.
Proof. rewrite wallBall_dist, arena0_r. simpl. lra. Qed.

Lemma wallBall_not_in_gap :
  ¬ Rabs (gapDelta arena0 (Ball.x wallBall - Arena.cx arena0)
                          (Ball.y wallBall - Arena.cy arena0))
    < Arena.gapWidth arena0 / 2.
Proof.
  unfold gapDelta. simpl.
  rewrite (atan2_x_pos (960 - 960) (1010 - 540)) by lra.
  replace ((960 - 960) / (1010 - 540)) with 0 by lra.
  rewrite atan_0.
  replace (0 - - PI / 2) with (PI / 2) by lra.
  rewrite sin_PI2, cos_PI2, atan2_0_pos by lra.
  pose proof PI2_1. rewrite Rabs_pos_eq by lra. lra.
Qed.

Lemma arcade_wall_speed_before_callback_witness :
  ∃ l ball',
    arcadeReflectWall arena0 (stateWith "arcade" None)
      (ArcadeConfig.mk 15 165) wallBall = Some (l, (ball', true))
    ∧ Ball.speed ball' = Ball.speed wallBall.
Proof.
  destruct (arcade_wall_speed_before_callback arena0
              (stateWith "arcade" None) (ArcadeConfig.mk 15 165) wallBall
              wallBall_contact wallBall_not_in_gap) as [Hdef Hinv].
  destruct Hdef as (l & ball' & Hres).
  { rewrite wallBall_dist. lra. }
  destruct (Hinv l ball' true Hres) as (_ & l1 & hit & _ & _ & _ & Hnone).
  exists l, ball'. split; [exact Hres | apply Hnone; reflexivity].
Defined.

(** C3, counterexample. With a program whose onWallHit rule doubles the
    speed, the ball leaves a non-gap wall contact of the arcade engine
    with speed 200 where it came with speed 100. *)
Lemma arcade_wall_speed_counterexample :
  ∃ l ball',
    Engine.reflectWall
      (ArcadePhysics arena0 physicsConfig0
         (stateWith "arcade" (Some programSpeedUp))) wallBall
    = Some (l, (ball', true))
    ∧ ¬ Rabs (gapDelta arena0 (Ball.x wallBall - Arena.cx arena0)
                              (Ball.y wallBall - Arena.cy arena0))
        < Arena.gapWidth arena0 / 2
    ∧ Ball.speed wallBall = 100
    ∧ Ball.speed ball' = 200
    ∧ Ball.speed ball' ≠ Ball.speed wallBall.
Proof.
  assert (Ball.speed wallBall = 100) as Hspeed.
  { unfold Ball.speed. simpl. apply hypot_unique; lra. }
  set (st := stateWith "arcade" (Some programSpeedUp)).
  destruct (arcadeReflectWall_wall_defined arena0 st
              (PhysicsConfig.arcade physicsConfig0) wallBall
              wallBall_contact wallBall_not_in_gap) as (l & ball' & Hres).
  { rewrite wallBall_dist. lra. }
  destruct (arcadeReflectWall_wall_inv arena0 st _ wallBall l ball' true
              wallBall_contact wallBall_not_in_gap Hres)
    as (_ & l1 & hit & Hb & ->).
  pose proof (arcadeBounce_speed _ _ _ _ _ _ _ Hb) as Hhit.
  assert (Ball.speed (applyCallback (handler st Program.onWallHit) hit) = 200)
    as Hout.
  { change (applyCallback (handler st Program.onWallHit) hit)
      with (Proxy.apply (Proxy.ScaleSpeed 2) hit).
    rewrite scaleSpeed_speed by lra.
    rewrite Hhit, Hspeed, Rabs_pos_eq by lra. lra. }
  exists l, (applyCallback (handler st Program.onWallHit) hit).
  split; [exact Hres|]. split; [exact wallBall_not_in_gap|].
  split; [done|]. split; [done|]. lra.
Qed.

(** *** The reflection-angle clamp *)

Section AngleClamp.
Variable config : ArcadeConfig.config.
Let minA := ArcadeConfig.minReflectionAngle config.
Let maxA := ArcadeConfig.maxReflectionAngle config.

Lemma constrainAngle_below_min a :
  minA <= maxA → Rabs a < minA →
  constrainAngle config a = if Rle_dec 0 a then minA else - minA.
Proof.
  intros Hmm Ha. unfold constrainAngle. fold minA maxA.
  destruct (Rlt_dec maxA a); [rabs; lra|].
  destruct (Rlt_dec a (- maxA)); [rabs; lra|].
  destruct (Rlt_dec (Rabs a) minA); [done | lra].
Qed.

Lemma constrainAngle_above_max a :
  minA <= maxA → maxA < a → constrainAngle config a = maxA.
Proof.
  intros Hmm Ha. unfold constrainAngle. fold minA maxA.
  destruct (Rlt_dec maxA a); [|lra].
  destruct (Rlt_dec (Rabs maxA) minA); [rabs; lra | done].
Qed.

Lemma constrainAngle_below_neg_max a :
  0 <= maxA → minA <= maxA → a < - maxA →
  constrainAngle config a = - maxA.
Proof.
  intros Hpos Hmm Ha. unfold constrainAngle. fold minA maxA.
  destruct (Rlt_dec maxA a); [lra|].
  destruct (Rlt_dec a (- maxA)); [|lra].
  destruct (Rlt_dec (Rabs (- maxA)) minA); [rabs; lra | done].
Qed.

Lemma constrainAngle_within a :
  minA <= Rabs a <= maxA → constrainAngle config a = a.
Proof.
  intros Ha. unfold constrainAngle. fold minA maxA.
  destruct (Rlt_dec maxA a); [rabs; lra|].
  destruct (Rlt_dec a (- maxA)); [rabs; lra|].
  destruct (Rlt_dec (Rabs a) minA); [lra | done].
Qed.

Lemma constrainVelocity_changed newVx newVy :
  0.1 < Rabs (constrainAngle config (reflectionAngle newVx newVy)
              - reflectionAngle newVx newVy) →
  constrainVelocity config newVx newVy
  = (cos (constrainAngle config (reflectionAngle newVx newVy) * PI / 180)
     * Num.hypot newVx newVy,
     sin (constrainAngle config (reflectionAngle newVx newVy) * PI / 180)
     * Num.hypot newVx newVy).
Proof.
  intros H. unfold constrainVelocity. destruct (Rlt_dec 0.1 _); [done | lra].
Qed.

Lemma constrainVelocity_unchanged newVx newVy :
  Rabs (constrainAngle config (reflectionAngle newVx newVy)
        - reflectionAngle newVx newVy) <= 0.1 →
  constrainVelocity config newVx newVy = (newVx, newVy).
Proof.
  intros H. unfold constrainVelocity. destruct (Rlt_dec 0.1 _); [lra | done].
Qed.

(** What the clamp does to a velocity, in terms of the angle the code
    measures (the polar angle of the velocity, in degrees). *)
Lemma constrainVelocity_clamp newVx newVy :
  0 <= minA → minA <= maxA → maxA < 180 →
  0 < Num.hypot newVx newVy →
  let a := reflectionAngle newVx newVy in
  let out := constrainVelocity config newVx newVy in
  (Rabs a < minA - 0.1 →
   reflectionAngle out.1 out.2 = if Rle_dec 0 a then minA else - minA)
  ∧ (maxA + 0.1 < Rabs a →
     reflectionAngle out.1 out.2 = if Rlt_dec 0 a then maxA else - maxA)
  ∧ (minA - 0.1 <= Rabs a <= maxA + 0.1 → out = (newVx, newVy)).
Proof.
  intros Hmin Hmm Hmax Hs a out. subst out. split; [|split].
  - intros Ha.
    assert (constrainAngle config a = if Rle_dec 0 a then minA else - minA)
      as Hc by (apply constrainAngle_below_min; lra).
    rewrite constrainVelocity_changed; fold a; rewrite Hc.
    + simpl. destruct (Rle_dec 0 a); apply reflectionAngle_polar; lra.
    + destruct (Rle_dec 0 a); rabs; lra.
  - intros Ha. destruct (Rlt_dec 0 a) as [Hpos|Hneg].
    + assert (maxA < a) as Hgt by (rabs; lra).
      rewrite constrainVelocity_changed; fold a;
        rewrite constrainAngle_above_max by lra.
      * simpl. apply reflectionAngle_polar; lra.
      * rabs; lra.
    + assert (a < - maxA) as Hlt by (rabs; lra).
      rewrite constrainVelocity_changed; fold a;
        rewrite constrainAngle_below_neg_max by lra.
      * simpl. apply reflectionAngle_polar; lra.
      * rabs; lra.
  - intros [Hlo Hhi]. apply constrainVelocity_unchanged. fold a.
    destruct (Rlt_dec (Rabs a) minA) as [Hsmall|Hbig].
    + rewrite constrainAngle_below_min by lra.
      destruct (Rle_dec 0 a); rabs; lra.
    + destruct (Rle_dec (Rabs a) maxA) as [Hin|Hout].
      * rewrite constrainAngle_within by lra. rabs; lra.
      * destruct (Rlt_dec 0 a).
        -- rewrite constrainAngle_above_max by (rabs; lra). rabs; lra.
        -- rewrite constrainAngle_below_neg_max by (rabs; lra). rabs; lra.
Qed.
End AngleClamp.

Lemma deviationDeg_x v1 v2 :
  deviationDeg (1, 0) (v1, v2) = reflectionAngle v1 v2.
Proof.
  unfold deviationDeg. simpl. rewrite reflectionAngle_eq.
  replace (1 * v2 - 0 * v1) with v2 by ring.
  replace (1 * v1 + 0 * v2) with v1 by ring. done.
Qed.

Section AlignedContact.
Variable arena : Arena.arena.
Variable st : State.state.
Variable config : ArcadeConfig.config.

(** At the leftmost point of the arena the inward normal is the x axis. *)
Lemma inwardNormal_aligned ball :
  Ball.y ball - Arena.cy arena = 0 →
  Ball.x ball - Arena.cx arena < 0 →
  Num.hypot (Ball.x ball - Arena.cx arena) (Ball.y ball - Arena.cy arena)
  = - (Ball.x ball - Arena.cx arena)
  ∧ inwardNormal arena ball = (1, 0).
Proof.
  intros Hy Hx.
  assert (Num.hypot (Ball.x ball - Arena.cx arena)
                    (Ball.y ball - Arena.cy arena)
          = - (Ball.x ball - Arena.cx arena)) as Hd.
  { apply hypot_unique; [lra|]. rewrite Hy. ring. }
  split; [done|]. unfold inwardNormal. rewrite Hd, Hy. f_equal; field; lra.
Qed.

Lemma arcadeReflectWall_wall_result ball l1 hit :
  let dx := Ball.x ball - Arena.cx arena in
  let dy := Ball.y ball - Arena.cy arena in
  let dist := Num.hypot dx dy in
  Arena.r arena < dist + Ball.r ball →
  ¬ Rabs (gapDelta arena dx dy) < Arena.gapWidth arena / 2 →
  arcadeBounce arena config dx dy dist ball = Some (l1, hit) →
  ∃ l, arcadeReflectWall arena st config ball
       = Some (l, (applyCallback (handler st Program.onWallHit) hit, true)).
Proof.
  intros dx dy dist Hcontact Hgap Hb.
  rewrite arcadeReflectWall_wall by done. fold dx dy dist. rewrite Hb.
  simpl. rewrite fire_spec. simpl.
  unfold pingSfx. destruct (State.doSfx st); simpl; eauto.
Qed.

(** The clamp at a contact whose inward normal is the x axis, stated on
    the deviation from that normal. *)
Lemma arcadeBounce_aligned ball :
  let dx := Ball.x ball - Arena.cx arena in
  let dy := Ball.y ball - Arena.cy arena in
  let dist := Num.hypot dx dy in
  let minA := ArcadeConfig.minReflectionAngle config in
  let maxA := ArcadeConfig.maxReflectionAngle config in
  0 <= minA → minA <= maxA → maxA < 180 →
  dy = 0 → dx < 0 →
  0 < Ball.speed ball →
  ∃ l hit,
    arcadeBounce arena config dx dy dist ball = Some (l, hit)
    ∧ let n := inwardNormal arena ball in
      let dev := deviationDeg n (naturalReflection arena ball) in
      let out := deviationDeg n (Ball.vx hit, Ball.vy hit) in
      (Rabs dev < minA - 0.1 → out = if Rle_dec 0 dev then minA else - minA)
      ∧ (maxA + 0.1 < Rabs dev →
         out = if Rlt_dec 0 dev then maxA else - maxA)
      ∧ (minA - 0.1 <= Rabs dev <= maxA + 0.1 →
         (Ball.vx hit, Ball.vy hit) = naturalReflection arena ball).
Proof.
  intros dx dy dist minA maxA Hmin Hmm Hmax Hy Hx Hs.
  destruct (inwardNormal_aligned ball Hy Hx) as [Hd Hn].
  fold dx dy dist in Hd.
  assert (dist ≠ 0) as Hnz by (rewrite Hd; lra).
  rewrite arcadeBounce_spec by done. do 2 eexists. split; [reflexivity|].
  rewrite Hn. cbv zeta. unfold naturalReflection. fold dx dy dist.
  set (m := mirror (Ball.vx ball) (Ball.vy ball) (dx / dist) (dy / dist)).
  simpl. rewrite (surjective_pairing m), !deviationDeg_x.
  assert (0 < Num.hypot m.1 m.2) as Hm.
  { subst m. rewrite hypot_mirror by (by apply unit_normal). done. }
  destruct (constrainVelocity_clamp config m.1 m.2 Hmin Hmm Hmax Hm)
    as (H1 & H2 & H3).
  split; [exact H1|]. split; [exact H2|].
  intros Hin. rewrite <- (H3 Hin). by destruct (constrainVelocity _ _ _).
Qed.

(** C2, amended. At a non-gap wall contact of an arcade engine whose
    inward wall normal is the x axis (the angle the engine clamps is then
    the deviation of the reflected velocity from the inward normal), with
    [0 <= min <= max < 180] and a moving ball: a mirror-reflected velocity
    whose absolute deviation is more than 0.1 degree below the minimum
    leaves at exactly the minimum deviation on the same side (the positive
    side for deviation zero); one whose absolute deviation is more than
    0.1 degree above the maximum leaves at exactly the maximum deviation
    on the same side; any other leaves as mirrored, so a deviation within
    0.1 degree of a bound is not corrected.  [hit] is the ball after the
    wall response; the ball returned is [hit] passed through the
    onWallHit callback. *)
Theorem arcade_clamp_from_aligned_normal (ball : Ball.ball) :
  let dx := Ball.x ball - Arena.cx arena in
  let dy := Ball.y ball - Arena.cy arena in
  let dist := Num.hypot dx dy in
  let minA := ArcadeConfig.minReflectionAngle config in
  let maxA := ArcadeConfig.maxReflectionAngle config in
  Arena.r arena < dist + Ball.r ball →
  ¬ Rabs (gapDelta arena dx dy) < Arena.gapWidth arena / 2 →
  0 <= minA → minA <= maxA → maxA < 180 →
  dy = 0 → dx < 0 →
  0 < Ball.speed ball →
  ∃ l l1 hit,
    arcadeBounce arena config dx dy dist ball = Some (l1, hit)
    ∧ arcadeReflectWall arena st config ball
      = Some (l, (applyCallback (handler st Program.onWallHit) hit, true))
    ∧ let n := inwardNormal arena ball in
      let dev := deviationDeg n (naturalReflection arena ball) in
      let out := deviationDeg n (Ball.vx hit, Ball.vy hit) in
      (Rabs dev < minA - 0.1 → out = if Rle_dec 0 dev then minA else - minA)
      ∧ (maxA + 0.1 < Rabs dev →
         out = if Rlt_dec 0 dev then maxA else - maxA)
      ∧ (minA - 0.1 <= Rabs dev <= maxA + 0.1 →
         (Ball.vx hit, Ball.vy hit) = naturalReflection arena ball).
Proof.
  intros dx dy dist minA maxA Hcontact Hgap Hmin Hmm Hmax Hy Hx Hs.
  destruct (arcadeBounce_aligned ball Hmin Hmm Hmax Hy Hx Hs)
    as (l1 & hit & Hb & Hclamp).
  destruct (arcadeReflectWall_wall_result ball l1 hit Hcontact Hgap Hb)
    as [l Hres].
  exists l, l1, hit. split; [exact Hb|]. split; [exact Hres | exact Hclamp].
Qed.
End AlignedContact.

Lemma nearMinBall_aligned :
  Ball.y nearMinBall - Arena.cy arena0 = 0
  ∧ Ball.x nearMinBall - Arena.cx arena0 < 0.
Proof. simpl. lra. Qed.

Lemma nearMinBall_dist :
  Num.hypot (Ball.x nearMinBall - Arena.cx arena0)
            (Ball.y nearMinBall - Arena.cy arena0) = 470.
Proof. simpl. apply hypot_unique; lra. Qed.

Lemma nearMinBall_contact :
  Arena.r arena0
  < Num.hypot (Ball.x nearMinBall - Arena.cx arena0)
              (Ball.y nearMinBall - Arena.cy arena0) + Ball.r nearMinBall.
Proof. rewrite nearMinBall_dist, arena0_r. simpl. lra. Qed.

Lemma nearMinBall_not_in_gap :
  ¬ Rabs (gapDelta arena0 (Ball.x nearMinBall - Arena.cx arena0)
                          (Ball.y nearMinBall - Arena.cy arena0))
    < Arena.gapWidth arena0 / 2.
Proof.
  unfold gapDelta. simpl.
  rewrite (atan2_x_neg_y_nonneg (960 - 960) (70 - 540)) by lra.
  replace ((960 - 960) / (70 - 540)) with 0 by lra.
  rewrite atan_0.
  replace (0 + PI - - PI / 2) with (3 * (PI / 2)) by lra.
  rewrite sin_3PI2, cos_3PI2, atan2_0_neg by lra.
  pose proof PI2_1. rewrite Rabs_Ropp, Rabs_pos_eq by lra. lra.
Qed.

Lemma nearMinBall_speed : Ball.speed nearMinBall = 1000.
Proof.
  unfold Ball.speed. simpl. apply hypot_unique; [lra|].
  pose proof (sin2_cos2 (14.95 * PI / 180)) as H. unfold Rsqr in H. nra.
Qed.

Lemma nearMinBall_reflection :
  naturalReflection arena0 nearMinBall
  = (cos (14.95 * PI / 180) * 1000, sin (14.95 * PI / 180) * 1000).
Proof.
  unfold naturalReflection. rewrite nearMinBall_dist.
  unfold mirror. simpl. f_equal; field.
Qed.

Lemma nearMinBall_deviation :
  deviationDeg (inwardNormal arena0 nearMinBall)
    (naturalReflection arena0 nearMinBall) = 14.95.
Proof.
  destruct nearMinBall_aligned as [Hy Hx].
  destruct (inwardNormal_aligned arena0 nearMinBall Hy Hx) as [_ ->].
  rewrite nearMinBall_reflection, deviationDeg_x.
  apply reflectionAngle_polar; lra.
Qed.

Lemma arcade_clamp_from_aligned_normal_witness :
  ∃ l hit,
    arcadeReflectWall arena0 (stateWith "arcade" None)
      (ArcadeConfig.mk 15 165) nearMinBall
    = Some (l, (hit, true))
    ∧ (Ball.vx hit, Ball.vy hit) = naturalReflection arena0 nearMinBall.
Proof.
  destruct nearMinBall_aligned as [Hy Hx].
  destruct (arcade_clamp_from_aligned_normal arena0
              (stateWith "arcade" None) (ArcadeConfig.mk 15 165) nearMinBall)
    as (l & l1 & hit & _ & Hres & _ & _ & Hkeep).
  - exact nearMinBall_contact.
  - exact nearMinBall_not_in_gap.
  - simpl. lra.
  - simpl. lra.
  - simpl. lra.
  - exact Hy.
  - exact Hx.
  - rewrite nearMinBall_speed. lra.
  - exists l, hit. split; [exact Hres|]. apply Hkeep.
    rewrite nearMinBall_deviation. simpl.
    rewrite Rabs_pos_eq by lra. lra.
Defined.

(** C2, counterexample. With the default bounds (15 and 165 degrees), at
    the leftmost point of the arena, a ball whose mirror-reflected
    velocity deviates by 14.95 degrees from the inward wall normal, less
    than the minimum, leaves the wall at that same deviation, not at 15
    degrees. *)
Lemma arcade_clamp_counterexample :
  ∃ l ball',
    Engine.reflectWall
      (ArcadePhysics arena0 physicsConfig0 (stateWith "arcade" None))
      nearMinBall
    = Some (l, (ball', true))
    ∧ ¬ Rabs (gapDelta arena0 (Ball.x nearMinBall - Arena.cx arena0)
                              (Ball.y nearMinBall - Arena.cy arena0))
        < Arena.gapWidth arena0 / 2
    ∧ Rabs (deviationDeg (inwardNormal arena0 nearMinBall)
              (naturalReflection arena0 nearMinBall))
      < ArcadeConfig.minReflectionAngle (PhysicsConfig.arcade physicsConfig0)
    ∧ deviationDeg (inwardNormal arena0 nearMinBall)
        (Ball.vx ball', Ball.vy ball') = 14.95
    ∧ Rabs (deviationDeg (inwardNormal arena0 nearMinBall)
              (Ball.vx ball', Ball.vy ball'))
      ≠ ArcadeConfig.minReflectionAngle (PhysicsConfig.arcade physicsConfig0).
Proof.
  destruct nearMinBall_aligned as [Hy Hx].
  destruct (arcadeBounce_aligned arena0
              (PhysicsConfig.arcade physicsConfig0) nearMinBall)
    as (l1 & hit & Hb & _ & _ & Hkeep);
    [simpl; lra | simpl; lra | simpl; lra | exact Hy | exact Hx
    | rewrite nearMinBall_speed; lra |].
  destruct (arcadeReflectWall_wall_result arena0 (stateWith "arcade" None)
              _ nearMinBall l1 hit nearMinBall_contact
              nearMinBall_not_in_gap Hb) as [l Hres].
  assert ((Ball.vx hit, Ball.vy hit) = naturalReflection arena0 nearMinBall)
    as Hv.
  { apply Hkeep. rewrite nearMinBall_deviation. simpl.
    rewrite Rabs_pos_eq by lra. lra. }
  exists l, hit. split; [exact Hres|].
  split; [exact nearMinBall_not_in_gap|].
  rewrite Hv, nearMinBall_deviation. simpl.
  rewrite Rabs_pos_eq by lra. repeat split; lra.
Qed.

(** *** The clamp and the direction of the wall normal

    The angle the engine clamps is the polar angle of the reflected
    velocity, whatever the direction of the wall normal.  At the point
    opposite the gap the inward normal is [(0, -1)]; a ball moving
    straight out is sent straight back, at deviation zero from that
    normal, since its polar angle, -90 degrees, is within the bounds. *)

Lemma farBall_dist :
  Num.hypot (Ball.x farBall - Arena.cx arena0)
            (Ball.y farBall - Arena.cy arena0) = 470.
Proof. simpl. apply hypot_unique; lra. Qed.

Lemma farBall_contact :
  Arena.r arena0
  < Num.hypot (Ball.x farBall - Arena.cx arena0)
              (Ball.y farBall - Arena.cy arena0) + Ball.r farBall.
Proof. rewrite farBall_dist, arena0_r. simpl. lra. Qed.

Lemma farBall_not_in_gap :
  ¬ Rabs (gapDelta arena0 (Ball.x farBall - Arena.cx arena0)
                          (Ball.y farBall - Arena.cy arena0))
    < Arena.gapWidth arena0 / 2.
Proof.
  unfold gapDelta. simpl.
  replace (540 - 540) with 0 by lra.
  rewrite (atan2_0_pos (1430 - 960)) by lra.
  replace (PI / 2 - - PI / 2) with PI by lra.
  rewrite sin_PI, cos_PI, atan2_x_neg_y_nonneg by lra.
  replace (0 / -1) with 0 by lra. rewrite atan_0.
  pose proof PI2_1. rewrite Rabs_pos_eq by lra. lra.
Qed.

Lemma farBall_normal : inwardNormal arena0 farBall = (0, -1).
Proof. unfold inwardNormal. rewrite farBall_dist. simpl. f_equal; lra. Qed.

Lemma farBall_reflection : naturalReflection arena0 farBall = (0, -100).
Proof.
  unfold naturalReflection. rewrite farBall_dist.
  unfold mirror. simpl. f_equal; lra.
Qed.

Lemma reflectionAngle_down : reflectionAngle 0 (-100) = -90.
Proof.
  rewrite reflectionAngle_eq, atan2_0_neg by lra.
  pose proof PI_RGT_0. field. lra.
Qed.

Lemma arcade_clamp_ignores_wall_normal :
  ∃ l ball',
    Engine.reflectWall
      (ArcadePhysics arena0 physicsConfig0 (stateWith "arcade" None)) farBall
    = Some (l, (ball', true))
    ∧ inwardNormal arena0 farBall = (0, -1)
    ∧ naturalReflection arena0 farBall = (0, -100)
    ∧ deviationDeg (inwardNormal arena0 farBall)
        (naturalReflection arena0 farBall) = 0
    ∧ (Ball.vx ball', Ball.vy ball') = (0, -100).
Proof.
  assert (Num.hypot (Ball.x farBall - Arena.cx arena0)
            (Ball.y farBall - Arena.cy arena0) ≠ 0) as Hnz
    by (rewrite farBall_dist; lra).
  pose proof (arcadeBounce_spec arena0 (PhysicsConfig.arcade physicsConfig0)
                (Ball.x farBall - Arena.cx arena0)
                (Ball.y farBall - Arena.cy arena0) _ farBall Hnz) as Hb.
  destruct (arcadeReflectWall_wall_result arena0 (stateWith "arcade" None)
              _ farBall _ _ farBall_contact farBall_not_in_gap Hb)
    as [l Hres].
  do 2 eexists. split; [exact Hres|].
  split; [exact farBall_normal|]. split; [exact farBall_reflection|].
  split.
  - rewrite farBall_normal, farBall_reflection. unfold deviationDeg. simpl.
    rewrite atan2_x_pos by lra.
    replace ((0 * -100 - -1 * 0) / (0 * 0 + -1 * -100)) with 0 by lra.
    rewrite atan_0. lra.
  - pose proof farBall_reflection as Hm. unfold naturalReflection in Hm.
    cbv zeta. rewrite Hm. simpl.
    rewrite constrainVelocity_unchanged; [done|].
    rewrite reflectionAngle_down, constrainAngle_within; simpl.
    + replace (-90 - -90) with 0 by lra. rewrite Rabs_R0. lra.
    + rabs; lra.
Qed.

(** The earlier version of the wall response, at the same contact: the
    velocity mirrored to [(0, -100)] at the normal [(0, 1)] is turned to
    15 degrees off the inward normal [(0, -1)]. *)
Lemma legacy_clamp_measures_from_normal :
  let v := legacyConstrainVelocity (ArcadeConfig.mk 15 165) 0 1 0 (-100) in
  deviationDeg (0, -1) v = 15.
Proof.
  pose proof PI_RGT_0 as Hpi.
  assert (legacyConstrainVelocity (ArcadeConfig.mk 15 165) 0 1 0 (-100)
          = (cos (PI / 2 + -1 * (165 * PI / 180)) * 100,
             sin (PI / 2 + -1 * (165 * PI / 180)) * 100)) as Hv.
  { unfold legacyConstrainVelocity. simpl.
    rewrite (atan2_0_pos 1), (atan2_0_neg (-100)) by lra.
    replace (- (PI / 2) - PI / 2) with (- PI) by lra.
    rewrite Rabs_Ropp, Rabs_pos_eq by lra.
    destruct (Rlt_dec PI PI); [lra|].
    destruct (Rlt_dec PI (15 * PI / 180)); [lra|].
    destruct (Rlt_dec (165 * PI / 180) PI); [|lra].
    unfold Num.sign.
    destruct (Rlt_dec 0 (- PI)); [lra|].
    destruct (Rlt_dec (- PI) 0); [|lra].
    case_decide as Hadj; [|lra].
    assert (Num.hypot 0 (-100) = 100) as -> by (apply hypot_unique; lra).
    done. }
  cbv zeta. rewrite Hv. unfold deviationDeg. simpl.
  replace (PI / 2 + -1 * (165 * PI / 180)) with (PI / 12 - PI / 2) by lra.
  rewrite sin_minus, cos_minus, sin_PI2, cos_PI2.
  replace (0 * ((sin (PI / 12) * 0 - cos (PI / 12) * 1) * 100)
           - -1 * ((cos (PI / 12) * 0 + sin (PI / 12) * 1) * 100))
    with (sin (PI / 12) * 100) by ring.
  replace (0 * ((cos (PI / 12) * 0 + sin (PI / 12) * 1) * 100)
           + -1 * ((sin (PI / 12) * 0 - cos (PI / 12) * 1) * 100))
    with (cos (PI / 12) * 100) by ring.
  rewrite atan2_polar by lra. field. lra.
Qed.

(** * Further properties *)

(** ** The history buffer *)

Section HistoryFacts.
Local Open Scope Z_scope.

Lemma size_within (m : gmap Z Snapshot.snapshot) (lo hi : Z) :
  lo ≤ hi + 1 →
  (∀ f, is_Some (m !! f) → lo ≤ f ≤ hi) →
  Z.of_nat (size m) ≤ hi - lo + 1.
Proof.
  intros Hle Hdom.
  assert (dom m ⊆ list_to_set (C := gset Z) (seqZ lo (hi - lo + 1))) as Hd.
  { intros f. rewrite elem_of_dom, elem_of_list_to_set, elem_of_seqZ.
    intros Hf%Hdom. lia. }
  apply subseteq_size in Hd.
  rewrite size_dom, size_list_to_set in Hd by apply NoDup_seqZ.
  rewrite length_seqZ in Hd. lia.
Qed.

Lemma save_lookup_Some now st h f g s :
  History.simulationHistory (saveSimulationState now st h (Some f)) !! g
  = Some s →
  (g = f ∧ s = createStateSnapshot now st f)
  ∨ (g ≠ f ∧ History.simulationHistory h !! g = Some s).
Proof.
  simpl. case_decide.
  - intros [Hs _]%map_lookup_filter_Some.
    apply lookup_insert_Some in Hs.
    destruct Hs as [[<- <-] | [Hne Hs]]; [by left | right].
    split; [congruence | done].
  - intros Hs. apply lookup_insert_Some in Hs.
    destruct Hs as [[<- <-] | [Hne Hs]]; [by left | right].
    split; [congruence | done].
Qed.

(** X1. Whatever frames are saved, in whatever order, and however often
    the history is cleared, the buffer never holds more than 5000
    snapshots, no stored frame lies above [maxSavedFrame], and the
    snapshot stored under a frame carries that frame number. *)
Theorem history_stays_within_capacity (h : History.history) :
  reachable h →
  Z.of_nat (size (History.simulationHistory h)) ≤ SNAPSHOT_BUFFER_SIZE
  ∧ (∀ k, is_Some (History.simulationHistory h !! k) →
          k ≤ History.maxSavedFrame h)
  ∧ (∀ k s, History.simulationHistory h !! k = Some s →
            Snapshot.frameNumber s = k).
Proof.
  induction 1 as [|now st h [f|] Hr (IHsize & IHmax & IHkey)|h Hr IH].
  - simpl. rewrite map_size_empty. unfold SNAPSHOT_BUFFER_SIZE.
    split; [lia|]. split.
    + intros k. rewrite lookup_empty. by intros []%is_Some_None.
    + intros k s. by rewrite lookup_empty.
  - assert (∀ k, is_Some (History.simulationHistory
                            (saveSimulationState now st h (Some f)) !! k) →
                 k ≤ Z.max (History.maxSavedFrame h) f) as Hmax.
    { intros k [s Hs]. apply save_lookup_Some in Hs.
      destruct Hs as [[-> _] | [_ Hs]]; [lia|].
      assert (k ≤ History.maxSavedFrame h) by (apply IHmax; eauto). lia. }
    split; [|split].
    + pose proof Hmax as Hmax'. simpl in Hmax' |- *. case_decide as Hfull.
      * etrans.
        -- apply (size_within _
                    (Z.max (History.maxSavedFrame h) f
                     - SNAPSHOT_BUFFER_SIZE + 1)
                    (Z.max (History.maxSavedFrame h) f)).
           ++ unfold SNAPSHOT_BUFFER_SIZE. lia.
           ++ intros k Hk. split; [|by apply Hmax'].
              destruct Hk as [s [_ Hkeep]%map_lookup_filter_Some].
              simpl in Hkeep. lia.
        -- lia.
      * lia.
    + exact Hmax.
    + intros k s Hs. apply save_lookup_Some in Hs.
      destruct Hs as [[-> ->] | [_ Hs]]; [done | by apply IHkey].
  - done.
  - simpl. rewrite map_size_empty. unfold SNAPSHOT_BUFFER_SIZE.
    split; [lia|]. split.
    + intros k. rewrite lookup_empty. by intros []%is_Some_None.
    + intros k s. by rewrite lookup_empty.
Qed.

Lemma history_stays_within_capacity_witness :
  Z.of_nat
    (size (History.simulationHistory
             (saveSimulationState 0%R State.initial History.initial (Some 7))))
  ≤ SNAPSHOT_BUFFER_SIZE.
Proof.
  apply history_stays_within_capacity.
  apply reachable_save, reachable_initial.
Defined.

(** X2. A frame saved by number restores by number to the state that was
    saved last under it (an earlier snapshot of the same frame is
    overwritten), provided the frame is not negative and not below the
    oldest frame the buffer keeps: the call returns the frame, and the
    balls, nextId, t, score, physics variant and collision flag are those
    of the saved state. *)
Theorem save_then_restore_by_frame (now : R) (st cur : State.state)
    (h : History.history) (F : Z) :
  0 ≤ F →
  History.maxSavedFrame h - SNAPSHOT_BUFFER_SIZE + 1 ≤ F →
  let restored :=
    restoreSimulationState (saveSimulationState now st h (Some F)) cur F in
  restored.1 = Some F
  ∧ State.balls restored.2 = State.balls st
  ∧ State.nextId restored.2 = State.nextId st
  ∧ State.t restored.2 = State.t st
  ∧ State.score restored.2 = State.score st
  ∧ State.physicsEngine restored.2 = State.physicsEngine st
  ∧ State.doCollide restored.2 = State.doCollide st.
Proof.
  intros Hnn Hkeep restored. subst restored.
  rewrite save_then_restore by done. simpl. rewrite !copyBalls_id. done.
Qed.

Lemma save_then_restore_by_frame_witness :
  (restoreSimulationState
     (saveSimulationState 0%R (stateWith "realistic" None)
        (saveSimulationState 0%R State.initial History.initial (Some 5))
        (Some 5))
     State.initial 5).1 = Some 5
  ∧ State.physicsEngine
      (restoreSimulationState
         (saveSimulationState 0%R (stateWith "realistic" None)
            (saveSimulationState 0%R State.initial History.initial (Some 5))
            (Some 5))
         State.initial 5).2 = "realistic".
Proof.
  destruct (save_then_restore_by_frame 0%R (stateWith "realistic" None)
              State.initial
              (saveSimulationState 0%R State.initial History.initial (Some 5))
              5) as (H1 & _ & _ & _ & _ & H6 & _).
  - lia.
  - simpl. unfold SNAPSHOT_BUFFER_SIZE. lia.
  - split; [exact H1 | exact H6].
Defined.

(** X3. Once the run of saves has passed the capacity, saving an old
    frame again (one below [maxSavedFrame - capacity + 1]) stores
    nothing: the save evicts its own snapshot, and restoring that frame
    still fails and leaves the state alone. *)
Theorem resaved_old_frame_is_dropped (stateAt : nat → State.state)
    (clock : nat → R) (now : R) (st cur : State.state) (N : nat) (f : Z) :
  SNAPSHOT_BUFFER_SIZE ≤ Z.of_nat N →
  0 ≤ f < Z.of_nat N - SNAPSHOT_BUFFER_SIZE + 1 →
  restoreSimulationState
    (saveSimulationState now st (saveFrames stateAt clock N) (Some f)) cur f
  = (None, cur).
Proof.
  intros HN Hf. apply restoreSimulationState_miss. right.
  destruct (saveFrames_invariant stateAt clock N) as [Hmax Hdom].
  set (h := saveFrames stateAt clock N) in *.
  apply eq_None_not_Some. rewrite save_lookup. intros [_ Hkeep].
  apply Hkeep.
  - assert (History.simulationHistory h !! f = None) as Hfresh.
    { apply eq_None_not_Some. rewrite Hdom.
      unfold SNAPSHOT_BUFFER_SIZE in *. lia. }
    rewrite map_size_insert_None by done.
    rewrite Nat2Z.inj_succ.
    rewrite (size_interval _ (Z.of_nat N - SNAPSHOT_BUFFER_SIZE + 1)
               (Z.of_nat N)).
    + lia.
    + unfold SNAPSHOT_BUFFER_SIZE. lia.
    + intros g. rewrite Hdom. unfold SNAPSHOT_BUFFER_SIZE in *. lia.
  - simpl. fold h. rewrite Hmax. lia.
Qed.

Lemma resaved_old_frame_is_dropped_witness :
  restoreSimulationState
    (saveSimulationState 0%R State.initial
       (saveFrames (fun _ => State.initial) (fun _ => 0%R) (Z.to_nat 6000))
       (Some 3))
    State.initial 3
  = (None, State.initial).
Proof.
  apply resaved_old_frame_is_dropped; unfold SNAPSHOT_BUFFER_SIZE; lia.
Defined.
End HistoryFacts.

(** ** The closest stored frame *)

Section ClosestFacts.
Local Open Scope Z_scope.

(** The scan ends on the first key of [order] among those nearest to the
    target. *)
Lemma closestScan_spec (t : Z) (order : list Z) :
  (order = [] ∧ fold_left (closestStep t) order (-1, None) = (-1, None))
  ∨ ∃ (i : nat) (c : Z),
      order !! i = Some c
      ∧ fold_left (closestStep t) order (-1, None) = (c, Some (Z.abs (c - t)))
      ∧ (∀ (j : nat) k, order !! j = Some k → Z.abs (c - t) ≤ Z.abs (k - t))
      ∧ (∀ (j : nat) k, (j < i)%nat → order !! j = Some k →
                        Z.abs (c - t) < Z.abs (k - t)).
Proof.
  induction order as [|x l IH] using rev_ind; [by left|]. right.
  rewrite fold_left_app. simpl.
  destruct IH as [[-> ->] | (i & c & Hi & -> & Hmin & Hfirst)].
  - exists 0%nat, x. simpl. unfold closestStep. simpl.
    split; [done|]. split; [done|]. split.
    + intros [|j] k Hk; simpl in Hk; [|done]. injection Hk as <-. lia.
    + intros j k Hj. lia.
  - unfold closestStep. simpl. case_decide as Hlt.
    + exists (length l), x. split; [by rewrite list_lookup_middle|].
      split; [done|]. split.
      * intros j k Hk. apply lookup_app_Some in Hk.
        destruct Hk as [Hk | [_ Hk]].
        -- specialize (Hmin j k Hk). lia.
        -- destruct (j - length l)%nat; simpl in Hk; [|done].
           injection Hk as <-. lia.
      * intros j k Hj Hk. rewrite lookup_app_l in Hk by done.
        specialize (Hmin j k Hk). lia.
    + exists i, c. split; [by apply lookup_app_l_Some|].
      split; [done|]. split.
      * intros j k Hk. apply lookup_app_Some in Hk.
        destruct Hk as [Hk | [_ Hk]]; [by apply (Hmin j)|].
        destruct (j - length l)%nat; simpl in Hk; [|done].
        injection Hk as <-. lia.
      * intros j k Hj Hk. apply (Hfirst j k Hj).
        apply lookup_lt_Some in Hi.
        rewrite lookup_app_l in Hk by lia. done.
Qed.

(** X4. [getClosestAvailableFrame], for an iteration order that lists
    the stored frames: a stored target is returned as it is; otherwise
    the answer is a stored, non-negative frame at the least distance from
    the target, the first such frame in iteration order, and the answer
    is [null] exactly when nothing is stored or the first nearest frame
    is negative. *)
Theorem closest_available_frame (order : list Z) (h : History.history)
    (t : Z) :
  (∀ k, k ∈ order ↔ is_Some (History.simulationHistory h !! k)) →
  (is_Some (History.simulationHistory h !! t) →
   getClosestAvailableFrame order h t = Some t)
  ∧ (∀ c, getClosestAvailableFrame order h t = Some c →
       is_Some (History.simulationHistory h !! c)
       ∧ (∀ k, is_Some (History.simulationHistory h !! k) →
               Z.abs (c - t) ≤ Z.abs (k - t))
       ∧ (¬ is_Some (History.simulationHistory h !! t) →
          0 ≤ c
          ∧ ∃ i : nat, order !! i = Some c
              ∧ ∀ (j : nat) k, (j < i)%nat → order !! j = Some k →
                               Z.abs (c - t) < Z.abs (k - t)))
  ∧ (getClosestAvailableFrame order h t = None →
     ¬ is_Some (History.simulationHistory h !! t)
     ∧ (order = []
        ∨ ∃ k, k < 0 ∧ is_Some (History.simulationHistory h !! k)
               ∧ ∀ k', is_Some (History.simulationHistory h !! k') →
                       Z.abs (k - t) ≤ Z.abs (k' - t))).
Proof.
  intros Horder. unfold getClosestAvailableFrame.
  destruct (decide (is_Some (History.simulationHistory h !! t))) as [Hin|Hout].
  - split; [done|]. split; [|done].
    intros c [= <-]. split; [done|]. split; [|done].
    intros k _. lia.
  - split; [done|].
    destruct (closestScan_spec t order)
      as [[-> Hscan] | (i & c & Hi & Hscan & Hmin & Hfirst)];
      rewrite Hscan; simpl.
    + split; [done|]. intros _. split; [done | by left].
    + assert (is_Some (History.simulationHistory h !! c)) as Hc.
      { apply Horder. by eapply list_elem_of_lookup_2. }
      assert (∀ k, is_Some (History.simulationHistory h !! k) →
                   Z.abs (c - t) ≤ Z.abs (k - t)) as Hall.
      { intros k Hk. apply Horder, list_elem_of_lookup in Hk.
        destruct Hk as [j Hj]. by apply (Hmin j). }
      case_decide as Hsign.
      * split; [|done]. intros c' [= <-]. split; [done|]. split; [done|].
        intros _. split; [done|]. by exists i.
      * split; [done|]. intros _. split; [done|]. right.
        exists c. split; [lia|]. done.
Qed.

Lemma closest_available_frame_witness :
  getClosestAvailableFrame [3]
    (History.mk {[3 := createStateSnapshot 0%R State.initial 3]} 3) 3
  = Some 3.
Proof.
  apply (closest_available_frame [3]
           (History.mk {[3 := createStateSnapshot 0%R State.initial 3]} 3) 3).
  - intros k. simpl. rewrite list_elem_of_singleton.
    unfold is_Some. setoid_rewrite lookup_singleton_Some.
    split; [intros ->; eauto | intros (? & -> & _); done].
  - simpl. rewrite lookup_singleton_eq. eauto.
Defined.
End ClosestFacts.

(** ** Frame stepping *)

Section SteppingFacts.
Local Open Scope Z_scope.
Variable tick : nat → R → State.state → State.state.
Variable clock : nat → R.

Lemma restoreSimulationState_Some h st f g st' :
  restoreSimulationState h st f = (Some g, st') →
  g = f ∧ 0 ≤ f ∧ ∃ s, History.simulationHistory h !! f = Some s
                        ∧ st' = (restoreStateSnapshot st (Some s)).2.
Proof.
  unfold restoreSimulationState.
  destruct (decide (f < 0)); [done|].
  destruct (History.simulationHistory h !! f) as [s|] eqn:Hs; [|done].
  simpl. intros [= <- <-]. split; [done|]. split; [lia|]. eauto.
Qed.

Lemma restoreSimulationState_None h st f st' :
  restoreSimulationState h st f = (None, st') → st' = st.
Proof.
  unfold restoreSimulationState.
  destruct (decide (f < 0)); [by intros [= <-]|].
  destruct (History.simulationHistory h !! f) as [s|]; [done|].
  by intros [= <-].
Qed.

(** A round of [stepBackward] that does not break lands on a stored
    frame below the current one, with the state of that snapshot. *)
Lemma stepBackwardRound_Some order w w' :
  stepBackwardRound order w = Some w' →
  0 ≤ Stepper.currentFrame w' < Stepper.currentFrame w
  ∧ Stepper.history w' = Stepper.history w
  ∧ Stepper.simulationMode w' = Stepper.simulationMode w
  ∧ ∃ s, History.simulationHistory (Stepper.history w)
           !! Stepper.currentFrame w' = Some s
         ∧ Stepper.state w'
           = (restoreStateSnapshot (Stepper.state w) (Some s)).2.
Proof.
  unfold stepBackwardRound.
  destruct (decide (Stepper.currentFrame w - 1 < 0)); [done|].
  destruct (restoreSimulationState _ _ (Stepper.currentFrame w - 1))
    as [[g|] st1] eqn:Hr.
  - apply restoreSimulationState_Some in Hr.
    destruct Hr as (-> & Hnn & s & Hs & ->).
    intros [= <-]. simpl. split; [lia|]. eauto.
  - apply restoreSimulationState_None in Hr. subst st1.
    destruct (getClosestAvailableFrame _ _ _) as [c|]; [|done].
    destruct (decide (c < Stepper.currentFrame w)); [|done].
    destruct (restoreSimulationState _ _ c) as [[g|] st2] eqn:Hr2; [|done].
    apply restoreSimulationState_Some in Hr2.
    destruct Hr2 as (-> & Hnn & s & Hs & ->).
    intros [= <-]. simpl. split; [lia|]. eauto.
Qed.

Lemma stepBackwardLoop_spec order steps w :
  let w' := stepBackwardLoop order steps w in
  Stepper.history w' = Stepper.history w
  ∧ Stepper.simulationMode w' = Stepper.simulationMode w
  ∧ (w' = w
     ∨ 0 ≤ Stepper.currentFrame w' < Stepper.currentFrame w
       ∧ is_Some (History.simulationHistory (Stepper.history w)
                    !! Stepper.currentFrame w')).
Proof.
  revert w. induction steps as [|steps IH]; intros w; simpl; [auto|].
  destruct (stepBackwardRound order w) as [w1|] eqn:Hround; [|auto].
  apply stepBackwardRound_Some in Hround.
  destruct Hround as (Hcf & Hh & Hmode & s & Hs & Hst).
  destruct (IH w1) as (Hh' & Hmode' & Hcases).
  split; [congruence|]. split; [congruence|]. right.
  destruct Hcases as [-> | [Hcf' Hstored]].
  - split; [lia | eauto].
  - split; [lia|]. by rewrite <- Hh.
Qed.

(** X5. [stepBackward] never moves the frame counter up and never below
    zero, and leaves the history and the mode alone: either nothing
    changes at all, or the counter ends on a frame that is stored in the
    history, strictly below where it was. *)
Theorem stepBackward_lands_on_stored_frame (order : list Z) (steps : nat)
    (w : Stepper.stepper) :
  let w' := stepBackward order steps w in
  Stepper.history w' = Stepper.history w
  ∧ Stepper.simulationMode w' = Stepper.simulationMode w
  ∧ (w' = w
     ∨ 0 ≤ Stepper.currentFrame w' < Stepper.currentFrame w
       ∧ is_Some (History.simulationHistory (Stepper.history w)
                    !! Stepper.currentFrame w')).
Proof.
  unfold stepBackward. destruct (decide (Stepper.currentFrame w ≤ 0)).
  - simpl. auto.
  - apply stepBackwardLoop_spec.
Qed.

(** X6. One step forward and one step back: with the simulation running
    or the mode ["step"], a frame counter that is not negative and not
    below the frames the buffer keeps, the frame counter is back where it
    was, and the balls, nextId, t, score, physics variant and collision
    flag are those the state had before the step, whatever the tick
    did. *)
Theorem step_forward_then_backward (order : list Z) (w : Stepper.stepper) :
  State.running (Stepper.state w) = true
  ∨ Stepper.simulationMode w = "step" →
  0 ≤ Stepper.currentFrame w →
  History.maxSavedFrame (Stepper.history w) - SNAPSHOT_BUFFER_SIZE + 1
  ≤ Stepper.currentFrame w →
  let w' := stepBackward order 1 (stepForward tick clock 1 w) in
  Stepper.currentFrame w' = Stepper.currentFrame w
  ∧ State.balls (Stepper.state w') = State.balls (Stepper.state w)
  ∧ State.nextId (Stepper.state w') = State.nextId (Stepper.state w)
  ∧ State.t (Stepper.state w') = State.t (Stepper.state w)
  ∧ State.score (Stepper.state w') = State.score (Stepper.state w)
  ∧ State.physicsEngine (Stepper.state w')
    = State.physicsEngine (Stepper.state w)
  ∧ State.doCollide (Stepper.state w') = State.doCollide (Stepper.state w).
Proof.
  intros Hrun Hnn Hkeep.
  assert (∃ st0,
            stepForward tick clock 1 w
            = Stepper.mk (tick O (State.dt st0) st0)
                (saveSimulationState (clock O) st0 (Stepper.history w)
                   (Some (Stepper.currentFrame w)))
                (Stepper.simulationMode w) (Stepper.currentFrame w + 1)
            ∧ State.balls st0 = State.balls (Stepper.state w)
            ∧ State.nextId st0 = State.nextId (Stepper.state w)
            ∧ State.t st0 = State.t (Stepper.state w)
            ∧ State.score st0 = State.score (Stepper.state w)
            ∧ State.physicsEngine st0 = State.physicsEngine (Stepper.state w)
            ∧ State.doCollide st0 = State.doCollide (Stepper.state w))
    as (st0 & -> & Hb & Hn & Ht & Hs & He & Hc).
  { unfold stepForward.
    destruct (State.running (Stepper.state w)) eqn:Hr; simpl.
    - rewrite Hr. exists (Stepper.state w). simpl.
      by destruct w.
    - destruct Hrun as [|Hmode]; [done|].
      rewrite bool_decide_eq_true_2 by done.
      exists (setRunning true (Stepper.state w)). done. }
  unfold stepBackward.
  cbn [Stepper.currentFrame Stepper.history Stepper.state stepBackwardLoop].
  destruct (decide (Stepper.currentFrame w + 1 ≤ 0)); [lia|].
  unfold stepBackwardRound.
  cbn [Stepper.currentFrame Stepper.history Stepper.state].
  destruct (decide (Stepper.currentFrame w + 1 - 1 < 0)); [lia|].
  replace (Stepper.currentFrame w + 1 - 1) with (Stepper.currentFrame w)
    by lia.
  rewrite save_then_restore by done. simpl.
  rewrite !copyBalls_id. done.
Qed.

End SteppingFacts.

Lemma step_forward_then_backward_witness :
  Stepper.currentFrame
    (stepBackward [] 1
       (stepForward (fun _ _ st => st) (fun _ => 0%R) 1
          (Stepper.mk State.initial History.initial "step" 0%Z)))
  = 0%Z.
Proof.
  apply (step_forward_then_backward (fun _ _ st => st) (fun _ => 0%R) []
           (Stepper.mk State.initial History.initial "step" 0%Z)).
  - right. reflexivity.
  - simpl. lia.
  - simpl. unfold SNAPSHOT_BUFFER_SIZE. lia.
Defined.


(** ** The engines at the wall *)

Section EngineFacts.
Variable arena : Arena.arena.
Variable physicsConfig : PhysicsConfig.config.
Variable st : State.state.

Lemma realisticBounce_spec dx dy dist ball :
  dist ≠ 0 →
  realisticBounce arena physicsConfig dx dy dist ball
  = Some ([EvDivide dx dist; EvDivide dy dist],
          let m := mirror (Ball.vx ball) (Ball.vy ball)
                     (dx / dist) (dy / dist) in
          let e := RealisticConfig.elasticity
                     (PhysicsConfig.realistic physicsConfig) in
          Ball.set_vy (m.2 * e)
            (Ball.set_vx (m.1 * e)
               (pushInside arena (dx / dist) (dy / dist) dist ball))).
Proof.
  intros Hd. unfold realisticBounce. rewrite !fdiv_Some by done. done.
Qed.

Lemma realisticBounce_None dx dy ball :
  realisticBounce arena physicsConfig dx dy 0 ball = None.
Proof. unfold realisticBounce, fdiv. destruct (Req_dec_T 0 0); done. Qed.

(** The code after the wall response: the onWallHit callback, the sound
    cue and the flag. *)
Lemma afterBounce_spec (m : M Ball.ball) :
  (let* hit := m in
   let* ball' :=
     fire (handler st Program.onWallHit) (EvWallHit (Ball.id hit)) hit in
   let* _ := pingSfx st in
   ret (ball', true))
  = match m with
    | None => None
    | Some (l, hit) =>
        Some (l ++ match handler st Program.onWallHit with
                   | Some _ => [EvWallHit (Ball.id hit)]
                   | None => []
                   end
                ++ (if State.doSfx st then [EvSfx] else []),
              (applyCallback (handler st Program.onWallHit) hit, true))
    end.
Proof.
  destruct m as [[l hit]|]; [|done]. simpl. rewrite fire_spec. simpl.
  unfold pingSfx. destruct (State.doSfx st); simpl; by rewrite ?app_nil_r.
Qed.

(** The three branches of [reflectWall], for any of the engines: no
    contact, contact inside the gap, contact with the wall (where the
    engines differ in the wall response only). *)
Lemma reflectWall_cases e ball :
  e ∈ engines arena physicsConfig st →
  let dx := Ball.x ball - Arena.cx arena in
  let dy := Ball.y ball - Arena.cy arena in
  let dist := Num.hypot dx dy in
  (dist + Ball.r ball <= Arena.r arena
   ∧ Engine.reflectWall e ball = Some ([], (ball, false)))
  ∨ (Arena.r arena < dist + Ball.r ball
     ∧ Rabs (gapDelta arena dx dy) < Arena.gapWidth arena / 2
     ∧ Engine.reflectWall e ball = gapExit arena st ball)
  ∨ (Arena.r arena < dist + Ball.r ball
     ∧ ¬ Rabs (gapDelta arena dx dy) < Arena.gapWidth arena / 2
     ∧ ∃ bounce,
         (bounce = arcadeBounce arena (PhysicsConfig.arcade physicsConfig)
                     dx dy dist ball
          ∨ bounce = arcadeBounce arena
                       (PhysicsConfig.arcadeSimple physicsConfig)
                       dx dy dist ball
          ∨ bounce = realisticBounce arena physicsConfig dx dy dist ball)
         ∧ Engine.reflectWall e ball
           = (let* hit := bounce in
              let* ball' :=
                fire (handler st Program.onWallHit)
                  (EvWallHit (Ball.id hit)) hit in
              let* _ := pingSfx st in
              ret (ball', true))).
Proof.
  intros He dx dy dist.
  unfold engines in He. rewrite !elem_of_cons, elem_of_nil in He.
  destruct (Rle_dec (dist + Ball.r ball) (Arena.r arena)) as [Hin|Hout].
  { left. split; [done|].
    destruct He as [-> | [-> | [-> | []]]]; simpl;
      unfold arcadeReflectWall, realisticReflectWall; fold dx dy dist;
      (destruct (Rle_dec _ _); [done | lra]). }
  right.
  destruct (Rlt_dec (Rabs (gapDelta arena dx dy)) (Arena.gapWidth arena / 2))
    as [Hgap|Hwall].
  { left. split; [lra|]. split; [done|].
    destruct He as [-> | [-> | [-> | []]]]; simpl;
      unfold arcadeReflectWall, realisticReflectWall; fold dx dy dist;
      (destruct (Rle_dec _ _); [lra|]);
      (destruct (Rlt_dec _ _); [done | lra]). }
  right. split; [lra|]. split; [done|].
  destruct He as [-> | [-> | [-> | []]]]; simpl;
    unfold arcadeReflectWall, realisticReflectWall; fold dx dy dist;
    (destruct (Rle_dec _ _); [lra|]);
    (destruct (Rlt_dec _ _); [lra|]);
    eexists; (split; [|reflexivity]); auto.
Qed.

(** X7. [reflectWall] of any engine returns false exactly when the ball
    does not reach the wall ([dist + r <= arena.r]); the ball is then
    returned as it was and nothing happened, no callback, no sound cue, no
    division. *)
Theorem reflectWall_false_iff_no_contact (e : Engine.engine)
    (ball : Ball.ball) :
  e ∈ engines arena physicsConfig st →
  let dx := Ball.x ball - Arena.cx arena in
  let dy := Ball.y ball - Arena.cy arena in
  let dist := Num.hypot dx dy in
  (dist + Ball.r ball <= Arena.r arena →
   Engine.reflectWall e ball = Some ([], (ball, false)))
  ∧ ∀ l ball',
      Engine.reflectWall e ball = Some (l, (ball', false)) →
      dist + Ball.r ball <= Arena.r arena ∧ l = [] ∧ ball' = ball.
Proof.
  intros He dx dy dist.
  destruct (reflectWall_cases e ball He)
    as [[Hin Hres] | [(Hout & Hgap & Hres) | (Hout & Hwall & m & _ & Hres)]];
    fold dx dy dist in Hin || fold dx dy dist in Hout.
  - split; [done|]. intros l ball'. rewrite Hres. by intros [= <- <-].
  - split; [lra|]. intros l ball'. rewrite Hres, gapExit_spec. done.
  - split; [lra|]. intros l ball'. rewrite Hres, afterBounce_spec.
    destruct m as [[l1 hit]|]; done.
Qed.

(** X8. [reflectWall] of any engine has no result only in one situation:
    the ball's centre is exactly the arena centre, its radius exceeds the
    arena's, and the gap test fails; there the contact normal is [0 / 0].
    In every other situation the call returns. *)
Theorem reflectWall_undefined_iff (e : Engine.engine) (ball : Ball.ball) :
  e ∈ engines arena physicsConfig st →
  Engine.reflectWall e ball = None
  ↔ Ball.x ball = Arena.cx arena ∧ Ball.y ball = Arena.cy arena
    ∧ Arena.r arena < Ball.r ball
    ∧ ¬ Rabs (gapDelta arena 0 0) < Arena.gapWidth arena / 2.
Proof.
  intros He.
  set (dx := Ball.x ball - Arena.cx arena).
  set (dy := Ball.y ball - Arena.cy arena).
  destruct (reflectWall_cases e ball He)
    as [[Hin Hres] | [(Hout & Hgap & Hres) | (Hout & Hwall & m & Hm & Hres)]];
    fold dx dy in Hin || fold dx dy in Hout; fold dx dy in Hres;
    try fold dx dy in Hgap; try fold dx dy in Hwall; try fold dx dy in Hm.
  - rewrite Hres. split; [done|]. intros (Hx & Hy & Hr & _).
    assert (dx = 0) as Hdx by (unfold dx; lra).
    assert (dy = 0) as Hdy by (unfold dy; lra).
    rewrite Hdx, Hdy, hypot_0_0 in Hin. lra.
  - rewrite Hres, gapExit_spec. split; [done|]. intros (Hx & Hy & _ & Hn).
    assert (dx = 0) as Hdx by (unfold dx; lra).
    assert (dy = 0) as Hdy by (unfold dy; lra).
    rewrite Hdx, Hdy in Hgap. done.
  - rewrite Hres, afterBounce_spec.
    destruct (Req_dec (Num.hypot dx dy) 0) as [Hz|Hnz].
    + destruct (hypot_eq_0 _ _ Hz) as [Hdx Hdy].
      assert (m = None) as ->.
      { rewrite Hz in Hm.
        destruct Hm as [-> | [-> | ->]];
          auto using arcadeBounce_None, realisticBounce_None. }
      split; [|done]. intros _.
      rewrite Hz in Hout. rewrite Hdx, Hdy in Hwall.
      repeat split; [unfold dx in Hdx; lra | unfold dy in Hdy; lra | lra
                    | done].
    + assert (∃ l hit, m = Some (l, hit)) as (l & hit & ->).
      { destruct Hm as [-> | [-> | ->]];
          rewrite ?arcadeBounce_spec, ?realisticBounce_spec by done; eauto. }
      split; [done|]. intros (Hx & Hy & _).
      destruct Hnz. unfold dx, dy. rewrite Hx, Hy.
      replace (Arena.cx arena - Arena.cx arena) with 0 by ring.
      replace (Arena.cy arena - Arena.cy arena) with 0 by ring.
      apply hypot_0_0.
Qed.


(** X10. The wall response of the realistic engine leaves the ball with
    its velocity mirrored about the contact normal and multiplied by the
    elasticity: the speed after it is [|elasticity|] times the speed
    before, hence never more than the speed before when the elasticity
    lies in [0, 1]. *)
Theorem realistic_wall_scales_speed (ball : Ball.ball) (l : list Event)
    (hit : Ball.ball) :
  let dx := Ball.x ball - Arena.cx arena in
  let dy := Ball.y ball - Arena.cy arena in
  let dist := Num.hypot dx dy in
  let e := RealisticConfig.elasticity (PhysicsConfig.realistic physicsConfig) in
  realisticBounce arena physicsConfig dx dy dist ball = Some (l, hit) →
  Ball.vx hit
  = (mirror (Ball.vx ball) (Ball.vy ball) (dx / dist) (dy / dist)).1 * e
  ∧ Ball.vy hit
    = (mirror (Ball.vx ball) (Ball.vy ball) (dx / dist) (dy / dist)).2 * e
  ∧ Ball.speed hit = Ball.speed ball * Rabs e
  ∧ (0 <= e <= 1 → Ball.speed hit <= Ball.speed ball).
Proof.
  intros dx dy dist e Hb.
  destruct (Req_dec dist 0) as [Hz|Hnz].
  { rewrite Hz, realisticBounce_None in Hb. done. }
  rewrite realisticBounce_spec in Hb by done. injection Hb as _ <-.
  fold e. simpl. split; [done|]. split; [done|].
  assert (Ball.speed
            (Ball.set_vy
               ((Ball.vy ball
                 - 2 * (Ball.vx ball * (dx / dist) + Ball.vy ball * (dy / dist))
                   * (dy / dist)) * e)
               (Ball.set_vx
                  ((Ball.vx ball
                    - 2 * (Ball.vx ball * (dx / dist)
                           + Ball.vy ball * (dy / dist)) * (dx / dist)) * e)
                  (pushInside arena (dx / dist) (dy / dist) dist ball)))
          = Ball.speed ball * Rabs e) as Hs.
  { unfold Ball.speed. simpl. rewrite hypot_scale. f_equal.
    apply (hypot_mirror (Ball.vx ball) (Ball.vy ball)), unit_normal. done. }
  split; [done|]. intros He. rewrite Hs, Rabs_pos_eq by lra.
  pose proof (hypot_nonneg (Ball.vx ball) (Ball.vy ball)) as Hpos.
  unfold Ball.speed. nra.
Qed.

(** X11. With [0 <= minReflectionAngle <= maxReflectionAngle < 180], the
    wall response of the arcade engines leaves a moving ball with a
    velocity whose polar angle, in degrees, is at least
    [minReflectionAngle - 0.1] and at most [maxReflectionAngle + 0.1] in
    absolute value: the clamp together with its tenth-of-a-degree dead
    band. *)
Theorem arcade_wall_angle_range (config : ArcadeConfig.config)
    (ball : Ball.ball) (l : list Event) (hit : Ball.ball) :
  let dx := Ball.x ball - Arena.cx arena in
  let dy := Ball.y ball - Arena.cy arena in
  let minA := ArcadeConfig.minReflectionAngle config in
  let maxA := ArcadeConfig.maxReflectionAngle config in
  0 <= minA → minA <= maxA → maxA < 180 →
  0 < Ball.speed ball →
  arcadeBounce arena config dx dy (Num.hypot dx dy) ball = Some (l, hit) →
  minA - 0.1 <= Rabs (reflectionAngle (Ball.vx hit) (Ball.vy hit))
                <= maxA + 0.1.
Proof.
  intros dx dy minA maxA Hmin Hmm Hmax Hspeed Hb.
  destruct (Req_dec (Num.hypot dx dy) 0) as [Hz|Hnz].
  { rewrite Hz, arcadeBounce_None in Hb. done. }
  rewrite arcadeBounce_spec in Hb by done. injection Hb as _ <-.
  set (m := mirror (Ball.vx ball) (Ball.vy ball)
              (dx / Num.hypot dx dy) (dy / Num.hypot dx dy)).
  change (minA - 0.1
          <= Rabs (reflectionAngle (constrainVelocity config m.1 m.2).1
                     (constrainVelocity config m.1 m.2).2)
          <= maxA + 0.1).
  assert (0 < Num.hypot m.1 m.2) as Hm.
  { subst m. rewrite hypot_mirror by (by apply unit_normal). done. }
  destruct (constrainVelocity_clamp config m.1 m.2 Hmin Hmm Hmax Hm)
    as (Hlow & Hhigh & Hmid).
  fold minA maxA in Hlow, Hhigh, Hmid.
  destruct (Rlt_dec (Rabs (reflectionAngle m.1 m.2)) (minA - 0.1)) as [H1|H1].
  { rewrite (Hlow H1). destruct (Rle_dec 0 _); rabs; lra. }
  destruct (Rlt_dec (maxA + 0.1) (Rabs (reflectionAngle m.1 m.2))) as [H2|H2].
  { rewrite (Hhigh H2). destruct (Rlt_dec 0 _); rabs; lra. }
  rewrite Hmid by lra. cbn [fst snd]. lra.
Qed.

(** X12. [updateBall] of the two arcade engines is a motion at constant
    velocity: the velocity is untouched, and a step of [dt1] followed by a
    step of [dt2] is a step of [dt1 + dt2]. *)
Theorem arcade_updateBall_composes (ball : Ball.ball) (dt1 dt2 : R) :
  let arcade := ArcadePhysics arena physicsConfig st in
  let simple := ArcadeSimplePhysics arena physicsConfig st in
  Engine.updateBall simple = Engine.updateBall arcade
  ∧ Ball.vx (Engine.updateBall arcade ball dt1) = Ball.vx ball
  ∧ Ball.vy (Engine.updateBall arcade ball dt1) = Ball.vy ball
  ∧ Engine.updateBall arcade (Engine.updateBall arcade ball dt1) dt2
    = Engine.updateBall arcade ball (dt1 + dt2).
Proof.
  simpl. repeat split. destruct ball. unfold kinematicUpdate. simpl.
  unfold Ball.set_y, Ball.set_x. simpl. f_equal; ring.
Qed.

(** X13. [updateBall] of the realistic engine, with the air resistance
    factor in [0, 1]: neither velocity component grows in absolute value
    beyond what gravity adds, and when both damped components are below 1
    in absolute value the ball is stopped where it is, i.e. it comes back
    with zero velocity and its position unchanged. *)
Theorem realistic_updateBall_damps (ball : Ball.ball) (dt : R) :
  let config := PhysicsConfig.realistic physicsConfig in
  let air := RealisticConfig.airResistance config in
  let g := RealisticConfig.gravity config in
  let ball' := realisticUpdateBall arena physicsConfig ball dt in
  0 <= air <= 1 →
  Rabs (Ball.vx ball') <= Rabs (Ball.vx ball)
  ∧ Rabs (Ball.vy ball') <= Rabs (Ball.vy ball + g * dt)
  ∧ (Rabs (Ball.vx ball * air) < 1 →
     Rabs ((Ball.vy ball + g * dt) * air) < 1 →
     ball' = Ball.set_vy 0 (Ball.set_vx 0 ball)).
Proof.
  intros config air g ball' Hair. subst ball'.
  unfold realisticUpdateBall. fold config. simpl. fold air g.
  match goal with
  | |- context [if ?c then _ else _] => destruct c eqn:Ec
  end; simpl.
  - rewrite Rabs_R0. split; [apply Rabs_pos|]. split; [apply Rabs_pos|].
    intros _ _. destruct ball. unfold Ball.set_y, Ball.set_x, Ball.set_vy,
      Ball.set_vx. simpl. f_equal; ring.
  - split; [rewrite Rabs_mult, (Rabs_pos_eq air) by lra;
            pose proof (Rabs_pos (Ball.vx ball)); nra|].
    split; [rewrite Rabs_mult, (Rabs_pos_eq air) by lra;
            pose proof (Rabs_pos (Ball.vy ball + g * dt)); nra|].
    intros Hx Hy. apply orb_false_iff in Ec as [_ Ec].
    apply andb_false_iff in Ec as [Ec|Ec];
      apply bool_decide_eq_false in Ec; done.
Qed.
End EngineFacts.

Lemma reflectWall_false_iff_no_contact_witness :
  Engine.reflectWall (ArcadePhysics arena0 physicsConfig0 State.initial)
    (ballAt 1 540 960 0 0 15)
  = Some ([], (ballAt 1 540 960 0 0 15, false)).
Proof.
  refine (proj1 (reflectWall_false_iff_no_contact arena0 physicsConfig0
                   State.initial
                   (ArcadePhysics arena0 physicsConfig0 State.initial)
                   (ballAt 1 540 960 0 0 15) _) _).
  - unfold engines. rewrite !elem_of_cons. auto.
  - rewrite arena0_r. simpl.
    replace (540 - 540) with 0 by lra. replace (960 - 960) with 0 by lra.
    rewrite hypot_0_0. lra.
Defined.

Lemma reflectWall_undefined_iff_witness :
  Engine.reflectWall
    (RealisticPhysics (Arena.mk 540 960 10 (- PI / 2) 0.28) physicsConfig0
       State.initial)
    (ballAt 1 540 960 0 0 15)
  = None.
Proof.
  refine (proj2 (reflectWall_undefined_iff
                   (Arena.mk 540 960 10 (- PI / 2) 0.28) physicsConfig0
                   State.initial
                   (RealisticPhysics (Arena.mk 540 960 10 (- PI / 2) 0.28)
                      physicsConfig0 State.initial)
                   (ballAt 1 540 960 0 0 15) _) _).
  - unfold engines. rewrite !elem_of_cons. auto.
  - simpl. split; [done|]. split; [done|]. split; [lra|].
    unfold gapDelta. simpl. rewrite atan2_0_0.
    replace (0 - - PI / 2) with (PI / 2) by lra.
    rewrite sin_PI2, cos_PI2, atan2_0_pos by lra.
    pose proof PI2_1. rewrite Rabs_pos_eq by lra. lra.
Defined.


Lemma realistic_wall_scales_speed_witness :
  ∃ l hit,
    realisticBounce arena0 physicsConfig0
      (Ball.x wallBall - Arena.cx arena0) (Ball.y wallBall - Arena.cy arena0)
      (Num.hypot (Ball.x wallBall - Arena.cx arena0)
         (Ball.y wallBall - Arena.cy arena0)) wallBall = Some (l, hit)
    ∧ Ball.speed hit = Ball.speed wallBall * Rabs 0.85
    ∧ Ball.speed hit <= Ball.speed wallBall.
Proof.
  assert (Num.hypot (Ball.x wallBall - Arena.cx arena0)
            (Ball.y wallBall - Arena.cy arena0) ≠ 0) as Hnz
    by (rewrite wallBall_dist; lra).
  pose proof (realisticBounce_spec arena0 physicsConfig0
                (Ball.x wallBall - Arena.cx arena0)
                (Ball.y wallBall - Arena.cy arena0) _ wallBall Hnz) as Hb.
  do 2 eexists. split; [exact Hb|].
  destruct (realistic_wall_scales_speed arena0 physicsConfig0 wallBall _ _ Hb)
    as (_ & _ & Hs & Hle).
  split; [exact Hs | apply Hle; simpl; lra].
Defined.

Lemma arcade_wall_angle_range_witness :
  ∃ l hit,
    arcadeBounce arena0 (ArcadeConfig.mk 15 165)
      (Ball.x wallBall - Arena.cx arena0) (Ball.y wallBall - Arena.cy arena0)
      (Num.hypot (Ball.x wallBall - Arena.cx arena0)
         (Ball.y wallBall - Arena.cy arena0)) wallBall = Some (l, hit)
    ∧ 15 - 0.1 <= Rabs (reflectionAngle (Ball.vx hit) (Ball.vy hit))
                  <= 165 + 0.1.
Proof.
  assert (Num.hypot (Ball.x wallBall - Arena.cx arena0)
            (Ball.y wallBall - Arena.cy arena0) ≠ 0) as Hnz
    by (rewrite wallBall_dist; lra).
  pose proof (arcadeBounce_spec arena0 (ArcadeConfig.mk 15 165)
                (Ball.x wallBall - Arena.cx arena0)
                (Ball.y wallBall - Arena.cy arena0) _ wallBall Hnz) as Hb.
  do 2 eexists. split; [exact Hb|].
  eapply (arcade_wall_angle_range arena0 (ArcadeConfig.mk 15 165) wallBall);
    [simpl; lra | simpl; lra | simpl; lra | | exact Hb].
  unfold Ball.speed. simpl.
  assert (Num.hypot 100 0 = 100) as -> by (apply hypot_unique; lra). lra.
Defined.

Lemma realistic_updateBall_damps_witness :
  Rabs (Ball.vx (realisticUpdateBall arena0 physicsConfig0 wallBall (1 / 120)))
  <= Rabs (Ball.vx wallBall).
Proof.
  refine (proj1 (realistic_updateBall_damps arena0 physicsConfig0 wallBall
                   (1 / 120) _)).
  simpl. lra.
Defined.

(** ** The ball proxy *)

Lemma proxy_apply_frame (o : Proxy.op) (b : Ball.ball) :
  Ball.id (Proxy.apply o b) = Ball.id b
  ∧ (Ball.alive (Proxy.apply o b) = true → Ball.alive b = true)
  ∧ (Ball.r (Proxy.apply o b) = Ball.r b ∨ 1 <= Ball.r (Proxy.apply o b)).
Proof.
  destruct o; simpl; try (repeat split; auto; done).
  - repeat split; auto. right. apply Rmax_l.
  - destruct (Rlt_dec 0 _); simpl; repeat split; auto.
Qed.

(** X14. Whatever the setters and methods of the proxy a callback uses
    on its ball, in any number and order, the ball keeps its id, a
    destroyed ball is not brought back, and the radius is either the one
    the ball had or at least 1. *)
Theorem proxy_script_invariants (ops : list Proxy.op) (b : Ball.ball) :
  Ball.id (Proxy.script ops b) = Ball.id b
  ∧ (Ball.alive (Proxy.script ops b) = true → Ball.alive b = true)
  ∧ (Ball.r (Proxy.script ops b) = Ball.r b ∨ 1 <= Ball.r (Proxy.script ops b)).
Proof.
  unfold Proxy.script. revert b.
  induction ops as [|o ops IH]; intros b; simpl; [auto|].
  destruct (IH (Proxy.apply o b)) as (Hid & Halive & Hr).
  destruct (proxy_apply_frame o b) as (Hid' & Halive' & Hr').
  split; [congruence|]. split; [auto|].
  destruct Hr as [Hr|Hr]; [|auto].
  destruct Hr' as [Hr'|Hr']; [left; congruence | right; lra].
Qed.

(** X15. [scaleSpeed(f)] multiplies both velocity components by [f] and
    touches nothing else, for every ball: a ball at rest stays at rest
    (the guard [s > 0] skips the division), a moving ball has its speed
    multiplied by [|f|]. *)
Theorem scaleSpeed_multiplies_velocity (f : R) (b : Ball.ball) :
  Proxy.apply (Proxy.ScaleSpeed f) b
  = Ball.set_vy (Ball.vy b * f) (Ball.set_vx (Ball.vx b * f) b)
  ∧ Ball.speed (Proxy.apply (Proxy.ScaleSpeed f) b) = Ball.speed b * Rabs f.
Proof.
  assert (Proxy.apply (Proxy.ScaleSpeed f) b
          = Ball.set_vy (Ball.vy b * f) (Ball.set_vx (Ball.vx b * f) b)) as Heq.
  { simpl. destruct (Rlt_dec 0 _) as [Hpos|Hz].
    - replace (Num.hypot (Ball.vx b) (Ball.vy b) * f
               / Num.hypot (Ball.vx b) (Ball.vy b)) with f by (field; lra).
      done.
    - pose proof (hypot_nonneg (Ball.vx b) (Ball.vy b)) as Hnn.
      destruct (hypot_eq_0 (Ball.vx b) (Ball.vy b)) as [Hx Hy]; [lra|].
      destruct b. simpl in *. subst.
      unfold Ball.set_vy, Ball.set_vx. simpl. f_equal; ring. }
  split; [done|]. rewrite Heq. unfold Ball.speed. simpl.
  apply hypot_scale.
Qed.

(** ** More on ball-ball collisions *)

(** The exchange of the normal components, as algebra on the velocity
    components: [(ux, uy)] and [(wx, wy)] before, the primed ones after,
    [k] the factor applied afterwards. *)
Lemma exchange_algebra (ux uy wx wy nx ny k ux' uy' wx' wy' : R) :
  nx * nx + ny * ny = 1 →
  let dv := wx * nx + wy * ny - (ux * nx + uy * ny) in
  ux' = (ux + dv * nx) * k → uy' = (uy + dv * ny) * k →
  wx' = (wx - dv * nx) * k → wy' = (wy - dv * ny) * k →
  ux' * nx + uy' * ny = k * (wx * nx + wy * ny)
  ∧ wx' * nx + wy' * ny = k * (ux * nx + uy * ny)
  ∧ uy' * nx - ux' * ny = k * (uy * nx - ux * ny)
  ∧ wy' * nx - wx' * ny = k * (wy * nx - wx * ny)
  ∧ ux' + wx' = k * (ux + wx)
  ∧ uy' + wy' = k * (uy + wy)
  ∧ ux' * ux' + uy' * uy' + wx' * wx' + wy' * wy'
    = k * k * (ux * ux + uy * uy + wx * wx + wy * wy).
Proof.
  intros Hn dv -> -> -> ->.
  assert (ny * ny = 1 - nx * nx) as Hny by lra.
  repeat split; try ring.
  - transitivity (k * (ux * nx + uy * ny + dv * (nx * nx + ny * ny)));
      [ring | rewrite Hn; unfold dv; ring].
  - transitivity (k * (wx * nx + wy * ny - dv * (nx * nx + ny * ny)));
      [ring | rewrite Hn; unfold dv; ring].
  - transitivity
      (k * k * (ux * ux + uy * uy + wx * wx + wy * wy
                - 2 * dv * dv + 2 * dv * dv * (nx * nx + ny * ny)));
      [unfold dv; ring | rewrite Hn; ring].
Qed.

Section CollisionDynamics.
Variable physicsConfig : PhysicsConfig.config.
Variable st : State.state.

(** X16. With an engine other than arcadeSimple selected, the physical
    response to a detected pair exchanges the components of the two
    velocities along the contact normal and keeps the components across
    it; the sum of the two velocities and the sum of their squared
    lengths are kept.  With the realistic engine every one of these
    quantities comes multiplied by the elasticity (its square for the
    squared lengths). *)
Theorem momentum_transfer_exchanges_normal_velocity (a b : Ball.ball) :
  let dx := Ball.x b - Ball.x a in
  let dy := Ball.y b - Ball.y a in
  let dist := Num.hypot dx dy in
  let minD := Ball.r a + Ball.r b in
  let nx := dx / dist in
  let ny := dy / dist in
  let k := if decide (State.physicsEngine st = "realistic")
           then RealisticConfig.elasticity
                  (PhysicsConfig.realistic physicsConfig)
           else 1 in
  State.physicsEngine st ≠ "arcadeSimple" →
  1e-4 < dist → dist < minD →
  ∃ l a' b',
    physicalResponse physicsConfig st dx dy dist minD a b = Some (l, (a', b'))
    ∧ Ball.vx a' * nx + Ball.vy a' * ny
      = k * (Ball.vx b * nx + Ball.vy b * ny)
    ∧ Ball.vx b' * nx + Ball.vy b' * ny
      = k * (Ball.vx a * nx + Ball.vy a * ny)
    ∧ Ball.vy a' * nx - Ball.vx a' * ny
      = k * (Ball.vy a * nx - Ball.vx a * ny)
    ∧ Ball.vy b' * nx - Ball.vx b' * ny
      = k * (Ball.vy b * nx - Ball.vx b * ny)
    ∧ Ball.vx a' + Ball.vx b' = k * (Ball.vx a + Ball.vx b)
    ∧ Ball.vy a' + Ball.vy b' = k * (Ball.vy a + Ball.vy b)
    ∧ Ball.vx a' * Ball.vx a' + Ball.vy a' * Ball.vy a'
      + Ball.vx b' * Ball.vx b' + Ball.vy b' * Ball.vy b'
      = k * k * (Ball.vx a * Ball.vx a + Ball.vy a * Ball.vy a
                 + Ball.vx b * Ball.vx b + Ball.vy b * Ball.vy b).
Proof.
  intros dx dy dist minD nx ny k Hengine Heps Hlt.
  assert (dist ≠ 0) as Hd by lra.
  assert (minD ≠ 0) as Hm by lra.
  pose proof (unit_normal dx dy Hd) as Hn. fold dist nx ny in Hn.
  unfold physicalResponse. rewrite !fdiv_Some by done. simpl.
  rewrite separate_spec by done. simpl. fold nx ny.
  unfold velocityResponse.
  destruct (decide (State.physicsEngine st ≠ "arcadeSimple")); [|done].
  unfold momentumTransfer. simpl. subst k.
  destruct (decide (State.physicsEngine st = "realistic")); simpl;
    (do 3 eexists; split; [reflexivity|]); simpl;
    apply exchange_algebra; try done; ring.
Qed.

(** X17. When the collision callback has changed a radius and the pair
    still overlaps (centres more than [1e-4] apart), the third phase has
    a result: the centres end exactly [r_a + r_b] apart, for the radii
    the balls have now; the relative velocity along the line of centres
    grows by the separation velocity, 10 with arcadeSimple selected and
    20 otherwise; nothing but positions and velocities is written. *)
Theorem radius_change_separation (originalARadius originalBRadius : R)
    (a b : Ball.ball) :
  let newDx := Ball.x b - Ball.x a in
  let newDy := Ball.y b - Ball.y a in
  let newDist := Num.hypot newDx newDy in
  let newNx := newDx / newDist in
  let newNy := newDy / newDist in
  let separationVelocity :=
    if decide (State.physicsEngine st = "arcadeSimple") then 10 else 20 in
  Ball.r a ≠ originalARadius ∨ Ball.r b ≠ originalBRadius →
  1e-4 < newDist → newDist < Ball.r a + Ball.r b →
  ∃ l a' b',
    radiusChangeSeparation st originalARadius originalBRadius a b
    = Some (l, (a', b'))
    ∧ shell a' = shell a ∧ shell b' = shell b
    ∧ Num.hypot (Ball.x b' - Ball.x a') (Ball.y b' - Ball.y a')
      = Ball.r a + Ball.r b
    ∧ (Ball.vx b' - Ball.vx a') * newNx + (Ball.vy b' - Ball.vy a') * newNy
      = (Ball.vx b - Ball.vx a) * newNx + (Ball.vy b - Ball.vy a) * newNy
        + separationVelocity.
Proof.
  intros dx dy dist nx ny sv Hchanged Heps Hlt.
  assert (dist ≠ 0) as Hd by lra.
  assert (Ball.r a + Ball.r b ≠ 0) as Hm by lra.
  pose proof (unit_normal dx dy Hd) as Hn. fold dist nx ny in Hn.
  unfold radiusChangeSeparation.
  destruct (decide (Ball.r a ≠ originalARadius ∨ Ball.r b ≠ originalBRadius));
    [|done].
  fold dx dy. fold dist.
  destruct (decide (dist < Ball.r a + Ball.r b ∧ 1e-4 < dist)) as [_|Hno];
    [|destruct Hno; done].
  rewrite !fdiv_Some by done. simpl. fold nx ny sv.
  do 3 eexists. split; [reflexivity|]. simpl.
  split; [done|]. split; [done|]. split.
  - apply hypot_unique; [lra|].
    transitivity ((nx * nx + ny * ny)
                  * ((Ball.r a + Ball.r b) * (Ball.r a + Ball.r b)));
      [rewrite Hn; ring|].
    assert (Ball.x b = Ball.x a + dx) as -> by (unfold dx; ring).
    assert (Ball.y b = Ball.y a + dy) as -> by (unfold dy; ring).
    assert (dx = nx * dist) as Hdx by (unfold nx; field; done).
    assert (dy = ny * dist) as Hdy by (unfold ny; field; done).
    rewrite Hdx, Hdy. field. done.
  - transitivity
      ((Ball.vx b - Ball.vx a) * nx + (Ball.vy b - Ball.vy a) * ny
       + sv * (nx * nx + ny * ny)
         * ((Ball.r a + Ball.r b) / (Ball.r a + Ball.r b)));
      [field; done | rewrite Hn; field; done].
Qed.
End CollisionDynamics.

(** *** What the resolver leaves alone *)

Section CollisionFrame.
Context {T : Type} (proj : Ball.ball → T).
Variable physicsConfig : PhysicsConfig.config.
Variable st : State.state.
Hypothesis proj_shell : ∀ b b', shell b = shell b' → proj b = proj b'.
Hypothesis proj_callback :
  ∀ f, handler st Program.onBallCollision = Some f →
       ∀ a b, proj (f a b).1 = proj a ∧ proj (f a b).2 = proj b.










End CollisionFrame.

Section ResolverFacts.
Variable physicsConfig : PhysicsConfig.config.
Variable st : State.state.

End ResolverFacts.

Section ResolverIdle.
Variable physicsConfig : PhysicsConfig.config.
Variable st : State.state.

Lemma pairStep_idle p a b :
  (Ball.alive b = true → ¬ detected a b) →
  pairStep physicsConfig st p a b = Some ([], (p, a, b)).
Proof.
  intros Hno. unfold pairStep.
  destruct (Ball.alive b); [|done]. simpl.
  case_decide; [done|].
  case_decide as Hhit; [|done]. destruct Hno; done.
Qed.

Lemma innerLoop_idle js p balls a :
  (∀ j b, j ∈ js → balls !! j = Some b → Ball.alive b = true →
          ¬ detected a b) →
  innerLoop physicsConfig st js p balls a = Some ([], (p, balls, a)).
Proof.
  induction js as [|j js IH]; intros Hno; simpl; [done|].
  destruct (balls !! j) as [b|] eqn:Ej.
  - rewrite pairStep_idle by (apply (Hno j); [left | done]). simpl.
    rewrite list_insert_id by done.
    rewrite IH; [done|]. intros j' b' Hj'. apply Hno. by right.
  - apply IH. intros j' b' Hj'. apply Hno. by right.
Qed.

Lemma outerLoop_idle n ixs p balls :
  (∀ i j a b, i ∈ ixs → (i < j)%nat →
              balls !! i = Some a → balls !! j = Some b →
              Ball.alive a = true → Ball.alive b = true → ¬ detected a b) →
  outerLoop physicsConfig st n ixs p balls = Some ([], (p, balls)).
Proof.
  induction ixs as [|i ixs IH]; intros Hno; simpl; [done|].
  assert (outerLoop physicsConfig st n ixs p balls = Some ([], (p, balls)))
    as Hrest.
  { apply IH. intros i' j a b Hi'. apply Hno. by right. }
  destruct (balls !! i) as [a|] eqn:Ei; [|done].
  destruct (Ball.alive a) eqn:Ea; [|done]. simpl.
  rewrite innerLoop_idle.
  - simpl. rewrite list_insert_id by done. by rewrite Hrest.
  - intros j b Hj Hb Hab. apply (Hno i j); try done; [left|].
    apply elem_of_seq in Hj. lia.
Qed.

(** X19. When no two live balls of the list meet the detection test,
    [handleCollisions] changes nothing and nothing happens: no callback,
    no division. *)
Theorem handleCollisions_idle_without_overlap :
  (∀ i j a b, (i < j)%nat →
              State.balls st !! i = Some a → State.balls st !! j = Some b →
              Ball.alive a = true → Ball.alive b = true → ¬ detected a b) →
  handleCollisions physicsConfig st = Some ([], State.balls st).
Proof.
  intros Hno. unfold handleCollisions.
  rewrite outerLoop_idle; [done|].
  intros i j a b _. apply Hno.
Qed.
End ResolverIdle.

Lemma handleCollisions_idle_without_overlap_witness :
  handleCollisions physicsConfig0
    (State.mk true [ballAt 1 0 0 30 40 10; ballAt 2 100 0 (-5) 0 10] 3 0
       (1 / 120) 0 None true false true 0 None "arcade")
  = Some ([], [ballAt 1 0 0 30 40 10; ballAt 2 100 0 (-5) 0 10]).
Proof.
  apply (handleCollisions_idle_without_overlap physicsConfig0
           (State.mk true [ballAt 1 0 0 30 40 10; ballAt 2 100 0 (-5) 0 10] 3
              0 (1 / 120) 0 None true false true 0 None "arcade")).
  intros i j a b Hij Ha Hb _ _ [Hlt _]. simpl in Ha, Hb.
  destruct i as [|[|i]]; destruct j as [|[|j]]; try lia; simpl in Ha, Hb;
    try done.
  injection Ha as <-. injection Hb as <-. simpl in Hlt.
  assert (Num.hypot (100 - 0) (0 - 0) = 100) as Hd
    by (apply hypot_unique; lra).
  rewrite Hd in Hlt. lra.
Defined.

Lemma momentum_transfer_exchanges_normal_velocity_witness :
  ∃ l a' b',
    physicalResponse physicsConfig0 (stateWith "arcade" None) (12 - 0) (0 - 0)
      (Num.hypot (12 - 0) (0 - 0)) (10 + 10)
      (ballAt 1 0 0 30 40 10) (ballAt 2 12 0 (-5) 0 10) = Some (l, (a', b'))
    ∧ Ball.vx a' + Ball.vx b' = 1 * (30 + -5)
    ∧ Ball.vy a' + Ball.vy b' = 1 * (40 + 0).
Proof.
  assert (Num.hypot (12 - 0) (0 - 0) = 12) as Hd
    by (apply hypot_unique; lra).
  destruct (momentum_transfer_exchanges_normal_velocity physicsConfig0
              (stateWith "arcade" None)
              (ballAt 1 0 0 30 40 10) (ballAt 2 12 0 (-5) 0 10))
    as (l & a' & b' & Hres & _ & _ & _ & _ & Hx & Hy & _).
  - done.
  - simpl. rewrite Hd. lra.
  - simpl. rewrite Hd. lra.
  - exists l, a', b'. split; [exact Hres | split; [exact Hx | exact Hy]].
Defined.

Lemma radius_change_separation_witness :
  ∃ l a' b',
    radiusChangeSeparation (stateWith "arcade" None) 10 10
      (ballAt 1 0 0 30 40 20) (ballAt 2 12 0 (-5) 0 10) = Some (l, (a', b'))
    ∧ Num.hypot (Ball.x b' - Ball.x a') (Ball.y b' - Ball.y a') = 20 + 10.
Proof.
  assert (Num.hypot (12 - 0) (0 - 0) = 12) as Hd
    by (apply hypot_unique; lra).
  destruct (radius_change_separation (stateWith "arcade" None) 10 10
              (ballAt 1 0 0 30 40 20) (ballAt 2 12 0 (-5) 0 10))
    as (l & a' & b' & Hres & _ & _ & Hdist & _).
  - left. simpl. lra.
  - simpl. rewrite Hd. lra.
  - simpl. rewrite Hd. lra.
  - exists l, a', b'. split; [exact Hres | exact Hdist].
Defined.

(** ** The physics tick *)

Lemma filter_alive_all (balls : list Ball.ball) :
  existsb (fun b => negb (Ball.alive b)) balls = false →
  filter (fun b => Ball.alive b = true) balls = balls.
Proof.
  induction balls as [|b balls IH]; simpl; [done|].
  intros [Hb Hrest]%orb_false_iff. apply negb_false_iff in Hb.
  rewrite filter_cons_True by done. by rewrite IH.
Qed.

Section TickFrame.
Context {T : Type} (proj : Ball.ball → T).
Variable arena : Arena.arena.
Variable physicsConfig : PhysicsConfig.config.
Variable st : State.state.
Hypothesis proj_shell : ∀ b b', shell b = shell b' → proj b = proj b'.
Hypothesis proj_onWallHit :
  ∀ f, handler st Program.onWallHit = Some f → ∀ b, proj (f b) = proj b.
Hypothesis proj_onExit :
  ∀ f, handler st Program.onExit = Some f → ∀ b, proj (f b) = proj b.





End TickFrame.




Section TickFacts.
Variable arena : Arena.arena.
Variable physicsConfig : PhysicsConfig.config.
Variable onTickEffect : R → State.state → State.state.



End TickFacts.


(** ** Ball management *)

Lemma atan2_cos_sin y x :
  cos (Num.atan2 y x) * Num.hypot x y = x
  ∧ sin (Num.atan2 y x) * Num.hypot x y = y.
Proof.
  assert (∀ a, a ≠ 0 → Num.hypot a y = Rabs a * sqrt (1 + (y / a)²)) as Hh.
  { intros a Ha. apply hypot_unique.
    - apply Rmult_le_pos; [apply Rabs_pos | apply sqrt_pos].
    - assert (0 <= 1 + (y / a)²) as Hpos by (unfold Rsqr; nra).
      transitivity (Rabs a * Rabs a * (sqrt (1 + (y / a)²) * sqrt (1 + (y / a)²)));
        [ring|].
      rewrite sqrt_def by done.
      replace (Rabs a * Rabs a) with (a * a) by (rabs; ring).
      unfold Rsqr. field. done. }
  assert (∀ a, 0 < sqrt (1 + (y / a)²)) as Hs.
  { intros a. apply sqrt_lt_R0. unfold Rsqr. nra. }
  unfold Num.atan2.
  destruct (Rlt_dec 0 x) as [Hx|Hx].
  { rewrite Hh, cos_atan, sin_atan, Rabs_pos_eq by lra.
    pose proof (Hs x). split; field; lra. }
  destruct (Rlt_dec x 0) as [Hx'|Hx'].
  { rewrite Hh by lra. rewrite Rabs_left by lra. pose proof (Hs x).
    destruct (Rle_dec 0 y).
    - rewrite cos_plus, sin_plus, cos_PI, sin_PI, cos_atan, sin_atan.
      split; field; lra.
    - rewrite cos_minus, sin_minus, cos_PI, sin_PI, cos_atan, sin_atan.
      split; field; lra. }
  assert (x = 0) as -> by lra.
  destruct (Rlt_dec 0 y) as [Hy|Hy].
  { rewrite cos_PI2, sin_PI2.
    assert (Num.hypot 0 y = y) as -> by (apply hypot_unique; lra). lra. }
  destruct (Rlt_dec y 0) as [Hy'|Hy'].
  { rewrite cos_neg, sin_neg, cos_PI2, sin_PI2.
    assert (Num.hypot 0 y = - y) as -> by (apply hypot_unique; lra). lra. }
  assert (y = 0) as -> by lra.
  rewrite hypot_0_0. lra.
Qed.


Section SpawnFacts.
Variable arena : Arena.arena.


(** X22. Called without properties and with no onSpawn rule, for draws
    in [0, 1], [spawnBall] makes a live ball of radius 15 with an empty
    data bag and the random colour, at distance
    [sqrt(draw) * 0.85 * arena.r] from the arena centre (so at most
    [0.85 * arena.r]) and with speed [250 + draw * 250], between 250 and
    500.  In an arena of radius 100 or more the new ball is clear of the
    wall: [reflectWall] of every engine returns false on it. *)
Theorem spawnBall_default_placement (physicsConfig : PhysicsConfig.config)
    (d : Draws.draws) (st : State.state) :
  let st' := (spawnBall arena d Props.empty st).1 in
  let b := (spawnBall arena d Props.empty st).2 in
  handler st Program.onSpawn = None →
  0 <= Draws.rad d <= 1 → 0 <= Draws.speed d <= 1 → 0 <= Arena.r arena →
  shell b = (State.nextId st, 15, Draws.color d, true, ∅)
  ∧ Num.hypot (Ball.x b - Arena.cx arena) (Ball.y b - Arena.cy arena)
    = sqrt (Draws.rad d) * (Arena.r arena * 0.85)
  ∧ Num.hypot (Ball.x b - Arena.cx arena) (Ball.y b - Arena.cy arena)
    <= Arena.r arena * 0.85
  ∧ Ball.speed b = 250 + Draws.speed d * 250
  ∧ 250 <= Ball.speed b <= 500
  ∧ (100 <= Arena.r arena →
     ∀ e, e ∈ engines arena physicsConfig st' →
          Engine.reflectWall e b = Some ([], (b, false))).
Proof.
  intros st' b Hnone [Hr0 Hr1] [Hs0 Hs1] HR.
  assert (b = Ball.mk (State.nextId st)
                (Arena.cx arena
                 + cos (Draws.angle d * PI * 2)
                   * (sqrt (Draws.rad d) * (Arena.r arena * 0.85)))
                (Arena.cy arena
                 + sin (Draws.angle d * PI * 2)
                   * (sqrt (Draws.rad d) * (Arena.r arena * 0.85)))
                (cos (Draws.dir d * PI * 2) * (250 + Draws.speed d * 250))
                (sin (Draws.dir d * PI * 2) * (250 + Draws.speed d * 250))
                15 (Draws.color d) true ∅) as Hb.
  { subst b. unfold spawnBall. cbn [snd].
    change (handler (setBalls _ (setNextId _ st)) Program.onSpawn)
      with (handler st Program.onSpawn).
    by rewrite Hnone. }
  assert (0 <= sqrt (Draws.rad d) <= 1) as [Hq0 Hq1].
  { split; [apply sqrt_pos|]. rewrite <- sqrt_1. by apply sqrt_le_1_alt. }
  assert (Num.hypot (Ball.x b - Arena.cx arena) (Ball.y b - Arena.cy arena)
          = sqrt (Draws.rad d) * (Arena.r arena * 0.85)) as Hdist.
  { rewrite Hb. simpl.
    match goal with
    | |- Num.hypot (?c + ?u - ?c) (?c' + ?v - ?c') = _ =>
        replace (c + u - c) with u by ring;
        replace (c' + v - c') with v by ring
    end.
    apply hypot_polar. nra. }
  assert (Ball.speed b = 250 + Draws.speed d * 250) as Hspeed.
  { rewrite Hb. unfold Ball.speed. simpl. apply hypot_polar. lra. }
  split; [by rewrite Hb|]. split; [done|].
  split; [rewrite Hdist; nra|]. split; [done|].
  split; [rewrite Hspeed; lra|].
  intros Hbig e He.
  destruct (reflectWall_cases arena physicsConfig st' e b He)
    as [[_ Hcall] | [(Hout & _) | (Hout & _)]]; [done | |];
    rewrite Hdist in Hout; rewrite Hb in Hout; simpl in Hout; nra.
Qed.
End SpawnFacts.

Lemma insert_last {A} (l : list A) (a b : A) :
  <[pred (length (l ++ [a])) := b]> (l ++ [a]) = l ++ [b].
Proof.
  rewrite length_app. simpl. rewrite Nat.add_1_r. simpl.
  induction l as [|x l IH]; simpl; [done|]. by rewrite IH.
Qed.

Section DuplicateFacts.
Variable arena : Arena.arena.

(** The ball [duplicateBall] returns, in terms of the ball [spawnBall]
    made for it. *)
Lemma duplicateBall_spec speedU offsetU redirectU d ball st :
  ∃ finalAngle nb0,
    (finalAngle
     = Num.atan2 (Arena.cy arena - Ball.y ball) (Arena.cx arena - Ball.x ball)
       + (offsetU - 0.5) * 0.4
     ∨ finalAngle
       = Num.atan2 (Arena.cy arena - Ball.y ball) (Arena.cx arena - Ball.x ball)
         + (redirectU - 0.5) * 0.2)
    ∧ nb0
      = (spawnBall arena d
           (Props.mk
              (Some (Ball.x ball
                     + cos (Num.atan2 (Arena.cy arena - Ball.y ball)
                              (Arena.cx arena - Ball.x ball))
                       * (Ball.r ball * 2.0)))
              (Some (Ball.y ball
                     + sin (Num.atan2 (Arena.cy arena - Ball.y ball)
                              (Arena.cx arena - Ball.x ball))
                       * (Ball.r ball * 2.0)))
              None None (Some (Ball.r ball)) None) st).2
    ∧ duplicateBall arena speedU offsetU redirectU d ball st
      = (let nb :=
           Ball.set_color (Ball.color ball)
             (Ball.set_vy
                (sin finalAngle
                 * (Num.hypot (Ball.vx ball) (Ball.vy ball)
                    * (0.9 + speedU * 0.3)))
                (Ball.set_vx
                   (cos finalAngle
                    * (Num.hypot (Ball.vx ball) (Ball.vy ball)
                       * (0.9 + speedU * 0.3))) nb0)) in
         (setBalls (State.balls st ++ [nb])
            (setNextId (State.nextId st + 1)%Z st), nb)).
Proof.
  unfold duplicateBall.
  match goal with
  | |- context [if ?c then ?a else ?b] =>
      exists (if c then a else b)
  end.
  eexists. split; [destruct (Rlt_dec _ _); auto|]. split; [reflexivity|].
  unfold spawnBall. cbn [fst snd State.balls setBalls setNextId].
  rewrite insert_last. done.
Qed.


(** X24. With no onSpawn rule the clone [duplicateBall] makes is alive,
    has the radius of the original and sits two radii from it on the
    line to the arena centre, that is at distance [|dist - 2 r|] from the
    centre ([dist] the original's distance).  A clone of a ball that lies
    in the arena and whose radius is at most a third of the arena's lies
    in the arena. *)
Theorem duplicateBall_position (speedU offsetU redirectU : R)
    (d : Draws.draws) (ball : Ball.ball) (st : State.state) :
  let nb := (duplicateBall arena speedU offsetU redirectU d ball st).2 in
  let dist :=
    Num.hypot (Ball.x ball - Arena.cx arena) (Ball.y ball - Arena.cy arena) in
  handler st Program.onSpawn = None →
  Ball.r nb = Ball.r ball
  ∧ Ball.alive nb = true
  ∧ Num.hypot (Ball.x nb - Ball.x ball) (Ball.y nb - Ball.y ball)
    = 2 * Rabs (Ball.r ball)
  ∧ Num.hypot (Ball.x nb - Arena.cx arena) (Ball.y nb - Arena.cy arena)
    = Rabs (dist - 2 * Ball.r ball)
  ∧ (0 <= Ball.r ball → 3 * Ball.r ball <= Arena.r arena →
     dist + Ball.r ball <= Arena.r arena →
     Num.hypot (Ball.x nb - Arena.cx arena) (Ball.y nb - Arena.cy arena)
     + Ball.r nb <= Arena.r arena).
Proof.
  intros nb dist Hnone.
  destruct (duplicateBall_spec speedU offsetU redirectU d ball st)
    as (finalAngle & nb0 & _ & Hnb0 & Hdup).
  subst nb. rewrite Hdup. cbn [fst snd].
  unfold spawnBall in Hnb0. cbn [snd] in Hnb0.
  change (handler (setBalls _ (setNextId _ st)) Program.onSpawn)
    with (handler st Program.onSpawn) in Hnb0.
  rewrite Hnone in Hnb0. rewrite Hnb0. simpl.
  set (ca := Num.atan2 (Arena.cy arena - Ball.y ball)
               (Arena.cx arena - Ball.x ball)).
  destruct (atan2_cos_sin (Arena.cy arena - Ball.y ball)
              (Arena.cx arena - Ball.x ball)) as [Hc Hs].
  fold ca in Hc, Hs.
  assert (Num.hypot (Arena.cx arena - Ball.x ball) (Arena.cy arena - Ball.y ball)
          = dist) as Hd.
  { apply hypot_unique; [apply hypot_nonneg|]. unfold dist.
    rewrite hypot_sqr. ring. }
  rewrite Hd in Hc, Hs.
  pose proof (sin2_cos2 ca) as Hunit. unfold Rsqr in Hunit.
  pose proof (hypot_nonneg (Ball.x ball - Arena.cx arena)
                (Ball.y ball - Arena.cy arena)) as Hdpos. fold dist in Hdpos.
  assert (Num.hypot (Ball.x ball + cos ca * (Ball.r ball * 2.0) - Arena.cx arena)
            (Ball.y ball + sin ca * (Ball.r ball * 2.0) - Arena.cy arena)
          = Rabs (dist - 2 * Ball.r ball)) as Hcentre.
  { apply hypot_unique; [apply Rabs_pos|].
    replace (Rabs (dist - 2 * Ball.r ball) * Rabs (dist - 2 * Ball.r ball))
      with ((dist - 2 * Ball.r ball) * (dist - 2 * Ball.r ball))
      by (rabs; ring).
    replace (Ball.x ball + cos ca * (Ball.r ball * 2.0) - Arena.cx arena)
      with (cos ca * (2 * Ball.r ball - dist)) by nra.
    replace (Ball.y ball + sin ca * (Ball.r ball * 2.0) - Arena.cy arena)
      with (sin ca * (2 * Ball.r ball - dist)) by nra.
    transitivity ((sin ca * sin ca + cos ca * cos ca)
                  * ((dist - 2 * Ball.r ball) * (dist - 2 * Ball.r ball)));
      [rewrite Hunit; ring | ring]. }
  split; [done|]. split; [done|]. split.
  { apply hypot_unique; [pose proof (Rabs_pos (Ball.r ball)); lra|].
    replace (2 * Rabs (Ball.r ball) * (2 * Rabs (Ball.r ball)))
      with (4 * (Ball.r ball * Ball.r ball)) by (rabs; ring).
    transitivity ((sin ca * sin ca + cos ca * cos ca)
                  * (4 * (Ball.r ball * Ball.r ball)));
      [rewrite Hunit; ring |].
    replace (Ball.r ball * 2.0) with (2 * Ball.r ball) by lra. ring. }
  split; [done|].
  intros Hr0 Hr3 Hin. rewrite Hcentre. rabs; lra.
Qed.
End DuplicateFacts.



Lemma spawnBall_default_placement_witness :
  250 <= Ball.speed (spawnBall arena0
                       (Draws.mk 0.25 0.25 0.5 0 "hsl(90 70% 55%)")
                       Props.empty State.initial).2 <= 500.
Proof.
  refine (proj1 (proj2 (proj2 (proj2 (proj2
            (spawnBall_default_placement arena0 physicsConfig0
               (Draws.mk 0.25 0.25 0.5 0 "hsl(90 70% 55%)") State.initial
               _ _ _ _)))))).
  - reflexivity.
  - simpl. lra.
  - simpl. lra.
  - rewrite arena0_r. lra.
Defined.


Lemma duplicateBall_position_witness :
  Ball.r (duplicateBall arena0 0.5 0.5 0.5
            (Draws.mk 0.25 0.25 0.5 0 "hsl(90 70% 55%)") wallBall
            State.initial).2
  = Ball.r wallBall.
Proof.
  refine (proj1 (duplicateBall_position arena0 0.5 0.5 0.5
                   (Draws.mk 0.25 0.25 0.5 0 "hsl(90 70% 55%)") wallBall
                   State.initial _)).
  reflexivity.
Defined.


(** ** The frame loop and reset *)

Section FrameFacts.
Variable tick : nat → R → State.state → State.state.
Variable clock : nat → R.
Hypothesis tick_dt : ∀ i d st, State.dt (tick i d st) = State.dt st.
Hypothesis tick_accumulator :
  ∀ i d st, State.accumulator (tick i d st) = State.accumulator st.
Hypothesis tick_lastMs :
  ∀ i d st, State.lastMs (tick i d st) = State.lastMs st.

Lemma frameLoop_spec fuel i w :
  0 < State.dt (Stepper.state w) →
  State.accumulator (Stepper.state w) < INR fuel * State.dt (Stepper.state w) →
  ∃ (n : nat) w',
    frameLoop tick clock fuel i w = Some w'
    ∧ (n <= fuel)%nat
    ∧ Stepper.currentFrame w' = (Stepper.currentFrame w + Z.of_nat n)%Z
    ∧ Stepper.simulationMode w' = Stepper.simulationMode w
    ∧ State.dt (Stepper.state w') = State.dt (Stepper.state w)
    ∧ State.lastMs (Stepper.state w') = State.lastMs (Stepper.state w)
    ∧ State.accumulator (Stepper.state w')
      = State.accumulator (Stepper.state w)
        - INR n * State.dt (Stepper.state w)
    ∧ State.accumulator (Stepper.state w') < State.dt (Stepper.state w)
    ∧ (0 <= State.accumulator (Stepper.state w) →
       0 <= State.accumulator (Stepper.state w')).
Proof.
  revert i w. induction fuel as [|fuel IH]; intros i w Hdt Hacc.
  - simpl in *. destruct (Rle_dec _ _); [lra|].
    exists 0%nat, w. simpl. repeat split; try done; try lia; lra.
  - simpl. destruct (Rle_dec _ _) as [Hgo|Hstop].
    + set (w1 := Stepper.mk _ _ _ _).
      assert (State.dt (Stepper.state w1) = State.dt (Stepper.state w)) as Hd1.
      { subst w1. simpl. apply tick_dt. }
      assert (State.accumulator (Stepper.state w1)
              = State.accumulator (Stepper.state w) - State.dt (Stepper.state w))
        as Ha1.
      { subst w1. simpl. by rewrite tick_accumulator, tick_dt. }
      destruct (IH (S i) w1)
        as (n & w' & Hres & Hn & Hcf & Hmode & Hd & Hl & Ha & Hlt & Hge).
      { by rewrite Hd1. }
      { rewrite Hd1, Ha1. rewrite S_INR in Hacc. lra. }
      exists (S n), w'. split; [done|]. split; [lia|].
      split; [rewrite Hcf; subst w1; simpl; lia|].
      split; [by rewrite Hmode|].
      split; [by rewrite Hd, Hd1|].
      split; [rewrite Hl; subst w1; simpl; apply tick_lastMs|].
      split; [rewrite Ha, Ha1, Hd1, S_INR; ring|].
      split; [by rewrite <- Hd1|].
      intros _. apply Hge. rewrite Ha1. lra.
    + exists 0%nat, w. simpl. repeat split; try done; try lia; lra.
Qed.
End FrameFacts.

Section FrameTheorem.
Variable tick : nat → R → State.state → State.state.
Variable clock : nat → R.

(** X26. One call of [frame] in continuous mode while running, with a
    positive step [dt], an accumulator in [0, dt) and a time stamp not
    before the last one, for a tick that leaves [dt], the accumulator and
    [lastMs] alone: the loop ends (given fuel for more than
    [(accumulator + 0.25) / dt] rounds); the frame counter advances by
    the number [n] of ticks run, and [n * dt <= accumulator + 0.25]
    whatever the time elapsed; the accumulator is again in [0, dt), and
    [lastMs] is the time stamp of the call. *)
Theorem frame_runs_bounded_ticks (fuel : nat) (ms : R)
    (w : Stepper.stepper) :
  let st := Stepper.state w in
  (∀ i d s, State.dt (tick i d s) = State.dt s) →
  (∀ i d s, State.accumulator (tick i d s) = State.accumulator s) →
  (∀ i d s, State.lastMs (tick i d s) = State.lastMs s) →
  Stepper.simulationMode w = "continuous" →
  State.running st = true →
  0 < State.dt st →
  0 <= State.accumulator st < State.dt st →
  (∀ m, State.lastMs st = Some m → m <= ms) →
  State.accumulator st + 0.25 < INR fuel * State.dt st →
  ∃ (n : nat) w',
    frame tick clock fuel ms w = Some w'
    ∧ Stepper.currentFrame w' = (Stepper.currentFrame w + Z.of_nat n)%Z
    ∧ INR n * State.dt st <= State.accumulator st + 0.25
    ∧ 0 <= State.accumulator (Stepper.state w') < State.dt st
    ∧ State.dt (Stepper.state w') = State.dt st
    ∧ State.lastMs (Stepper.state w') = Some ms.
Proof.
  intros st Hdt Hacc Hlast Hmode Hrun Hpos [Ha0 Ha1] Hms Hfuel.
  unfold frame. rewrite Hmode.
  destruct (decide ("continuous" ≠ "continuous")) as [Hne|_]; [done|].
  fold st.
  set (st1 := match State.lastMs st with
              | None => setLastMs (Some ms) st
              | Some _ => st
              end).
  set (elapsed := (ms - default 0 (State.lastMs st1)) / 1000).
  assert (0 <= elapsed) as Hel.
  { subst elapsed st1. destruct (State.lastMs st) as [m|] eqn:Em; simpl.
    - rewrite Em. simpl. specialize (Hms m eq_refl). lra.
    - lra. }
  assert (State.running (setLastMs (Some ms) st1) = true) as ->.
  { subst st1. destruct (State.lastMs st); done. }
  set (w1 := Stepper.mk _ _ _ _).
  assert (State.dt (Stepper.state w1) = State.dt st) as Hd1.
  { subst w1 st1. simpl. destruct (State.lastMs st); done. }
  assert (State.accumulator (Stepper.state w1)
          = State.accumulator st + Rmin elapsed 0.25) as Hacc1.
  { subst w1 st1. simpl. destruct (State.lastMs st); done. }
  assert (0 <= Rmin elapsed 0.25 <= 0.25) as [Hm0 Hm1].
  { split; [apply Rmin_glb; lra | apply Rmin_r]. }
  destruct (frameLoop_spec tick clock Hdt Hacc Hlast fuel 0%nat w1)
    as (n & w' & Hres & _ & Hcf & _ & Hd & Hl & Ha & Hlt & Hge).
  { by rewrite Hd1. }
  { rewrite Hd1, Hacc1. lra. }
  exists n, w'. split; [done|]. split; [done|].
  rewrite Hd1, Hacc1 in Ha. rewrite Hd1 in Hlt. rewrite Hacc1 in Hge.
  specialize (Hge ltac:(lra)).
  split; [lra|]. split; [lra|]. split; [by rewrite Hd, Hd1|].
  rewrite Hl. done.
Qed.
End FrameTheorem.

(** X27. After [reset] the balls are gone and the history is empty: no
    frame can be restored, no closest frame is found, and [stepBackward]
    leaves everything as it is, whatever the frame counter says.  After
    [resetFrameCounter] the counter is 0 and [stepBackward] returns at
    once. *)
Theorem reset_clears_the_way_back (st : State.state) (h : History.history)
    (mode : string) (currentFrame : Z) (steps : nat) :
  let st' := (reset st h).1 in
  let h' := (reset st h).2 in
  idsFresh st'
  ∧ (∀ targetFrame, restoreSimulationState h' st' targetFrame = (None, st'))
  ∧ (∀ targetFrame, getClosestAvailableFrame [] h' targetFrame = None)
  ∧ stepBackward [] steps (Stepper.mk st' h' mode currentFrame)
    = Stepper.mk st' h' mode currentFrame
  ∧ (∀ order w,
       stepBackward order steps (resetFrameCounter w) = resetFrameCounter w).
Proof.
  intros st' h'.
  assert (∀ targetFrame,
            restoreSimulationState h' st' targetFrame = (None, st')) as Hmiss.
  { intros f. unfold restoreSimulationState. case_decide; [done|].
    subst h'. simpl. by rewrite lookup_empty. }
  assert (∀ targetFrame, getClosestAvailableFrame [] h' targetFrame = None)
    as Hclosest.
  { intros f. unfold getClosestAvailableFrame. subst h'.
    cbn [reset snd clearSimulationHistory History.simulationHistory].
    rewrite lookup_empty. case_decide as Hs; [by destruct Hs|].
    cbn [fold_left fst]. case_decide; [lia | done]. }
  split.
  { split; simpl; [apply NoDup_nil_2 | apply Forall_nil_2]. }
  split; [done|]. split; [done|]. split.
  - unfold stepBackward. case_decide; [done|].
    destruct steps as [|steps]; [done|]. simpl.
    unfold stepBackwardRound.
    cbn [Stepper.currentFrame Stepper.history Stepper.state].
    case_decide; [done|]. by rewrite Hmiss, Hclosest.
  - intros order w. unfold stepBackward, resetFrameCounter.
    cbn [Stepper.currentFrame]. case_decide; [done | lia].
Qed.

Lemma frame_runs_bounded_ticks_witness :
  ∃ (n : nat) w',
    frame (fun _ _ st => st) (fun _ => 0) 31 (50 / 3)
      (Stepper.mk
         (State.mk true [] 1 0 (1 / 120) 0 (Some 0) true false false 0 None
            "arcadeSimple")
         History.initial "continuous" 0%Z)
    = Some w'
    ∧ Stepper.currentFrame w' = (0 + Z.of_nat n)%Z
    ∧ INR n * (1 / 120) <= 0 + 0.25.
Proof.
  destruct (frame_runs_bounded_ticks (fun _ _ st => st) (fun _ => 0) 31
              (50 / 3)
              (Stepper.mk
                 (State.mk true [] 1 0 (1 / 120) 0 (Some 0) true false false 0
                    None "arcadeSimple")
                 History.initial "continuous" 0%Z))
    as (n & w' & Hres & Hcf & Hn & _).
  - reflexivity.
  - reflexivity.
  - reflexivity.
  - reflexivity.
  - reflexivity.
  - simpl. lra.
  - simpl. lra.
  - simpl. intros m [= <-]. lra.
  - rewrite INR_IZR_INZ. change (Z.of_nat 31) with 31%Z. simpl. lra.
  - exists n, w'. split; [exact Hres | split; [exact Hcf | exact Hn]].
Defined.

(** ** Free flight *)

Section FreeFlight.
Variable arena : Arena.arena.
Variable physicsConfig : PhysicsConfig.config.
Variable onTickEffect : R → State.state → State.state.

Lemma reflectWall_inside st e ball :
  e ∈ engines arena physicsConfig st →
  Num.hypot (Ball.x ball - Arena.cx arena) (Ball.y ball - Arena.cy arena)
  + Ball.r ball <= Arena.r arena →
  Engine.reflectWall e ball = Some ([], (ball, false)).
Proof.
  intros He Hin.
  destruct (reflectWall_cases arena physicsConfig st e ball He)
    as [[_ Hcall] | [(Hout & _) | (Hout & _)]]; [done | lra | lra].
Qed.

Lemma ballLoop_inside st e dt balls :
  e ∈ engines arena physicsConfig st →
  (∀ b, b ∈ balls → Ball.alive b = true →
        let b' := Engine.updateBall e b dt in
        Num.hypot (Ball.x b' - Arena.cx arena) (Ball.y b' - Arena.cy arena)
        + Ball.r b' <= Arena.r arena) →
  ballLoop e dt balls
  = Some ([], (fun b => if Ball.alive b then Engine.updateBall e b dt else b)
                <$> balls).
Proof.
  intros He. induction balls as [|b rest IH]; intros Hin; [done|].
  simpl. rewrite IH by (intros b' Hb'; apply Hin; by right).
  destruct (Ball.alive b) eqn:Ea; simpl; [|done].
  rewrite (reflectWall_inside st e _ He) by (apply Hin; [left | done]).
  done.
Qed.

Lemma filter_alive_fmap (f : Ball.ball → Ball.ball) (balls : list Ball.ball) :
  (∀ b, Ball.alive (f b) = Ball.alive b) →
  filter (fun b => Ball.alive b = true)
    ((fun b => if Ball.alive b then f b else b) <$> balls)
  = f <$> filter (fun b => Ball.alive b = true) balls.
Proof.
  intros Hf. induction balls as [|b rest IH]; [done|].
  rewrite fmap_cons, !filter_cons.
  destruct (Ball.alive b) eqn:Ea.
  - rewrite Hf, Ea. destruct (decide (true = true)); [|done].
    rewrite fmap_cons. by rewrite IH.
  - rewrite Ea. destruct (decide (false = true)); [done|]. exact IH.
Qed.

(** X28. Free flight.  With an arcade engine selected, collisions
    switched off and no onTick rule, a tick after which every live ball
    is still clear of the wall does nothing but advance the clock by [dt],
    move each live ball by its velocity times [dt] and drop the balls
    that were not alive: no callback runs, no sound is played, no
    division is made. *)
Theorem tick_free_flight (dt : R) (st : State.state) :
  handler st Program.onTick = None →
  State.physicsEngine st ≠ "realistic" →
  State.doCollide st = false →
  (∀ b, b ∈ State.balls st → Ball.alive b = true →
        Num.hypot (Ball.x b + Ball.vx b * dt - Arena.cx arena)
                  (Ball.y b + Ball.vy b * dt - Arena.cy arena)
        + Ball.r b <= Arena.r arena) →
  tick arena physicsConfig onTickEffect dt st
  = Some ([],
          setBalls
            ((fun b => Ball.set_y (Ball.y b + Ball.vy b * dt)
                         (Ball.set_x (Ball.x b + Ball.vx b * dt) b))
               <$> filter (fun b => Ball.alive b = true) (State.balls st))
            (setT (State.t st + dt) st)).
Proof.
  intros Htick Hengine Hcollide Hin. unfold tick.
  set (st1 := setT (State.t st + dt) st).
  change (handler st1 Program.onTick) with (handler st Program.onTick).
  rewrite Htick.
  assert (Engine.updateBall (getCurrentEngine arena physicsConfig st1)
          = kinematicUpdate) as Hupd.
  { unfold getCurrentEngine.
    change (State.physicsEngine st1) with (State.physicsEngine st).
    repeat case_decide; done. }
  rewrite (ballLoop_inside st1) ;
    [|apply getCurrentEngine_in_engines
     |intros b Hb Ha; rewrite Hupd; exact (Hin b Hb Ha)].
  rewrite Hupd. simpl. rewrite Hcollide. simpl.
  set (moved := (fun b => if Ball.alive b then kinematicUpdate b dt else b)
                  <$> State.balls st).
  assert (filter (fun b => Ball.alive b = true) moved
          = (fun b => kinematicUpdate b dt)
              <$> filter (fun b => Ball.alive b = true) (State.balls st))
    as Hfilter.
  { subst moved. rewrite <- filter_alive_fmap; [done|].
    by intros []. }
  destruct (existsb _ moved) eqn:Edead.
  - rewrite Hfilter. reflexivity.
  - rewrite <- (filter_alive_all moved Edead), Hfilter. reflexivity.
Qed.
End FreeFlight.

Lemma tick_free_flight_witness :
  ∃ st',
    tick arena0 physicsConfig0 (fun _ s => s) (1 / 120)
      (State.mk true [ballAt 1 540 960 120 0 15] 2 0 (1 / 120) 0 None
         true false false 0 None "arcade")
    = Some ([], st').
Proof.
  eexists.
  apply (tick_free_flight arena0 physicsConfig0 (fun _ s => s) (1 / 120)
           (State.mk true [ballAt 1 540 960 120 0 15] 2 0 (1 / 120) 0 None
              true false false 0 None "arcade")).
  - reflexivity.
  - done.
  - reflexivity.
  - intros b Hb _. simpl in Hb. rewrite elem_of_cons, elem_of_nil in Hb.
    destruct Hb as [-> | []]. rewrite arena0_r. simpl.
    assert (Num.hypot (540 + 120 * (1 / 120) - 540)
              (960 + 0 * (1 / 120) - 960) = 1) as ->
      by (apply hypot_unique; lra).
    lra.
Defined.

(** ** Stepping forward *)

Section ForwardFacts.
Variable tick : nat → R → State.state → State.state.
Variable clock : nat → R.

Lemma stepForwardLoop_spec steps i w :
  let w' := stepForwardLoop tick clock steps i w in
  Stepper.currentFrame w' = (Stepper.currentFrame w + Z.of_nat steps)%Z
  ∧ Stepper.simulationMode w' = Stepper.simulationMode w
  ∧ (reachable (Stepper.history w) → reachable (Stepper.history w'))
  ∧ History.maxSavedFrame (Stepper.history w')
    = (if decide (steps = 0%nat) then History.maxSavedFrame (Stepper.history w)
       else Z.max (History.maxSavedFrame (Stepper.history w))
              (Stepper.currentFrame w + Z.of_nat steps - 1))%Z.
Proof.
  revert i w. induction steps as [|steps IH]; intros i w;
    cbn [stepForwardLoop].
  { simpl. repeat split; try done. lia. }
  destruct (IH (S i)
              (Stepper.mk (tick i (State.dt (Stepper.state w)) (Stepper.state w))
                 (saveSimulationState (clock i) (Stepper.state w)
                    (Stepper.history w) (Some (Stepper.currentFrame w)))
                 (Stepper.simulationMode w) (Stepper.currentFrame w + 1)))
    as (Hcf & Hmode & Hreach & Hmax).
  cbn [Stepper.currentFrame Stepper.simulationMode Stepper.history] in *.
  split; [rewrite Hcf; lia|]. split; [done|]. split.
  { intros Hr. apply Hreach. by constructor. }
  rewrite Hmax. cbn [saveSimulationState History.maxSavedFrame].
  destruct (decide (steps = 0%nat)) as [->|Hs]; case_decide; try done; lia.
Qed.

(** X29. [stepForward(steps)] does nothing when the simulation is
    paused outside step mode.  Otherwise it advances the frame counter by
    [steps]; it saves one snapshot per step, so that the highest saved
    frame number becomes the larger of the old one and the number of the
    last frame stepped from; the history stays one that saves and clears
    produce from the empty one. *)
Theorem stepForward_advances_counter (steps : nat) (w : Stepper.stepper) :
  let w' := stepForward tick clock steps w in
  (State.running (Stepper.state w) = false →
   Stepper.simulationMode w ≠ "step" → w' = w)
  ∧ (State.running (Stepper.state w) = true ∨ Stepper.simulationMode w = "step" →
     Stepper.currentFrame w' = (Stepper.currentFrame w + Z.of_nat steps)%Z
     ∧ (reachable (Stepper.history w) → reachable (Stepper.history w'))
     ∧ (steps ≠ 0%nat →
        History.maxSavedFrame (Stepper.history w')
        = Z.max (History.maxSavedFrame (Stepper.history w))
            (Stepper.currentFrame w + Z.of_nat steps - 1))%Z).
Proof.
  intros w'. subst w'. unfold stepForward. split.
  - intros Hrun Hmode. rewrite Hrun. simpl.
    rewrite bool_decide_eq_false_2 by done. rewrite Hrun. done.
  - intros Hgo.
    set (w1 := if negb (State.running (Stepper.state w))
                  && bool_decide (Stepper.simulationMode w = "step")
               then _ else w).
    assert (State.running (Stepper.state w1) = true
            ∧ Stepper.currentFrame w1 = Stepper.currentFrame w
            ∧ Stepper.history w1 = Stepper.history w) as (Hrun & Hcf & Hh).
    { subst w1. destruct (State.running (Stepper.state w)) eqn:Er; simpl.
      - by rewrite Er.
      - destruct Hgo as [|Hmode]; [done|].
        by rewrite bool_decide_eq_true_2. }
    rewrite Hrun. simpl.
    destruct (stepForwardLoop_spec steps 0%nat w1)
      as (Hcf' & _ & Hreach & Hmax).
    rewrite Hcf, Hh in *. split; [done|]. split; [done|].
    intros Hs. rewrite Hmax. by destruct (decide (steps = 0%nat)).
Qed.
End ForwardFacts.

Lemma stepForward_advances_counter_witness :
  Stepper.currentFrame
    (stepForward (fun _ _ st => st) (fun _ => 0) 3
       (Stepper.mk State.initial History.initial "step" 7%Z))
  = (7 + Z.of_nat 3)%Z.
Proof.
  refine (proj1 (proj2 (stepForward_advances_counter (fun _ _ st => st)
                          (fun _ => 0) 3
                          (Stepper.mk State.initial History.initial "step" 7%Z))
                   _)).
  right. reflexivity.
Defined.
